(** * awesome-concurrency: locks and SPSC ring buffers

    A shallow embedding of the synchronisation primitives of the repository
    ([src/common/containers/ring_buffer.hpp] and [src/thread/sync/*.hpp]) and
    the properties its specification states about them.

    Conventions.
    - [size_t] and [uint64_t] are 64-bit unsigned: values are [Z] in
      [0, 2^64) and every addition is followed by an explicit [U64.wrap].
    - An atomic variable is a field of the state; every atomic operation
      (load, store, exchange, fetch_add, compare_exchange) is one function on
      that field.  Where a method performs several atomic operations, each one
      is a separate step so that the steps of other threads can be
      interleaved between them.  Atomic operations take effect one at a time,
      in one global order: the [std::memory_order] arguments are not
      modelled.
    - Undefined behaviour in the ring buffers (division by zero, indexing a
      vector out of range) is a [Fault]; a call that faults produces no
      state.  In the queue lock, a step that dereferences a guard that does
      not exist has no successor state.
    - Threads are numbered; a system of threads is the shared object and,
      per thread, the point its current call has reached.  Any thread may
      take the next step: a property of all reachable states holds for
      every interleaving.
    - The kernel's side of a futex call is as futex(2) documents it: a wait
      compares and sleeps in one step, a wake resumes the sleepers, and a
      sleeper may also resume by itself at any time.

    The first part of the file holds the models, the second part the
    properties. *)

From stdpp Require Import prelude functions gmap.
From Stdlib Require Import ZArith Lia.

Local Open Scope Z_scope.

(** ** 64-bit unsigned arithmetic *)

Module U64.

Definition modulus : Z := 2 ^ 64.

Definition wrap (z : Z) : Z := z mod modulus.

(** [x + y] on [uint64_t] / [size_t]. *)
Definition add (x y : Z) : Z := wrap (x + y).

Definition in_range (z : Z) : Prop := 0 ≤ z < modulus.

End U64.

(** ** Outcomes of calls that may hit undefined behaviour *)

Inductive fault : Type :=
  | DivisionByZero      (* [x % 0] *)
  | IndexOutOfRange.    (* [v[i]] with [i >= v.size()] *)

Inductive outcome (A : Type) : Type :=
  | Ok (a : A)
  | Fault (f : fault).
Arguments Ok {A} a.
Arguments Fault {A} f.

Global Instance outcome_ret : MRet outcome := λ A a, Ok a.
Global Instance outcome_bind : MBind outcome := λ A B k m,
  match m with
  | Ok a => k a
  | Fault f => Fault f
  end.
Global Instance outcome_fmap : FMap outcome := λ A B g m,
  match m with
  | Ok a => Ok (g a)
  | Fault f => Fault f
  end.

(** [x % m] on unsigned operands. *)
Definition urem (x m : Z) : outcome Z :=
  if decide (m = 0) then Fault DivisionByZero else Ok (x mod m).

(** ** SPSC ring buffers ([common::containers]) *)

(** The operations a client performs on a buffer, and what each call
    returns. *)
Inductive op (T : Type) : Type :=
  | DoPush (val : T)
  | DoPop.
Arguments DoPush {T} val.
Arguments DoPop {T}.

Inductive ret (T : Type) : Type :=
  | Pushed (ok : bool)
  | Popped (val : option T).
Arguments Pushed {T} ok.
Arguments Popped {T} val.

(** The "lazy construction" block of [Push], shared by both variants:
    [emplace_back] when the slot does not exist yet, assignment otherwise. *)
Definition store_slot {T : Type} (data : list T) (idx : Z) (val : T) : list T :=
  if decide (Z.of_nat (length data) ≤ idx)
  then data ++ [val]
  else <[Z.to_nat idx := val]> data.

(** [data_[idx]]. *)
Definition load_slot {T : Type} (data : list T) (idx : Z) : outcome T :=
  match data !! Z.to_nat idx with
  | Some v => Ok v
  | None => Fault IndexOutOfRange
  end.

Module RingBuffer.
Section WithPayload.

Context {T : Type}.

(** What [std::move] leaves behind in the slot it moves from: the identity
    for trivially copyable payloads, an empty value for owning ones.  No
    property below depends on it. *)
Variable moved_from : T → T.

Record t : Type := Build {
  data_ : list T;
  capacity_ : Z;
  readIdx_ : Z;
  writeIdx_ : Z;
}.

(** The constructor stores the capacity as given; [data_.reserve] changes
    neither [data_.size()] nor any element (a capacity the allocator cannot
    serve makes [reserve] throw; that is outside the model). *)
Definition new (capacity : Z) : t :=
  {| data_ := []; capacity_ := capacity; readIdx_ := 0; writeIdx_ := 0 |}.

Definition Push (val : T) (rb : t) : outcome (bool * t) :=
  let currentWriteIdx := writeIdx_ rb in
  nextWriteIdx ← urem (U64.add currentWriteIdx 1) (capacity_ rb);
  if decide (nextWriteIdx = readIdx_ rb) then Ok (false, rb)
  else
    Ok (true, {| data_ := store_slot (data_ rb) currentWriteIdx val;
                 capacity_ := capacity_ rb;
                 readIdx_ := readIdx_ rb;
                 writeIdx_ := nextWriteIdx |}).

Definition Pop (rb : t) : outcome (option T * t) :=
  let readIdx := readIdx_ rb in
  if decide (readIdx = writeIdx_ rb) then Ok (None, rb)
  else
    val ← load_slot (data_ rb) readIdx;
    nextReadIdx ← urem (U64.add readIdx 1) (capacity_ rb);
    Ok (Some val, {| data_ := <[Z.to_nat readIdx := moved_from val]> (data_ rb);
                     capacity_ := capacity_ rb;
                     readIdx_ := nextReadIdx;
                     writeIdx_ := writeIdx_ rb |}).

Definition apply_op (o : op T) (rb : t) : outcome (ret T * t) :=
  match o with
  | DoPush val => '(ok, rb') ← Push val rb; Ok (Pushed ok, rb')
  | DoPop => '(v, rb') ← Pop rb; Ok (Popped v, rb')
  end.

(** A sequential run: the calls are made one after the other by one thread;
    the first fault ends the run. *)
Fixpoint run (ops : list (op T)) (rb : t) : outcome (list (ret T) * t) :=
  match ops with
  | [] => Ok ([], rb)
  | o :: ops' =>
      '(r, rb') ← apply_op o rb;
      '(rs, rb'') ← run ops' rb';
      Ok (r :: rs, rb'')
  end.

(** The states a buffer constructed with capacity [C] can be in. *)
Definition reachable (C : Z) (rb : t) : Prop :=
  ∃ ops rs, run ops (new C) = Ok (rs, rb).

(** Shape of a buffer of capacity [C >= 1]: both indices are below the
    capacity, and the lazily grown vector either has not wrapped yet (its
    size is the write index) or has all [C] slots. *)
Definition well_formed (C : Z) (rb : t) : Prop :=
  capacity_ rb = C ∧
  0 ≤ readIdx_ rb < C ∧
  0 ≤ writeIdx_ rb < C ∧
  (Z.of_nat (length (data_ rb)) = C ∨
   (Z.of_nat (length (data_ rb)) = writeIdx_ rb ∧ readIdx_ rb ≤ writeIdx_ rb)).

End WithPayload.
End RingBuffer.

(** [FastRingBuffer<T>]: the producer keeps [readIdxCached_], the consumer
    [writeIdxCached_]; each is refreshed from the real index only when the
    cached value says full / empty. *)
Module FastRingBuffer.
Section WithPayload.

Context {T : Type}.
Variable moved_from : T → T.

Record t : Type := Build {
  data_ : list T;
  capacity_ : Z;
  readIdx_ : Z;
  writeIdxCached_ : Z;
  writeIdx_ : Z;
  readIdxCached_ : Z;
}.

Definition new (capacity : Z) : t :=
  {| data_ := []; capacity_ := capacity; readIdx_ := 0;
     writeIdxCached_ := 0; writeIdx_ := 0; readIdxCached_ := 0 |}.

(** [readIdxCached_ = readIdx_.load(acquire)]. *)
Definition refresh_readIdxCached (rb : t) : t :=
  {| data_ := data_ rb; capacity_ := capacity_ rb; readIdx_ := readIdx_ rb;
     writeIdxCached_ := writeIdxCached_ rb; writeIdx_ := writeIdx_ rb;
     readIdxCached_ := readIdx_ rb |}.

(** [writeIdxCached_ = writeIdx_.load(acquire)]. *)
Definition refresh_writeIdxCached (rb : t) : t :=
  {| data_ := data_ rb; capacity_ := capacity_ rb; readIdx_ := readIdx_ rb;
     writeIdxCached_ := writeIdx_ rb; writeIdx_ := writeIdx_ rb;
     readIdxCached_ := readIdxCached_ rb |}.

(** The part of [Push] after the fullness test. *)
Definition commit_push (val : T) (nextWriteIdx : Z) (rb : t) : t :=
  {| data_ := store_slot (data_ rb) (writeIdx_ rb) val;
     capacity_ := capacity_ rb; readIdx_ := readIdx_ rb;
     writeIdxCached_ := writeIdxCached_ rb;
     writeIdx_ := nextWriteIdx;
     readIdxCached_ := readIdxCached_ rb |}.

Definition Push (val : T) (rb : t) : outcome (bool * t) :=
  let currentWriteIdx := writeIdx_ rb in
  nextWriteIdx ← urem (U64.add currentWriteIdx 1) (capacity_ rb);
  if decide (nextWriteIdx = readIdxCached_ rb) then
    let rb1 := refresh_readIdxCached rb in
    if decide (nextWriteIdx = readIdxCached_ rb1) then Ok (false, rb1)
    else Ok (true, commit_push val nextWriteIdx rb1)
  else Ok (true, commit_push val nextWriteIdx rb).

(** The part of [Pop] after the emptiness test. *)
Definition commit_pop (rb : t) : outcome (option T * t) :=
  let readIdx := readIdx_ rb in
  val ← load_slot (data_ rb) readIdx;
  nextReadIdx ← urem (U64.add readIdx 1) (capacity_ rb);
  Ok (Some val, {| data_ := <[Z.to_nat readIdx := moved_from val]> (data_ rb);
                   capacity_ := capacity_ rb;
                   readIdx_ := nextReadIdx;
                   writeIdxCached_ := writeIdxCached_ rb;
                   writeIdx_ := writeIdx_ rb;
                   readIdxCached_ := readIdxCached_ rb |}).

Definition Pop (rb : t) : outcome (option T * t) :=
  let readIdx := readIdx_ rb in
  if decide (readIdx = writeIdxCached_ rb) then
    let rb1 := refresh_writeIdxCached rb in
    if decide (readIdx = writeIdxCached_ rb1) then Ok (None, rb1)
    else commit_pop rb1
  else commit_pop rb.

Definition apply_op (o : op T) (rb : t) : outcome (ret T * t) :=
  match o with
  | DoPush val => '(ok, rb') ← Push val rb; Ok (Pushed ok, rb')
  | DoPop => '(v, rb') ← Pop rb; Ok (Popped v, rb')
  end.

Fixpoint run (ops : list (op T)) (rb : t) : outcome (list (ret T) * t) :=
  match ops with
  | [] => Ok ([], rb)
  | o :: ops' =>
      '(r, rb') ← apply_op o rb;
      '(rs, rb'') ← run ops' rb';
      Ok (r :: rs, rb'')
  end.

(** The states a fast buffer constructed with capacity [C] can be in. *)
Definition reachable (C : Z) (rb : t) : Prop :=
  ∃ ops rs, run ops (new C) = Ok (rs, rb).

(** The plain buffer a fast buffer stands for: the caches are dropped. *)
Definition erase_caches (rb : t) : RingBuffer.t :=
  {| RingBuffer.data_ := data_ rb; RingBuffer.capacity_ := capacity_ rb;
     RingBuffer.readIdx_ := readIdx_ rb; RingBuffer.writeIdx_ := writeIdx_ rb |}.

(** The caches are stale but never wrong: counting pops ([R]) and pushes
    ([W]) without wrap-around, the producer's view [Rc] of the read index and
    the consumer's view [Wc] of the write index satisfy
    [Rc <= R <= Wc <= W <= Rc + C - 1]. *)
Definition caches_consistent (C : Z) (rb : t) : Prop :=
  ∃ Rc R Wc W : Z,
    0 ≤ Rc ∧ Rc ≤ R ∧ R ≤ Wc ∧ Wc ≤ W ∧ W ≤ Rc + C - 1 ∧
    capacity_ rb = C ∧
    readIdxCached_ rb = Rc mod C ∧ readIdx_ rb = R mod C ∧
    writeIdxCached_ rb = Wc mod C ∧ writeIdx_ rb = W mod C.

End WithPayload.
End FastRingBuffer.

(** ** One producer and one consumer on a [FastRingBuffer]

    [Push] is called by one thread and [Pop] by another
    ([tests/containers/fast_ring_buffer_test.cpp], from [CacheOptimization]
    on).  Each call is split where it touches what the other thread reads or
    writes: the index it loads, the slot, the index it stores.  [writeIdx_]
    and [readIdxCached_] are written by the producer only, [readIdx_] and
    [writeIdxCached_] by the consumer only, so a thread's reads of its own
    index or cache are part of the step that follows them. *)

Module SPSC.
Section WithPayload.

Context {T : Type}.
Variable moved_from : T → T.

Local Abbreviation buffer_t := (FastRingBuffer.t (T := T)).

(** [Push] up to the fullness test: the index to publish, or [None] when
    the buffer is full. *)
Definition push_check (rb : buffer_t) : outcome (option Z * buffer_t) :=
  let currentWriteIdx := FastRingBuffer.writeIdx_ rb in
  nextWriteIdx ← urem (U64.add currentWriteIdx 1) (FastRingBuffer.capacity_ rb);
  if decide (nextWriteIdx = FastRingBuffer.readIdxCached_ rb) then
    let rb1 := FastRingBuffer.refresh_readIdxCached rb in
    if decide (nextWriteIdx = FastRingBuffer.readIdxCached_ rb1) then Ok (None, rb1)
    else Ok (Some nextWriteIdx, rb1)
  else Ok (Some nextWriteIdx, rb).

(** The "lazy construction" block of [Push]. *)
Definition push_write (val : T) (rb : buffer_t) : buffer_t :=
  {| FastRingBuffer.data_ :=
       store_slot (FastRingBuffer.data_ rb) (FastRingBuffer.writeIdx_ rb) val;
     FastRingBuffer.capacity_ := FastRingBuffer.capacity_ rb;
     FastRingBuffer.readIdx_ := FastRingBuffer.readIdx_ rb;
     FastRingBuffer.writeIdxCached_ := FastRingBuffer.writeIdxCached_ rb;
     FastRingBuffer.writeIdx_ := FastRingBuffer.writeIdx_ rb;
     FastRingBuffer.readIdxCached_ := FastRingBuffer.readIdxCached_ rb |}.

(** [writeIdx_.store(nextWriteIdx, release)]. *)
Definition push_publish (nextWriteIdx : Z) (rb : buffer_t) : buffer_t :=
  {| FastRingBuffer.data_ := FastRingBuffer.data_ rb;
     FastRingBuffer.capacity_ := FastRingBuffer.capacity_ rb;
     FastRingBuffer.readIdx_ := FastRingBuffer.readIdx_ rb;
     FastRingBuffer.writeIdxCached_ := FastRingBuffer.writeIdxCached_ rb;
     FastRingBuffer.writeIdx_ := nextWriteIdx;
     FastRingBuffer.readIdxCached_ := FastRingBuffer.readIdxCached_ rb |}.

(** [Pop] up to the emptiness test: [false] when the buffer is empty. *)
Definition pop_check (rb : buffer_t) : bool * buffer_t :=
  let readIdx := FastRingBuffer.readIdx_ rb in
  if decide (readIdx = FastRingBuffer.writeIdxCached_ rb) then
    let rb1 := FastRingBuffer.refresh_writeIdxCached rb in
    if decide (readIdx = FastRingBuffer.writeIdxCached_ rb1) then (false, rb1)
    else (true, rb1)
  else (true, rb).

(** [auto val = std::move(data_[readIdx])]. *)
Definition pop_move (rb : buffer_t) : outcome (T * buffer_t) :=
  let readIdx := FastRingBuffer.readIdx_ rb in
  val ← load_slot (FastRingBuffer.data_ rb) readIdx;
  Ok (val,
      {| FastRingBuffer.data_ :=
           <[Z.to_nat readIdx := moved_from val]> (FastRingBuffer.data_ rb);
         FastRingBuffer.capacity_ := FastRingBuffer.capacity_ rb;
         FastRingBuffer.readIdx_ := FastRingBuffer.readIdx_ rb;
         FastRingBuffer.writeIdxCached_ := FastRingBuffer.writeIdxCached_ rb;
         FastRingBuffer.writeIdx_ := FastRingBuffer.writeIdx_ rb;
         FastRingBuffer.readIdxCached_ := FastRingBuffer.readIdxCached_ rb |}).

(** [readIdx_.store((readIdx + 1) % capacity_, release)]. *)
Definition pop_publish (rb : buffer_t) : outcome buffer_t :=
  nextReadIdx ← urem (U64.add (FastRingBuffer.readIdx_ rb) 1) (FastRingBuffer.capacity_ rb);
  Ok {| FastRingBuffer.data_ := FastRingBuffer.data_ rb;
        FastRingBuffer.capacity_ := FastRingBuffer.capacity_ rb;
        FastRingBuffer.readIdx_ := nextReadIdx;
        FastRingBuffer.writeIdxCached_ := FastRingBuffer.writeIdxCached_ rb;
        FastRingBuffer.writeIdx_ := FastRingBuffer.writeIdx_ rb;
        FastRingBuffer.readIdxCached_ := FastRingBuffer.readIdxCached_ rb |}.

(** Where each thread is in its call. *)
Inductive producer : Type :=
  | PIdle
  | PChecked (val : T) (nextWriteIdx : Z)   (* not full: about to write the slot *)
  | PWritten (val : T) (nextWriteIdx : Z).  (* about to store [writeIdx_] *)

Inductive consumer : Type :=
  | CIdle
  | CChecked                                 (* not empty: about to move the slot out *)
  | CMoved (val : T).                        (* about to store [readIdx_] *)

Record state : Type := State {
  buffer : buffer_t;
  producing : producer;
  consuming : consumer;
  (** History: the values whose [Push] returned true, and the values [Pop]
      returned, in order. *)
  pushed : list T;
  popped : list T;
}.

Inductive action : Type :=
  | PushCheck (val : T)   (* the producer calls [Push(val)] *)
  | PushWrite
  | PushPublish           (* [Push] returns true *)
  | PopCheck              (* the consumer calls [Pop()] *)
  | PopMove
  | PopPublish.           (* [Pop] returns the value *)

Definition init (capacity : Z) : state :=
  {| buffer := FastRingBuffer.new capacity; producing := PIdle; consuming := CIdle;
     pushed := []; popped := [] |}.

(** [None]: the thread is not at that point of its call.  [Some (Fault _)]:
    the step is undefined behaviour. *)
Definition step (a : action) (s : state) : option (outcome state) :=
  match a with
  | PushCheck val =>
      match producing s with
      | PIdle =>
          Some ('(r, rb) ← push_check (buffer s);
                Ok {| buffer := rb;
                      producing := match r with
                                   | Some nextWriteIdx => PChecked val nextWriteIdx
                                   | None => PIdle
                                   end;
                      consuming := consuming s;
                      pushed := pushed s; popped := popped s |})
      | _ => None
      end
  | PushWrite =>
      match producing s with
      | PChecked val nextWriteIdx =>
          Some (Ok {| buffer := push_write val (buffer s);
                      producing := PWritten val nextWriteIdx;
                      consuming := consuming s;
                      pushed := pushed s; popped := popped s |})
      | _ => None
      end
  | PushPublish =>
      match producing s with
      | PWritten val nextWriteIdx =>
          Some (Ok {| buffer := push_publish nextWriteIdx (buffer s);
                      producing := PIdle;
                      consuming := consuming s;
                      pushed := pushed s ++ [val]; popped := popped s |})
      | _ => None
      end
  | PopCheck =>
      match consuming s with
      | CIdle =>
          let '(go, rb) := pop_check (buffer s) in
          Some (Ok {| buffer := rb;
                      producing := producing s;
                      consuming := if go then CChecked else CIdle;
                      pushed := pushed s; popped := popped s |})
      | _ => None
      end
  | PopMove =>
      match consuming s with
      | CChecked =>
          Some ('(val, rb) ← pop_move (buffer s);
                Ok {| buffer := rb;
                      producing := producing s;
                      consuming := CMoved val;
                      pushed := pushed s; popped := popped s |})
      | _ => None
      end
  | PopPublish =>
      match consuming s with
      | CMoved val =>
          Some (rb ← pop_publish (buffer s);
                Ok {| buffer := rb;
                      producing := producing s;
                      consuming := CIdle;
                      pushed := pushed s; popped := popped s ++ [val] |})
      | _ => None
      end
  end.

Inductive reachable (capacity : Z) : state → Prop :=
  | reachable_init : reachable capacity (init capacity)
  | reachable_step s a s' :
      reachable capacity s → step a s = Some (Ok s') → reachable capacity s'.

(** A schedule; [None] when an action is not enabled or faults. *)
Fixpoint exec (schedule : list action) (s : state) : option state :=
  match schedule with
  | [] => Some s
  | a :: rest =>
      match step a s with
      | Some (Ok s') => exec rest s'
      | _ => None
      end
  end.

(** *** Invariant

    With [W] pushes and [R] pops completed, the indices are [W mod C] and
    [R mod C]; the caches are past values [Rc mod C], [Wc mod C] of them,
    with [Rc <= R <= Wc <= W <= Rc + C - 1]; the values pushed and not yet
    moved out sit in the slots [R mod C], ..., [(W - 1) mod C]; and the
    vector has grown one slot per push until it has all [C]. *)
Definition producer_ok (C Rc : Z) (s : state) : Prop :=
  let W := Z.of_nat (length (pushed s)) in
  match producing s with
  | PIdle => True
  | PChecked _ nextWriteIdx =>
      nextWriteIdx = (W + 1) mod C ∧ W + 1 ≤ Rc + C - 1
  | PWritten val nextWriteIdx =>
      nextWriteIdx = (W + 1) mod C ∧ W + 1 ≤ Rc + C - 1 ∧
      FastRingBuffer.data_ (buffer s) !! Z.to_nat (W mod C) = Some val
  end.

Definition consumer_ok (Wc : Z) (s : state) : Prop :=
  let R := Z.of_nat (length (popped s)) in
  match consuming s with
  | CIdle => True
  | CChecked => R < Wc
  | CMoved val => R < Wc ∧ pushed s !! length (popped s) = Some val
  end.

(** The first position whose slot still holds its value. *)
Definition first_held (s : state) : nat :=
  match consuming s with
  | CMoved _ => S (length (popped s))
  | _ => length (popped s)
  end.

(** The pushes whose slot has been written. *)
Definition written (s : state) : Z :=
  match producing s with
  | PWritten _ _ => Z.of_nat (length (pushed s)) + 1
  | _ => Z.of_nat (length (pushed s))
  end.

Definition in_order (C : Z) (s : state) : Prop :=
  let W := Z.of_nat (length (pushed s)) in
  let R := Z.of_nat (length (popped s)) in
  ∃ Rc Wc : Z,
    FastRingBuffer.capacity_ (buffer s) = C ∧
    FastRingBuffer.writeIdx_ (buffer s) = W mod C ∧
    FastRingBuffer.readIdx_ (buffer s) = R mod C ∧
    FastRingBuffer.readIdxCached_ (buffer s) = Rc mod C ∧
    FastRingBuffer.writeIdxCached_ (buffer s) = Wc mod C ∧
    (0 ≤ Rc ∧ Rc ≤ R ∧ R ≤ Wc ∧ Wc ≤ W ∧ W ≤ Rc + C - 1) ∧
    popped s = take (length (popped s)) (pushed s) ∧
    producer_ok C Rc s ∧ consumer_ok Wc s ∧
    (∀ k : nat, (first_held s ≤ k < length (pushed s))%nat →
       FastRingBuffer.data_ (buffer s) !! Z.to_nat (Z.of_nat k mod C) = pushed s !! k) ∧
    Z.of_nat (length (FastRingBuffer.data_ (buffer s))) = Z.min (written s) C.

End WithPayload.
End SPSC.

(** ** One producer and one consumer on a plain [RingBuffer]

    The same split of [Push] and [Pop] as for the fast buffer; here every
    fullness or emptiness test loads the other thread's index. *)

Module SPSCPlain.
Section WithPayload.

Context {T : Type}.
Variable moved_from : T → T.

Local Abbreviation buffer_t := (RingBuffer.t (T := T)).

(** [Push] up to the fullness test. *)
Definition push_check (rb : buffer_t) : outcome (option Z) :=
  let currentWriteIdx := RingBuffer.writeIdx_ rb in
  nextWriteIdx ← urem (U64.add currentWriteIdx 1) (RingBuffer.capacity_ rb);
  if decide (nextWriteIdx = RingBuffer.readIdx_ rb) then Ok None
  else Ok (Some nextWriteIdx).

Definition push_write (val : T) (rb : buffer_t) : buffer_t :=
  {| RingBuffer.data_ := store_slot (RingBuffer.data_ rb) (RingBuffer.writeIdx_ rb) val;
     RingBuffer.capacity_ := RingBuffer.capacity_ rb;
     RingBuffer.readIdx_ := RingBuffer.readIdx_ rb;
     RingBuffer.writeIdx_ := RingBuffer.writeIdx_ rb |}.

Definition push_publish (nextWriteIdx : Z) (rb : buffer_t) : buffer_t :=
  {| RingBuffer.data_ := RingBuffer.data_ rb;
     RingBuffer.capacity_ := RingBuffer.capacity_ rb;
     RingBuffer.readIdx_ := RingBuffer.readIdx_ rb;
     RingBuffer.writeIdx_ := nextWriteIdx |}.

(** [Pop] up to the emptiness test: [false] when the buffer is empty. *)
Definition pop_check (rb : buffer_t) : bool :=
  if decide (RingBuffer.readIdx_ rb = RingBuffer.writeIdx_ rb) then false else true.

Definition pop_move (rb : buffer_t) : outcome (T * buffer_t) :=
  let readIdx := RingBuffer.readIdx_ rb in
  val ← load_slot (RingBuffer.data_ rb) readIdx;
  Ok (val,
      {| RingBuffer.data_ := <[Z.to_nat readIdx := moved_from val]> (RingBuffer.data_ rb);
         RingBuffer.capacity_ := RingBuffer.capacity_ rb;
         RingBuffer.readIdx_ := RingBuffer.readIdx_ rb;
         RingBuffer.writeIdx_ := RingBuffer.writeIdx_ rb |}).

Definition pop_publish (rb : buffer_t) : outcome buffer_t :=
  nextReadIdx ← urem (U64.add (RingBuffer.readIdx_ rb) 1) (RingBuffer.capacity_ rb);
  Ok {| RingBuffer.data_ := RingBuffer.data_ rb;
        RingBuffer.capacity_ := RingBuffer.capacity_ rb;
        RingBuffer.readIdx_ := nextReadIdx;
        RingBuffer.writeIdx_ := RingBuffer.writeIdx_ rb |}.

Record state : Type := State {
  buffer : buffer_t;
  producing : SPSC.producer (T := T);
  consuming : SPSC.consumer (T := T);
  pushed : list T;
  popped : list T;
}.

Definition init (capacity : Z) : state :=
  {| buffer := RingBuffer.new capacity; producing := SPSC.PIdle;
     consuming := SPSC.CIdle; pushed := []; popped := [] |}.

Definition step (a : SPSC.action (T := T)) (s : state) : option (outcome state) :=
  match a with
  | SPSC.PushCheck val =>
      match producing s with
      | SPSC.PIdle =>
          Some (r ← push_check (buffer s);
                Ok {| buffer := buffer s;
                      producing := match r with
                                   | Some nextWriteIdx => SPSC.PChecked val nextWriteIdx
                                   | None => SPSC.PIdle
                                   end;
                      consuming := consuming s;
                      pushed := pushed s; popped := popped s |})
      | _ => None
      end
  | SPSC.PushWrite =>
      match producing s with
      | SPSC.PChecked val nextWriteIdx =>
          Some (Ok {| buffer := push_write val (buffer s);
                      producing := SPSC.PWritten val nextWriteIdx;
                      consuming := consuming s;
                      pushed := pushed s; popped := popped s |})
      | _ => None
      end
  | SPSC.PushPublish =>
      match producing s with
      | SPSC.PWritten val nextWriteIdx =>
          Some (Ok {| buffer := push_publish nextWriteIdx (buffer s);
                      producing := SPSC.PIdle;
                      consuming := consuming s;
                      pushed := pushed s ++ [val]; popped := popped s |})
      | _ => None
      end
  | SPSC.PopCheck =>
      match consuming s with
      | SPSC.CIdle =>
          Some (Ok {| buffer := buffer s;
                      producing := producing s;
                      consuming := if pop_check (buffer s) then SPSC.CChecked
                                   else SPSC.CIdle;
                      pushed := pushed s; popped := popped s |})
      | _ => None
      end
  | SPSC.PopMove =>
      match consuming s with
      | SPSC.CChecked =>
          Some ('(val, rb) ← pop_move (buffer s);
                Ok {| buffer := rb;
                      producing := producing s;
                      consuming := SPSC.CMoved val;
                      pushed := pushed s; popped := popped s |})
      | _ => None
      end
  | SPSC.PopPublish =>
      match consuming s with
      | SPSC.CMoved val =>
          Some (rb ← pop_publish (buffer s);
                Ok {| buffer := rb;
                      producing := producing s;
                      consuming := SPSC.CIdle;
                      pushed := pushed s; popped := popped s ++ [val] |})
      | _ => None
      end
  end.

Inductive reachable (capacity : Z) : state → Prop :=
  | reachable_init : reachable capacity (init capacity)
  | reachable_step s a s' :
      reachable capacity s → step a s = Some (Ok s') → reachable capacity s'.

Fixpoint exec (schedule : list SPSC.action) (s : state) : option state :=
  match schedule with
  | [] => Some s
  | a :: rest =>
      match step a s with
      | Some (Ok s') => exec rest s'
      | _ => None
      end
  end.

(** The state of the fast buffer run alongside: the same buffer apart from
    the caches, the same points of the two calls, the same history. *)
Definition twin (p : state) (f : SPSC.state (T := T)) : Prop :=
  FastRingBuffer.erase_caches (SPSC.buffer f) = buffer p ∧
  SPSC.producing f = producing p ∧ SPSC.consuming f = consuming p ∧
  SPSC.pushed f = pushed p ∧ SPSC.popped f = popped p.

End WithPayload.
End SPSCPlain.

(** ** The bounded FIFO queue a ring buffer stands for

    A buffer of capacity [C] holds at most [C - 1] elements: one slot is
    kept empty to tell full from empty. *)

Module BoundedQueue.
Section WithPayload.

Context {T : Type}.

Definition Push (room : Z) (val : T) (q : list T) : bool * list T :=
  if decide (room ≤ Z.of_nat (length q)) then (false, q) else (true, q ++ [val]).

Definition Pop (q : list T) : option T * list T :=
  match q with
  | [] => (None, [])
  | x :: q' => (Some x, q')
  end.

Definition apply_op (room : Z) (o : op T) (q : list T) : ret T * list T :=
  match o with
  | DoPush val => let '(ok, q') := Push room val q in (Pushed ok, q')
  | DoPop => let '(v, q') := Pop q in (Popped v, q')
  end.

Fixpoint run (room : Z) (ops : list (op T)) (q : list T) : list (ret T) * list T :=
  match ops with
  | [] => ([], q)
  | o :: ops' =>
      let '(r, q') := apply_op room o q in
      let '(rs, q'') := run room ops' q' in
      (r :: rs, q'')
  end.

(** [rb] holds the queue [q]: the elements of [q], oldest first, are in the
    slots from [readIdx_] on, cyclically, up to [writeIdx_]. *)
Definition held_by (C : Z) (rb : RingBuffer.t) (q : list T) : Prop :=
  RingBuffer.well_formed C rb ∧
  Z.of_nat (length q) = (RingBuffer.writeIdx_ rb - RingBuffer.readIdx_ rb) mod C ∧
  ∀ (k : nat) (x : T), q !! k = Some x →
    RingBuffer.data_ rb !! Z.to_nat ((RingBuffer.readIdx_ rb + Z.of_nat k) mod C)
      = Some x.

End WithPayload.
End BoundedQueue.

(** ** Atomic operations ([std::atomic])

    Each function takes the current value of the atomic object and returns
    what the operation returns together with the object's new value.  On
    failure a compare-exchange also writes the observed value back into its
    [expected] argument; no caller in this repository reads [expected]
    afterwards, so the write-back is not part of the result. *)

Module Atomic.

Definition exchange {A : Type} (obj desired : A) : A * A := (obj, desired).

(** [fetch_add] on a [uint64_t]. *)
Definition fetch_add (obj arg : Z) : Z * Z := (obj, U64.add obj arg).

Definition compare_exchange_strong {A : Type} `{EqDecision A}
    (obj expected desired : A) : bool * A :=
  if decide (obj = expected) then (true, desired) else (false, obj).

(** [compare_exchange_weak] "may fail spuriously": even when the object
    holds [expected] it may return false and leave the object as it is.
    [spurious] is the platform's choice for this one attempt. *)
Definition compare_exchange_weak {A : Type} `{EqDecision A}
    (spurious : bool) (obj expected desired : A) : bool * A :=
  if spurious then (false, obj) else compare_exchange_strong obj expected desired.

End Atomic.

(** ** TTAS spinlock ([thread::sync::TASSpinLock]) *)

Module TASSpinLock.

Record t : Type := Build { locked_ : bool }.

Definition new : t := {| locked_ := false |}.

Definition TryCompareExchange (spurious : bool) (l : t) : bool * t :=
  let '(ok, v) := Atomic.compare_exchange_weak spurious (locked_ l) false true in
  (ok, {| locked_ := v |}).

Definition try_lock (spurious : bool) (l : t) : bool * t :=
  TryCompareExchange spurious l.

Definition unlock (l : t) : t := {| locked_ := false |}.

(** [lock()] run by a thread while no other thread takes a step.  The list
    gives the platform's choice for each successive weak compare-exchange.
    [None]: the call has not returned, either because the attempts listed
    are used up, or because the flag is set and, with nobody else running,
    the inner read loop never sees it cleared. *)
Fixpoint lock (spurious : list bool) (l : t) : option t :=
  match spurious with
  | [] => None
  | sp :: rest =>
      let '(ok, l') := TryCompareExchange sp l in
      if ok then Some l'
      else if locked_ l' then None
      else lock rest l'
  end.

(** *** Threads sharing one lock *)

Inductive status : Type :=
  | Idle          (* in no call, not holding *)
  | Retry         (* in [lock()]: about to run [TryCompareExchange] again *)
  | Watching      (* in [lock()]: the compare-exchange failed; in the inner
                     loop that reads [locked_] *)
  | Holding.      (* [lock()] / [try_lock()] returned success *)

(** One atomic operation of one thread; [spurious] is the platform's choice
    for a weak compare-exchange. *)
Inductive action : Type :=
  | LockAttempt (spurious : bool)   (* [TryCompareExchange] in [lock()] *)
  | ReadFlag                         (* [locked_.load()] in the inner loop *)
  | CallTryLock (spurious : bool)
  | CallUnlock.

Record system : Type := System {
  flag : t;
  threads : nat → status;
}.

Definition init : system := {| flag := new; threads := λ _, Idle |}.

Definition step (i : nat) (a : action) (s : system) : option system :=
  match a, threads s i with
  | LockAttempt spurious, Idle | LockAttempt spurious, Retry =>
      let '(ok, l') := TryCompareExchange spurious (flag s) in
      Some {| flag := l';
              threads := <[i := if ok then Holding else Watching]> (threads s) |}
  | ReadFlag, Watching =>
      Some {| flag := flag s;
              threads := <[i := if locked_ (flag s) then Watching else Retry]>
                           (threads s) |}
  | CallTryLock spurious, Idle =>
      let '(ok, l') := try_lock spurious (flag s) in
      Some {| flag := l';
              threads := <[i := if ok then Holding else Idle]> (threads s) |}
  | CallUnlock, Holding =>
      Some {| flag := unlock (flag s); threads := <[i := Idle]> (threads s) |}
  | _, _ => None
  end.

Inductive reachable : system → Prop :=
  | reachable_init : reachable init
  | reachable_step s i a s' : reachable s → step i a s = Some s' → reachable s'.

(** The flag is set exactly while some thread holds the lock, and only one
    thread does. *)
Definition exclusive (s : system) : Prop :=
  (locked_ (flag s) = true ↔ ∃ i, threads s i = Holding) ∧
  (∀ i j, threads s i = Holding → threads s j = Holding → i = j).

End TASSpinLock.

(** ** Ticket lock ([thread::sync::TicketLock]) *)

Module TicketLock.

Record t : Type := Build {
  next_free_ticket_ : Z;
  owner_ticket_ : Z;
}.

Definition new : t := {| next_free_ticket_ := 0; owner_ticket_ := 0 |}.

(** *** The atomic operations of each method *)

(** [lock()], first statement: [next_free_ticket_.fetch_add(1)]; returns
    [this_thread_ticket]. *)
Definition lock_draw (l : t) : Z * t :=
  let '(old, v) := Atomic.fetch_add (next_free_ticket_ l) 1 in
  (old, {| next_free_ticket_ := v; owner_ticket_ := owner_ticket_ l |}).

(** [lock()], one evaluation of the loop condition
    [this_thread_ticket != owner_ticket_.load()]: true when the thread keeps
    spinning. *)
Definition lock_must_spin (this_thread_ticket : Z) (l : t) : bool :=
  bool_decide (this_thread_ticket ≠ owner_ticket_ l).

(** [try_lock()], first statement: [owner_ticket_.load()]. *)
Definition try_lock_load (l : t) : Z := owner_ticket_ l.

(** [try_lock()], second statement: the compare-exchange on
    [next_free_ticket_]. *)
Definition try_lock_cas (current_owner_ticket : Z) (l : t) : bool * t :=
  let '(ok, v) :=
    Atomic.compare_exchange_strong (next_free_ticket_ l)
      current_owner_ticket (U64.add current_owner_ticket 1) in
  (ok, {| next_free_ticket_ := v; owner_ticket_ := owner_ticket_ l |}).

(** [try_lock()] when no other thread steps between its two statements. *)
Definition try_lock (l : t) : bool * t := try_lock_cas (try_lock_load l) l.

Definition unlock (l : t) : t :=
  let '(_, v) := Atomic.fetch_add (owner_ticket_ l) 1 in
  {| next_free_ticket_ := next_free_ticket_ l; owner_ticket_ := v |}.

(** *** Threads sharing one lock *)

(** Where a thread is with respect to the lock. *)
Inductive status : Type :=
  | Idle                                   (* in no call, not holding *)
  | Spinning (this_thread_ticket : Z)      (* in [lock()], ticket drawn *)
  | TryLoaded (current_owner_ticket : Z)   (* in [try_lock()], before the CAS *)
  | Holding (ticket : Z).                  (* [lock()] / [try_lock()] returned
                                              success, [unlock()] not yet called *)

(** One atomic operation of one thread. *)
Inductive action : Type :=
  | CallLock       (* enter [lock()]: the fetch_add *)
  | SpinOnce       (* one evaluation of the loop condition of [lock()] *)
  | CallTryLock    (* enter [try_lock()]: the load *)
  | TryLockCas     (* the compare-exchange of [try_lock()]; the call returns *)
  | CallUnlock.    (* [unlock()], by a thread that holds the lock *)

Record system : Type := System {
  lock : t;
  threads : nat → status;
}.

Definition init : system := {| lock := new; threads := λ _, Idle |}.

Definition step (i : nat) (a : action) (s : system) : option system :=
  match a, threads s i with
  | CallLock, Idle =>
      let '(ticket, l') := lock_draw (lock s) in
      Some {| lock := l'; threads := <[i := Spinning ticket]> (threads s) |}
  | SpinOnce, Spinning ticket =>
      if lock_must_spin ticket (lock s) then Some s
      else Some {| lock := lock s; threads := <[i := Holding ticket]> (threads s) |}
  | CallTryLock, Idle =>
      Some {| lock := lock s;
              threads := <[i := TryLoaded (try_lock_load (lock s))]> (threads s) |}
  | TryLockCas, TryLoaded cur =>
      let '(ok, l') := try_lock_cas cur (lock s) in
      Some {| lock := l';
              threads := <[i := if ok then Holding cur else Idle]> (threads s) |}
  | CallUnlock, Holding _ =>
      Some {| lock := unlock (lock s); threads := <[i := Idle]> (threads s) |}
  | _, _ => None
  end.

(** [reachable_in n s]: [s] is reached from a fresh lock by [n] atomic
    operations of any threads, in any order. *)
Inductive reachable_in : nat → system → Prop :=
  | reachable_init : reachable_in 0 init
  | reachable_step n s i a s' :
      reachable_in n s → step i a s = Some s' → reachable_in (S n) s'.

(** A schedule: which thread performs which operation, in order. *)
Fixpoint exec (schedule : list (nat * action)) (s : system) : option system :=
  match schedule with
  | [] => Some s
  | (i, a) :: rest => s' ← step i a s; exec rest s'
  end.

(** [others_run i m s s']: [m] atomic operations of threads other than [i]
    lead from [s] to [s']. *)
Inductive others_run (i : nat) : nat → system → system → Prop :=
  | others_done s : others_run i 0 s s
  | others_step m s j a s1 s2 :
      j ≠ i → step j a s = Some s1 → others_run i m s1 s2 →
      others_run i (S m) s s2.

(** The ticket a thread has drawn: by [fetch_add] in [lock()], or by the
    successful compare-exchange of [try_lock()]. *)
Definition drawn_ticket (st : status) : option Z :=
  match st with
  | Spinning ticket | Holding ticket => Some ticket
  | Idle | TryLoaded _ => None
  end.

(** A thread holds the lock from the return of its [lock()] or successful
    [try_lock()] until its [unlock()]. *)
Definition holds (s : system) (i : nat) : Prop :=
  ∃ ticket, threads s i = Holding ticket.

(** No thread holds the lock and no thread is queued for it. *)
Definition unheld_and_no_waiter (s : system) : Prop :=
  ∀ i, drawn_ticket (threads s i) = None.

(** The invariant of the first [n < 2^64] steps: no counter has wrapped,
    the tickets in [[owner, next)] are exactly the ones drawn and not yet
    released, each by one thread, and the holder has ticket [owner]. *)
Definition tickets_consistent (n : nat) (s : system) : Prop :=
  let next := next_free_ticket_ (lock s) in
  let owner := owner_ticket_ (lock s) in
  0 ≤ owner ∧ owner ≤ next ∧ next ≤ Z.of_nat n ∧
  (∀ i t, drawn_ticket (threads s i) = Some t → owner ≤ t < next) ∧
  (∀ i j t, drawn_ticket (threads s i) = Some t →
            drawn_ticket (threads s j) = Some t → i = j) ∧
  (∀ i t, threads s i = Holding t → t = owner) ∧
  (∀ i c, threads s i = TryLoaded c → 0 ≤ c ≤ owner) ∧
  (∀ t, owner ≤ t < next → ∃ i, drawn_ticket (threads s i) = Some t).

End TicketLock.

(** ** Futex calls ([os::futex])

    [SetTimeout] fills a [struct timespec] from a number of microseconds
    given as a [uint32_t]; [WaitTimed] passes it to the kernel.  The
    quotient, the remainder and the product are computed in [unsigned int]
    (32 bits, the literals being converted), then stored into the signed
    64-bit fields [tv_sec] and [tv_nsec]. *)

Module Futex.

Module U32.
Definition modulus : Z := 2 ^ 32.
Definition wrap (x : Z) : Z := x mod modulus.
Definition in_range (x : Z) : Prop := 0 ≤ x < modulus.
End U32.

Record timespec : Type := Timespec {
  tv_sec : Z;
  tv_nsec : Z;
}.

Definition SetTimeout (micros : Z) : timespec :=
  {| tv_sec := micros / 1000000;
     tv_nsec := U32.wrap ((micros mod 1000000) * 1000) |}.

(** The arguments [WaitTimed] passes to [FUTEX_WAIT_PRIVATE]: the expected
    value and the timeout. *)
Record timed_wait : Type := TimedWait {
  expected : Z;
  timeout : timespec;
}.

Definition WaitTimed (old micros : Z) : timed_wait :=
  {| expected := old; timeout := SetTimeout micros |}.

End Futex.

(** ** Futex mutex ([thread::sync::Mutex], [os::futex]) *)

Module Mutex.

Module State.
Definition Unlocked : Z := 0.
Definition LockedNoWaiters : Z := 1.
Definition LockedHasWaiters : Z := 2.
End State.

Definition INT32_MAX : Z := 2 ^ 31 - 1.

(** The futex system calls made on the address of [lock_]. *)
Inductive futex_call : Type :=
  | FUTEX_WAIT (oldval : Z)
  | FUTEX_WAKE (count : Z).

(** The state word and the system calls issued so far. *)
Record t : Type := Build {
  lock_ : Z;
  syscalls : list futex_call;
}.

Definition new : t := {| lock_ := State.Unlocked; syscalls := [] |}.

(** Methods run in a state monad over [t]. *)
Definition M (A : Type) : Type := t → A * t.

Definition ret {A : Type} (a : A) : M A := λ m, (a, m).
Definition bind {A B : Type} (c : M A) (k : A → M B) : M B :=
  λ m, let '(a, m') := c m in k a m'.

Notation "'do' x <- c ; k" := (bind c (λ x, k))
  (at level 10, x name, c at level 100, k at level 200).

(** [lock_.store(v)]. *)
Definition store (v : Z) : M unit :=
  λ m, (tt, {| lock_ := v; syscalls := syscalls m |}).

(** [os::futex::WakeAll(&lock_)]. *)
Definition WakeAll : M unit :=
  λ m, (tt, {| lock_ := lock_ m; syscalls := syscalls m ++ [FUTEX_WAKE INT32_MAX] |}).

Definition CompareExchange (expected desired : Z) : M bool :=
  λ m, let '(ok, v) := Atomic.compare_exchange_strong (lock_ m) expected desired in
       (ok, {| lock_ := v; syscalls := syscalls m |}).

Definition FastPathLock : M bool :=
  CompareExchange State.Unlocked State.LockedNoWaiters.

(** The first statement of [SlowPathLock]: a contending thread announces
    itself. *)
Definition SlowPathLock_announce : M bool :=
  CompareExchange State.LockedNoWaiters State.LockedHasWaiters.

Definition UnlockFastPath : M bool :=
  CompareExchange State.LockedNoWaiters State.Unlocked.

Definition unlock : M unit :=
  do fast <- UnlockFastPath;
  if fast then ret tt
  else
    do _ <- store State.Unlocked;
    WakeAll.

(** The wake calls among a list of system calls. *)
Definition is_wake (c : futex_call) : bool :=
  match c with
  | FUTEX_WAKE _ => true
  | FUTEX_WAIT _ => false
  end.

Definition wakes (calls : list futex_call) : list futex_call :=
  List.filter is_wake calls.

(** [os::futex::Wait(&lock_, oldval)]: the call is recorded.  The kernel's
    part, as futex(2) gives it: in one atomic step it compares the word with
    [oldval] and, if they are equal, puts the thread to sleep; otherwise the
    call returns at once.  The result says whether the thread sleeps. *)
Definition Wait (oldval : Z) : M bool :=
  λ m, (bool_decide (lock_ m = oldval),
        {| lock_ := lock_ m; syscalls := syscalls m ++ [FUTEX_WAIT oldval] |}).

(** *** Threads sharing one mutex *)

Inductive status : Type :=
  | Idle          (* in no call, not holding *)
  | SlowPath      (* in [lock()]: about to call [SlowPathLock] *)
  | Announced     (* in [SlowPathLock]: first compare-exchange done, about
                     to call [Wait] *)
  | Asleep        (* in [Wait], put to sleep by the kernel *)
  | Resumed       (* in [SlowPathLock]: [Wait] returned; about to try
                     [Unlocked -> LockedHasWaiters] *)
  | Holding       (* [lock()] returned *)
  | Releasing     (* in [unlock()]: [UnlockFastPath] failed, about to store *)
  | Waking.       (* in [unlock()]: [Unlocked] stored, about to wake *)

Inductive action : Type :=
  | CallLock      (* [lock()]: [FastPathLock] *)
  | Advance       (* the next operation of the call the thread is in *)
  | CallUnlock.   (* [unlock()]: [UnlockFastPath] *)

Record system : Type := System {
  mutex : t;
  threads : nat → status;
}.

Definition init : system := {| mutex := new; threads := λ _, Idle |}.

(** The kernel's part of a wake of [INT32_MAX] waiters: every thread asleep
    on the word resumes. *)
Definition woken (th : nat → status) : nat → status :=
  λ j, match th j with
       | Asleep => Resumed
       | st => st
       end.

Definition step (i : nat) (a : action) (s : system) : option system :=
  match a, threads s i with
  | CallLock, Idle =>
      let '(ok, m) := FastPathLock (mutex s) in
      Some {| mutex := m;
              threads := <[i := if ok then Holding else SlowPath]> (threads s) |}
  | Advance, SlowPath =>
      let '(_, m) := SlowPathLock_announce (mutex s) in
      Some {| mutex := m; threads := <[i := Announced]> (threads s) |}
  | Advance, Announced =>
      let '(sleeps, m) := Wait State.LockedHasWaiters (mutex s) in
      Some {| mutex := m;
              threads := <[i := if sleeps then Asleep else Resumed]> (threads s) |}
  | Advance, Asleep =>
      (* [Wait] returns without a wake: a signal, or spuriously *)
      Some {| mutex := mutex s; threads := <[i := Resumed]> (threads s) |}
  | Advance, Resumed =>
      let '(ok, m) := CompareExchange State.Unlocked State.LockedHasWaiters (mutex s) in
      Some {| mutex := m;
              threads := <[i := if ok then Holding else SlowPath]> (threads s) |}
  | CallUnlock, Holding =>
      let '(ok, m) := UnlockFastPath (mutex s) in
      Some {| mutex := m;
              threads := <[i := if ok then Idle else Releasing]> (threads s) |}
  | Advance, Releasing =>
      let '(_, m) := store State.Unlocked (mutex s) in
      Some {| mutex := m; threads := <[i := Waking]> (threads s) |}
  | Advance, Waking =>
      let '(_, m) := WakeAll (mutex s) in
      Some {| mutex := m; threads := <[i := Idle]> (woken (threads s)) |}
  | _, _ => None
  end.

Inductive reachable : system → Prop :=
  | reachable_init : reachable init
  | reachable_step s i a s' : reachable s → step i a s = Some s' → reachable s'.

(** Steps of threads other than [i]. *)
Inductive others_run (i : nat) : system → system → Prop :=
  | others_done s : others_run i s s
  | others_step s j a s1 s2 :
      j ≠ i → step j a s = Some s1 → others_run i s1 s2 → others_run i s s2.

(** A thread owns the mutex from the return of [lock()] until its
    [unlock()] has written [Unlocked]. *)
Definition owns (st : status) : Prop :=
  match st with
  | Holding | Releasing => True
  | _ => False
  end.

(** The word is one of the three states, it is [Unlocked] exactly when no
    thread owns the mutex, and only one thread does. *)
Definition exclusive (s : system) : Prop :=
  (lock_ (mutex s) = State.Unlocked ∨ lock_ (mutex s) = State.LockedNoWaiters ∨
   lock_ (mutex s) = State.LockedHasWaiters) ∧
  (lock_ (mutex s) ≠ State.Unlocked ↔ ∃ i, owns (threads s i)) ∧
  (∀ i j, owns (threads s i) → owns (threads s j) → i = j).

(** No wake-up is lost: while a thread sleeps, either the mutex is owned
    and its word is [LockedHasWaiters], so that the owner's [unlock()] takes
    the path with the wake, or a thread is between the store and the wake of
    its [unlock()]. *)
Definition wake_pending (s : system) : Prop :=
  (lock_ (mutex s) = State.LockedHasWaiters ∧ ∃ k, owns (threads s k)) ∨
  (∃ k, threads s k = Waking).

Definition sleepers_covered (s : system) : Prop :=
  (∃ i, threads s i = Asleep) → wake_pending s.

End Mutex.

(** ** Queue (MCS) spinlock ([thread::sync::QueueSpinLock])

    A [Guard*] is [None] (nullptr) or the address of a guard.  The guards
    that currently exist (constructed, not yet destroyed) are kept in a
    heap indexed by address; the same address can be used again by a later
    guard.  Each live guard belongs to the thread that is running its
    constructor, its critical section or its destructor; [control] records
    where that thread is. *)

Module QueueSpinLock.

Record Guard : Type := BuildGuard {
  next_ : option nat;
  is_owner_ : bool;
}.

(** Where the thread owning a guard is, between the atomic operations of
    [Guard::Guard] ([Acquire], [Enqueue]) and [Guard::~Guard] ([Release],
    [Dequeue], [SpinUntilNextWaiter]). *)
Inductive pc : Type :=
  | Constructed                       (* members initialised; about to run
                                         [tail_.exchange(waiter)] *)
  | Exchanged (prev_tail : option nat)(* after the exchange of [Enqueue] *)
  | AwaitOwner                        (* [Enqueue] returned; in the loop of
                                         [Acquire] *)
  | Owner                             (* constructor returned: in the critical
                                         section *)
  | AwaitNext                         (* [Dequeue]: compare-exchange failed;
                                         in [SpinUntilNextWaiter] *)
  | NextSeen                          (* [SpinUntilNextWaiter] returned *)
  | Handoff (successor : nat).        (* [waiter->next_.load()] returned
                                         [successor] *)

Record system : Type := System {
  tail_ : option nat;
  guards : gmap nat Guard;
  control : gmap nat pc;
  (** History: the guards that ran the exchange of [Enqueue], oldest first. *)
  enqueued : list nat;
}.

Definition init : system :=
  {| tail_ := None; guards := ∅; control := ∅; enqueued := [] |}.

Definition set_control (w : nat) (p : pc) (s : system) : system :=
  {| tail_ := tail_ s; guards := guards s;
     control := <[w := p]> (control s); enqueued := enqueued s |}.

Definition set_next (n : option nat) (g : Guard) : Guard :=
  {| next_ := n; is_owner_ := is_owner_ g |}.

Definition set_is_owner (b : bool) (g : Guard) : Guard :=
  {| next_ := next_ g; is_owner_ := b |}.

(** The next atomic operation of the thread that owns (or is about to
    construct) the guard at address [w].  [None]: the operation dereferences
    a guard that does not exist. *)
Definition step (w : nat) (s : system) : option system :=
  match control s !! w with
  | None =>
      (* [Guard(host)]: [next_{nullptr}], [is_owner_{false}] *)
      Some {| tail_ := tail_ s;
              guards := <[w := {| next_ := None; is_owner_ := false |}]> (guards s);
              control := <[w := Constructed]> (control s);
              enqueued := enqueued s |}
  | Some Constructed =>
      (* [Enqueue], phase 1 *)
      let '(prev_tail, tl) := Atomic.exchange (tail_ s) (Some w) in
      Some {| tail_ := tl; guards := guards s;
              control := <[w := Exchanged prev_tail]> (control s);
              enqueued := enqueued s ++ [w] |}
  | Some (Exchanged None) =>
      (* [waiter->is_owner_.store(true)] *)
      g ← guards s !! w;
      Some {| tail_ := tail_ s;
              guards := <[w := set_is_owner true g]> (guards s);
              control := <[w := AwaitOwner]> (control s);
              enqueued := enqueued s |}
  | Some (Exchanged (Some prev)) =>
      (* [Enqueue], phase 2: [prev_tail->next_.store(waiter)] *)
      g ← guards s !! prev;
      Some {| tail_ := tail_ s;
              guards := <[prev := set_next (Some w) g]> (guards s);
              control := <[w := AwaitOwner]> (control s);
              enqueued := enqueued s |}
  | Some AwaitOwner =>
      (* one evaluation of [!waiter->is_owner_.load()] *)
      g ← guards s !! w;
      Some (if is_owner_ g then set_control w Owner s else s)
  | Some Owner =>
      (* [~Guard()] -> [Dequeue]: the compare-exchange on [tail_]; on
         success [Dequeue] returns and the guard is gone *)
      let '(ok, tl) := Atomic.compare_exchange_strong (tail_ s) (Some w) None in
      if ok then
        Some {| tail_ := tl; guards := delete w (guards s);
                control := delete w (control s); enqueued := enqueued s |}
      else Some (set_control w AwaitNext s)
  | Some AwaitNext =>
      (* one evaluation of [waiter->next_.load() == nullptr] *)
      g ← guards s !! w;
      Some (match next_ g with
            | None => s
            | Some _ => set_control w NextSeen s
            end)
  | Some NextSeen =>
      (* [waiter->next_.load()] *)
      g ← guards s !! w;
      n ← next_ g;
      Some (set_control w (Handoff n) s)
  | Some (Handoff n) =>
      (* [->is_owner_.store(true)]; [Dequeue] returns and the guard is gone *)
      g ← guards s !! n;
      Some {| tail_ := tail_ s;
              guards := delete w (<[n := set_is_owner true g]> (guards s));
              control := delete w (control s);
              enqueued := enqueued s |}
  end.

Inductive reachable : system → Prop :=
  | reachable_init : reachable init
  | reachable_step s w s' : reachable s → step w s = Some s' → reachable s'.

(** A schedule: the guards whose threads take the successive steps. *)
Fixpoint exec (schedule : list nat) (s : system) : option system :=
  match schedule with
  | [] => Some s
  | w :: rest => s' ← step w s; exec rest s'
  end.

(** Steps of threads other than the one owning guard [w]. *)
Inductive others_run (w : nat) : system → system → Prop :=
  | others_done s : others_run w s s
  | others_step s x s' s'' :
      x ≠ w → step x s = Some s' → others_run w s' s'' → others_run w s s''.

(** No node was enqueued after [w]: the last exchange on [tail_] was [w]'s. *)
Definition last_enqueued (s : system) (w : nat) : Prop :=
  ∃ earlier, enqueued s = earlier ++ [w].

(** *** Invariant *)

(** Program points at which a guard can be the tail. *)
Definition may_be_tail (p : option pc) : Prop :=
  match p with
  | Some (Exchanged _) | Some AwaitOwner | Some Owner => True
  | _ => False
  end.

(** Program points at which a guard has not yet seen a successor. *)
Definition before_next_seen (p : option pc) : Prop :=
  match p with
  | Some (Exchanged _) | Some AwaitOwner | Some Owner | Some AwaitNext => True
  | _ => False
  end.

Record invariant (s : system) : Prop := {
  (** a guard exists exactly while its thread is between construction and
      the end of [Dequeue] *)
  inv_live : ∀ x, control s !! x = None ↔ guards s !! x = None;
  (** the tail is enqueued, has not started to release, and has no
      successor linked *)
  inv_tail_pc : ∀ t, tail_ s = Some t → may_be_tail (control s !! t);
  inv_tail_next : ∀ t g, tail_ s = Some t → guards s !! t = Some g → next_ g = None;
  inv_tail_last : ∀ t, tail_ s = Some t → last (enqueued s) = Some t;
  inv_last_tail : ∀ w, last (enqueued s) = Some w → may_be_tail (control s !! w) →
                       tail_ s = Some w;
  (** a guard that is not linked in yet is untouched *)
  inv_fresh : ∀ x g, control s !! x = Some Constructed → guards s !! x = Some g →
                     next_ g = None ∧ is_owner_ g = false;
  inv_unowned : ∀ x p g, control s !! x = Some (Exchanged p) →
                         guards s !! x = Some g → is_owner_ g = false;
  (** between the two phases of [Enqueue]: the predecessor is another,
      live guard that is no longer the tail and waits for this link *)
  inv_pred : ∀ x p, control s !! x = Some (Exchanged (Some p)) →
      p ≠ x ∧ tail_ s ≠ Some p ∧ before_next_seen (control s !! p) ∧
      (∀ g, guards s !! p = Some g → next_ g = None) ∧
      (∀ y, control s !! y = Some (Exchanged (Some p)) → y = x);
  (** a linked successor is another guard, spinning in [Acquire], not yet
      owner, and it is the successor of one guard only *)
  inv_succ : ∀ w g n, guards s !! w = Some g → next_ g = Some n →
      n ≠ w ∧ control s !! n = Some AwaitOwner ∧
      (∀ gn, guards s !! n = Some gn → is_owner_ gn = false) ∧
      (∀ w' g', guards s !! w' = Some g' → next_ g' = Some n → w' = w);
  inv_next_seen : ∀ w, control s !! w = Some NextSeen →
      ∃ g n, guards s !! w = Some g ∧ next_ g = Some n;
  inv_handoff : ∀ w n, control s !! w = Some (Handoff n) →
      ∃ g, guards s !! w = Some g ∧ next_ g = Some n;
}.

(** *** Order of service *)

(** A record kept beside the program, which never reads it: for each guard
    that has run the exchange of [Enqueue] and not finished [Dequeue], the
    position of that exchange in [enqueued]; and the number of guards that
    have finished [Dequeue]. *)
Record history : Type := History {
  rank : gmap nat nat;
  released : nat;
}.

Definition no_history : history := {| rank := ∅; released := 0 |}.

Definition record_step (w : nat) (s : system) (h : history) : history :=
  match control s !! w with
  | Some Constructed =>
      {| rank := <[w := length (enqueued s)]> (rank h); released := released h |}
  | Some Owner =>
      if decide (tail_ s = Some w)
      then {| rank := delete w (rank h); released := S (released h) |}
      else h
  | Some (Handoff _) =>
      {| rank := delete w (rank h); released := S (released h) |}
  | _ => h
  end.

Inductive reachable_with : system → history → Prop :=
  | reachable_with_init : reachable_with init no_history
  | reachable_with_step s h w s' :
      reachable_with s h → step w s = Some s' →
      reachable_with s' (record_step w s h).

Fixpoint exec_with (schedule : list nat) (s : system) (h : history) :
    option (system * history) :=
  match schedule with
  | [] => Some (s, h)
  | w :: rest => s' ← step w s; exec_with rest s' (record_step w s h)
  end.

(** Program points from the return of the constructor to the end of
    [Dequeue]. *)
Definition acquired (p : pc) : Prop :=
  match p with
  | Owner | AwaitNext | NextSeen | Handoff _ => True
  | _ => False
  end.

Record served_in_order (s : system) (h : history) : Prop := {
  ord_live : ∀ x, rank h !! x = None ↔
                  control s !! x = None ∨ control s !! x = Some Constructed;
  ord_log : ∀ x r, rank h !! x = Some r → enqueued s !! r = Some x;
  ord_range : ∀ x r, rank h !! x = Some r →
                     (released h ≤ r < length (enqueued s))%nat;
  ord_released : (released h ≤ length (enqueued s))%nat;
  ord_inj : ∀ x y r, rank h !! x = Some r → rank h !! y = Some r → x = y;
  (** the tail holds the last position; with no tail every guard enqueued
      so far has been released *)
  ord_tail : ∀ t, tail_ s = Some t →
                  rank h !! t = Some (Nat.pred (length (enqueued s)));
  ord_empty : tail_ s = None → released h = length (enqueued s);
  (** a predecessor, whether still remembered from the exchange or already
      linked, holds the position just before *)
  ord_pred : ∀ y p, control s !! y = Some (Exchanged (Some p)) →
                    ∃ r, rank h !! p = Some r ∧ rank h !! y = Some (S r);
  ord_next : ∀ p g y, guards s !! p = Some g → next_ g = Some y →
                      ∃ r, rank h !! p = Some r ∧ rank h !! y = Some (S r);
  (** the guard being served holds the position [released] *)
  ord_first : ∀ y, control s !! y = Some (Exchanged None) →
                   rank h !! y = Some (released h);
  ord_flag : ∀ x g, guards s !! x = Some g → is_owner_ g = true →
                    rank h !! x = Some (released h);
  ord_acquired : ∀ x p, control s !! x = Some p → acquired p →
                        rank h !! x = Some (released h);
  (** while guards are enqueued one of them is being served, and if it
      spins in [Acquire] its flag is already set *)
  ord_head : (released h < length (enqueued s))%nat →
             ∃ x, rank h !! x = Some (released h);
  ord_waiting : ∀ x g, rank h !! x = Some (released h) →
                       control s !! x = Some AwaitOwner →
                       guards s !! x = Some g → is_owner_ g = true;
  (** an enqueued guard that is no longer the tail and has no successor
      linked yet has one between the two phases of its [Enqueue] *)
  ord_follower : ∀ x r g, rank h !! x = Some r → tail_ s ≠ Some x →
                          guards s !! x = Some g → next_ g = None →
                          ∃ y, control s !! y = Some (Exchanged (Some x));
}.

End QueueSpinLock.

(** ** The workers of the [MutualExclusion] tests

    [tests/sync/*_test.cpp], test [MutualExclusion]: [num_threads] threads
    run
    [[
      for (int i = 0; i < increments; ++i) {
        std::lock_guard<Lock> guard(lock);   // QueueSpinLock::Guard guard{spinlock};
        ++counter;
      }
    ]]
    on one lock and one plain [int counter].  The increment is a load and a
    store of [counter]; each is a step, like the atomic operations of the
    lock. *)

Module Worker.

Definition INT_MAX : Z := 2 ^ 31 - 1.

(** Where a thread is with respect to the lock. *)
Inductive phase : Type :=
  | Out          (* in no call *)
  | Acquiring    (* in [lock()] or in the constructor of the guard *)
  | Held         (* [lock()] returned, [unlock()] not yet called *)
  | Releasing.   (* in [unlock()] or in the destructor of the guard, after
                    its first atomic operation *)

(** What the worker uses of a lock: the atomic operations that [lock()] and
    [unlock()] make on behalf of a thread.  [acquire_alone] and
    [release_alone] are the operations of an uncontended [lock()] and
    [unlock()]. *)
Class Lockable (L A : Type) : Type := {
  fresh : L;
  lock_step : nat → A → L → option L;
  phase_of : L → nat → phase;
  acquire_alone : list A;
  release_alone : list A;
}.

(** *** The four locks *)

(** The worker never calls [try_lock()]. *)
Definition ttas_step (i : nat) (a : TASSpinLock.action) (s : TASSpinLock.system) :
    option TASSpinLock.system :=
  match a with
  | TASSpinLock.CallTryLock _ => None
  | _ => TASSpinLock.step i a s
  end.

Definition ttas_phase (s : TASSpinLock.system) (i : nat) : phase :=
  match TASSpinLock.threads s i with
  | TASSpinLock.Idle => Out
  | TASSpinLock.Retry | TASSpinLock.Watching => Acquiring
  | TASSpinLock.Holding => Held
  end.

#[global] Instance ttas_lockable : Lockable TASSpinLock.system TASSpinLock.action := {|
  fresh := TASSpinLock.init;
  lock_step := ttas_step;
  phase_of := ttas_phase;
  acquire_alone := [TASSpinLock.LockAttempt false];
  release_alone := [TASSpinLock.CallUnlock];
|}.

Definition ticket_step (i : nat) (a : TicketLock.action) (s : TicketLock.system) :
    option TicketLock.system :=
  match a with
  | TicketLock.CallTryLock | TicketLock.TryLockCas => None
  | _ => TicketLock.step i a s
  end.

Definition ticket_phase (s : TicketLock.system) (i : nat) : phase :=
  match TicketLock.threads s i with
  | TicketLock.Idle => Out
  | TicketLock.Spinning _ | TicketLock.TryLoaded _ => Acquiring
  | TicketLock.Holding _ => Held
  end.

#[global] Instance ticket_lockable : Lockable TicketLock.system TicketLock.action := {|
  fresh := TicketLock.init;
  lock_step := ticket_step;
  phase_of := ticket_phase;
  acquire_alone := [TicketLock.CallLock; TicketLock.SpinOnce];
  release_alone := [TicketLock.CallUnlock];
|}.

Definition mutex_phase (s : Mutex.system) (i : nat) : phase :=
  match Mutex.threads s i with
  | Mutex.Idle => Out
  | Mutex.SlowPath | Mutex.Announced | Mutex.Asleep | Mutex.Resumed => Acquiring
  | Mutex.Holding => Held
  | Mutex.Releasing | Mutex.Waking => Releasing
  end.

#[global] Instance mutex_lockable : Lockable Mutex.system Mutex.action := {|
  fresh := Mutex.init;
  lock_step := Mutex.step;
  phase_of := mutex_phase;
  acquire_alone := [Mutex.CallLock];
  release_alone := [Mutex.CallUnlock];
|}.

(** Each thread has one guard at a time, on its own stack: thread [i] uses
    the guard address [i]. *)
Definition mcs_phase (s : QueueSpinLock.system) (i : nat) : phase :=
  match QueueSpinLock.control s !! i with
  | None => Out
  | Some QueueSpinLock.Constructed | Some (QueueSpinLock.Exchanged _)
  | Some QueueSpinLock.AwaitOwner => Acquiring
  | Some QueueSpinLock.Owner => Held
  | Some QueueSpinLock.AwaitNext | Some QueueSpinLock.NextSeen
  | Some (QueueSpinLock.Handoff _) => Releasing
  end.

#[global] Instance mcs_lockable : Lockable QueueSpinLock.system unit := {|
  fresh := QueueSpinLock.init;
  lock_step := λ i _, QueueSpinLock.step i;
  phase_of := mcs_phase;
  acquire_alone := [(); (); (); ()];
  release_alone := [()];
|}.

(** A lock at rest: free, with no thread in a call; and, for the ticket
    lock, the calls of [lock()] after which no ticket has wrapped. *)
Definition ttas_quiet (l : TASSpinLock.system) : Prop :=
  TASSpinLock.locked_ (TASSpinLock.flag l) = false ∧
  ∀ i, TASSpinLock.threads l i = TASSpinLock.Idle.

Definition mutex_quiet (l : Mutex.system) : Prop :=
  Mutex.lock_ (Mutex.mutex l) = Mutex.State.Unlocked ∧
  ∀ i, Mutex.threads l i = Mutex.Idle.

Definition ticket_calls_ok (k : nat) : Prop := Z.of_nat (S k) < U64.modulus.

Definition ticket_quiet (l : TicketLock.system) : Prop :=
  TicketLock.next_free_ticket_ (TicketLock.lock l) =
    TicketLock.owner_ticket_ (TicketLock.lock l) ∧
  ∀ i, TicketLock.threads l i = TicketLock.Idle.

Definition mcs_quiet (l : QueueSpinLock.system) : Prop :=
  QueueSpinLock.tail_ l = None ∧ QueueSpinLock.guards l = ∅ ∧
  QueueSpinLock.control l = ∅.

(** *** The program *)

(** Where a thread is in [++counter]. *)
Inductive pc : Type :=
  | BeforeLoad
  | Loaded (value : Z)
  | Stored.

Record state (L : Type) : Type := State {
  lock : L;
  counter : Z;
  (** per thread: the iterations whose critical section has ended *)
  completed : nat → nat;
  at_ : nat → pc;
}.
Arguments State {L}.
Arguments lock {L}.
Arguments counter {L}.
Arguments completed {L}.
Arguments at_ {L}.

Inductive action (A : Type) : Type :=
  | InLock (a : A)   (* an atomic operation of the lock *)
  | Load             (* [++counter]: read [counter] *)
  | Store.           (* [++counter]: write the value read, plus one *)
Arguments InLock {A}.
Arguments Load {A}.
Arguments Store {A}.

Section WithLock.
Context {L A : Type} `{Lockable L A}.
Variables num_threads increments : nat.

Definition start : state L :=
  {| lock := fresh; counter := 0; completed := λ _, 0%nat; at_ := λ _, BeforeLoad |}.

Definition set_lock (l : L) (s : state L) : state L :=
  {| lock := l; counter := counter s; completed := completed s; at_ := at_ s |}.

(** An operation of the lock by thread [i].  A thread in no call enters
    [lock()] only if the loop condition [i < increments] holds; a thread in
    its critical section calls [unlock()] once it has stored [counter]. *)
Definition in_lock (i : nat) (a : A) (s : state L) : option (state L) :=
  match phase_of (lock s) i with
  | Out =>
      if decide (completed s i < increments)%nat
      then l' ← lock_step i a (lock s); Some (set_lock l' s)
      else None
  | Acquiring | Releasing =>
      l' ← lock_step i a (lock s); Some (set_lock l' s)
  | Held =>
      match at_ s i with
      | Stored =>
          l' ← lock_step i a (lock s);
          Some {| lock := l'; counter := counter s;
                  completed := <[i := S (completed s i)]> (completed s);
                  at_ := <[i := BeforeLoad]> (at_ s) |}
      | _ => None
      end
  end.

(** The load and the store of [++counter], in the critical section.  An
    increment of [INT_MAX] is undefined behaviour: no step. *)
Definition load (i : nat) (s : state L) : option (state L) :=
  match phase_of (lock s) i, at_ s i with
  | Held, BeforeLoad =>
      Some {| lock := lock s; counter := counter s; completed := completed s;
              at_ := <[i := Loaded (counter s)]> (at_ s) |}
  | _, _ => None
  end.

Definition store (i : nat) (s : state L) : option (state L) :=
  match phase_of (lock s) i, at_ s i with
  | Held, Loaded value =>
      if decide (value < INT_MAX)
      then Some {| lock := lock s; counter := value + 1; completed := completed s;
                   at_ := <[i := Stored]> (at_ s) |}
      else None
  | _, _ => None
  end.

Definition step (i : nat) (a : action A) (s : state L) : option (state L) :=
  if decide (i < num_threads)%nat then
    match a with
    | InLock a' => in_lock i a' s
    | Load => load i s
    | Store => store i s
    end
  else None.

Inductive reachable : state L → Prop :=
  | reachable_start : reachable start
  | reachable_step s i a s' : reachable s → step i a s = Some s' → reachable s'.

Fixpoint exec (schedule : list (nat * action A)) (s : state L) : option (state L) :=
  match schedule with
  | [] => Some s
  | (i, a) :: rest => s' ← step i a s; exec rest s'
  end.

(** Thread [i] has left its loop. *)
Definition finished (s : state L) (i : nat) : Prop :=
  completed s i = increments ∧ phase_of (lock s) i = Out.

(** A schedule without contention: the threads run one after the other,
    each all its iterations. *)
Definition iteration_alone (i : nat) : list (nat * action A) :=
  ((λ a, (i, InLock a)) <$> acquire_alone) ++ [(i, Load); (i, Store)] ++
  ((λ a, (i, InLock a)) <$> release_alone).

Definition thread_alone (i : nat) : list (nat * action A) :=
  mjoin (replicate increments (iteration_alone i)).

Definition one_after_the_other : list (nat * action A) :=
  mjoin (thread_alone <$> seq 0 num_threads).

(** *** Counting *)

Fixpoint total (f : nat → nat) (n : nat) : nat :=
  match n with
  | O => 0
  | S k => total f k + f k
  end.

Definition active (p : phase) : nat :=
  match p with
  | Acquiring | Held => 1
  | Out | Releasing => 0
  end.

Definition stored (p : pc) : nat :=
  match p with
  | Stored => 1
  | BeforeLoad | Loaded _ => 0
  end.

(** The calls of [lock()] made so far. *)
Definition calls (s : state L) : nat :=
  total (λ i, completed s i + active (phase_of (lock s) i))%nat num_threads.

(** What the tests expect: whatever the interleaving, at most one thread is
    in its critical section, and once every thread has left its loop the
    counter is [num_threads * increments]; and the program can run to that
    end. *)
Definition counts_exactly : Prop :=
  (∀ s, reachable s →
     (∀ i j, phase_of (lock s) i = Held → phase_of (lock s) j = Held → i = j) ∧
     ((∀ i, (i < num_threads)%nat → finished s i) →
      counter s = Z.of_nat (num_threads * increments))) ∧
  (∃ s, exec one_after_the_other start = Some s ∧
        ∀ i, (i < num_threads)%nat → finished s i).

End WithLock.

(** The order of the phases of one thread. *)
Definition follows (p q : phase) : Prop :=
  match p, q with
  | Out, Acquiring | Out, Held
  | Acquiring, Acquiring | Acquiring, Held
  | Held, Releasing | Held, Out
  | Releasing, Releasing | Releasing, Out => True
  | _, _ => False
  end.

(** The operations of a call made while no other thread takes a step:
    [acquire] ends with the lock held, [release] starts there and ends in
    no call. *)
Fixpoint acquire `{Lockable L A} (i : nat) (acts : list A) (l : L) : option L :=
  match acts with
  | [] => match phase_of l i with Held => Some l | _ => None end
  | a :: rest =>
      match phase_of l i with
      | Held => None
      | _ => l' ← lock_step i a l; acquire i rest l'
      end
  end.

Fixpoint finish `{Lockable L A} (i : nat) (acts : list A) (l : L) : option L :=
  match acts with
  | [] => match phase_of l i with Out => Some l | _ => None end
  | a :: rest =>
      match phase_of l i with
      | Releasing => l' ← lock_step i a l; finish i rest l'
      | _ => None
      end
  end.

Definition release `{Lockable L A} (i : nat) (acts : list A) (l : L) : option L :=
  match acts, phase_of l i with
  | a :: rest, Held => l' ← lock_step i a l; finish i rest l'
  | _, _ => None
  end.

(** What the proof about the workers uses of a lock.  [lock_inv k l] is an
    invariant of the lock after [k] calls of [lock()]; [calls_ok k] bounds
    the number of calls for which it is known to be kept. *)
Class LockLaws (L A : Type) `{Lockable L A} : Type := {
  calls_ok : nat → Prop;
  lock_inv : nat → L → Prop;
  quiet : L → Prop;
  calls_ok_le k k' : (k ≤ k')%nat → calls_ok k' → calls_ok k;
  lock_inv_fresh : lock_inv 0 fresh;
  lock_inv_step k l i a l' :
    lock_inv k l → lock_step i a l = Some l' →
    calls_ok (match phase_of l i with Out => S k | _ => k end) →
    lock_inv (match phase_of l i with Out => S k | _ => k end) l';
  phase_frame l i a l' j :
    lock_step i a l = Some l' → j ≠ i → phase_of l' j = phase_of l j;
  phase_follows l i a l' :
    lock_step i a l = Some l' → follows (phase_of l i) (phase_of l' i);
  exclusive k l i j :
    lock_inv k l → phase_of l i = Held → phase_of l j = Held → i = j;
  quiet_fresh : quiet fresh;
  quiet_out l i : quiet l → phase_of l i = Out;
  quiet_round l i :
    quiet l →
    ∃ l1 l2, acquire i acquire_alone l = Some l1 ∧
             release i release_alone l1 = Some l2 ∧ quiet l2;
}.

End Worker.

(** ** Concrete states used as examples *)

Module Scenarios.

(** A plain buffer of capacity 3 after two pushes: it is full. *)
Definition full3 : RingBuffer.t := RingBuffer.Build [1; 2] 3 0 2.

(** Ticket lock: thread 0 has loaded [owner_ticket_ = 0] in [try_lock]. *)
Definition try_loaded : TicketLock.system :=
  {| TicketLock.lock := TicketLock.new;
     TicketLock.threads := <[0%nat := TicketLock.TryLoaded 0]> (λ _, TicketLock.Idle) |}.

(** Ticket lock: thread 0 has drawn ticket 0 in [lock()] and has not yet
    read [owner_ticket_]. *)
Definition ticket_drawn : TicketLock.system :=
  {| TicketLock.lock := {| TicketLock.next_free_ticket_ := U64.add 0 1;
                           TicketLock.owner_ticket_ := 0 |};
     TicketLock.threads := <[0%nat := TicketLock.Spinning 0]> (λ _, TicketLock.Idle) |}.

(** Ticket lock: thread 0 holds the lock with ticket 0, thread 1 has drawn
    ticket 1 and spins. *)
Definition ticket_contended_schedule : list (nat * TicketLock.action) :=
  [(0%nat, TicketLock.CallLock); (0%nat, TicketLock.SpinOnce);
   (1%nat, TicketLock.CallLock); (1%nat, TicketLock.SpinOnce)].

Definition ticket_contended : TicketLock.system :=
  default TicketLock.init (TicketLock.exec ticket_contended_schedule TicketLock.init).

(** Ticket lock: thread 1 has locked and unlocked once; both counters
    are 1. *)
Definition ticket_used_schedule : list (nat * TicketLock.action) :=
  [(1%nat, TicketLock.CallLock); (1%nat, TicketLock.SpinOnce);
   (1%nat, TicketLock.CallUnlock)].

Definition ticket_used : TicketLock.system :=
  default TicketLock.init (TicketLock.exec ticket_used_schedule TicketLock.init).

(** Ticket lock: thread 0 has loaded [owner_ticket_ = 0] in [try_lock];
    since then thread 1 has locked and unlocked. *)
Definition try_loaded_stale : TicketLock.system :=
  default TicketLock.init (TicketLock.exec ticket_used_schedule try_loaded).

(** Mutex: held, no waiter announced; held, a waiter announced. *)
Definition held_no_waiters : Mutex.t := (Mutex.FastPathLock Mutex.new).2.
Definition held_has_waiters : Mutex.t := (Mutex.SlowPathLock_announce held_no_waiters).2.

(** MCS lock: guard 0 has run the exchange of [Enqueue] on an empty queue. *)
Definition mcs_exchanged : QueueSpinLock.system :=
  {| QueueSpinLock.tail_ := Some 0%nat;
     QueueSpinLock.guards :=
       {[ 0%nat := {| QueueSpinLock.next_ := None; QueueSpinLock.is_owner_ := false |} ]};
     QueueSpinLock.control := {[ 0%nat := QueueSpinLock.Exchanged None ]};
     QueueSpinLock.enqueued := [0%nat] |}.

(** MCS lock: guard 0 owns the lock, nobody else is queued. *)
Definition mcs_owner : QueueSpinLock.system :=
  {| QueueSpinLock.tail_ := Some 0%nat;
     QueueSpinLock.guards :=
       {[ 0%nat := {| QueueSpinLock.next_ := None; QueueSpinLock.is_owner_ := true |} ]};
     QueueSpinLock.control := {[ 0%nat := QueueSpinLock.Owner ]};
     QueueSpinLock.enqueued := [0%nat] |}.

(** MCS lock: guard 1 took the tail from guard 0 but has not linked itself
    yet; guard 0 started to release and its compare-exchange failed. *)
Definition mcs_await_next : QueueSpinLock.system :=
  {| QueueSpinLock.tail_ := Some 1%nat;
     QueueSpinLock.guards :=
       {[ 0%nat := {| QueueSpinLock.next_ := None; QueueSpinLock.is_owner_ := true |};
          1%nat := {| QueueSpinLock.next_ := None; QueueSpinLock.is_owner_ := false |} ]};
     QueueSpinLock.control :=
       {[ 0%nat := QueueSpinLock.AwaitNext;
          1%nat := QueueSpinLock.Exchanged (Some 0%nat) ]};
     QueueSpinLock.enqueued := [0%nat; 1%nat] |}.

(** MCS lock: guard 0 is in the critical section; guard 1 took the tail
    from it and has not linked itself yet. *)
Definition mcs_queued_schedule : list nat := [0; 0; 0; 0; 1; 1]%nat.

Definition mcs_queued : QueueSpinLock.system :=
  {| QueueSpinLock.tail_ := Some 1%nat;
     QueueSpinLock.guards :=
       {[ 0%nat := {| QueueSpinLock.next_ := None; QueueSpinLock.is_owner_ := true |};
          1%nat := {| QueueSpinLock.next_ := None; QueueSpinLock.is_owner_ := false |} ]};
     QueueSpinLock.control :=
       {[ 0%nat := QueueSpinLock.Owner;
          1%nat := QueueSpinLock.Exchanged (Some 0%nat) ]};
     QueueSpinLock.enqueued := [0%nat; 1%nat] |}.

Definition mcs_queued_history : QueueSpinLock.history :=
  {| QueueSpinLock.rank := {[ 0%nat := 0%nat; 1%nat := 1%nat ]};
     QueueSpinLock.released := 0 |}.

(** Fast ring buffer of capacity 3: the consumer has moved the first value
    out and not yet stored [readIdx_]; the producer has written a second
    value and not yet stored [writeIdx_]. *)
Definition spsc_schedule : list (SPSC.action (T := Z)) :=
  [SPSC.PushCheck 7; SPSC.PushWrite; SPSC.PushPublish; SPSC.PopCheck;
   SPSC.PushCheck 8; SPSC.PopMove; SPSC.PushWrite].

Definition spsc_overlapping : SPSC.state (T := Z) :=
  default (SPSC.init 3) (SPSC.exec id spsc_schedule (SPSC.init 3)).

(** Fast ring buffer of capacity 3 after push 7, pop, push 8, push 9, no
    call in progress: two values wait, so the buffer is full; the consumer's
    [writeIdxCached_] is still 1, the value it read during its pop, while
    [writeIdx_] is 0. *)
Definition spsc_full_schedule : list (SPSC.action (T := Z)) :=
  [SPSC.PushCheck 7; SPSC.PushWrite; SPSC.PushPublish;
   SPSC.PopCheck; SPSC.PopMove; SPSC.PopPublish;
   SPSC.PushCheck 8; SPSC.PushWrite; SPSC.PushPublish;
   SPSC.PushCheck 9; SPSC.PushWrite; SPSC.PushPublish].

Definition spsc_full_stale : SPSC.state (T := Z) :=
  default (SPSC.init 3) (SPSC.exec id spsc_full_schedule (SPSC.init 3)).

Definition spsc_plain_overlapping : SPSCPlain.state (T := Z) :=
  default (SPSCPlain.init 3) (SPSCPlain.exec id spsc_schedule (SPSCPlain.init 3)).

(** TTAS lock: thread 0 acquired the lock with its first attempt. *)
Definition ttas_held : TASSpinLock.system :=
  {| TASSpinLock.flag := {| TASSpinLock.locked_ := true |};
     TASSpinLock.threads := <[0%nat := TASSpinLock.Holding]> (λ _, TASSpinLock.Idle) |}.

(** Mutex: thread 0 holds it; thread 1 failed the fast path and announced
    itself. *)
Definition mutex_contended : Mutex.system :=
  {| Mutex.mutex := held_has_waiters;
     Mutex.threads :=
       <[1%nat := Mutex.Announced]>
         (<[1%nat := Mutex.SlowPath]>
            (<[0%nat := Mutex.Holding]> (λ _, Mutex.Idle))) |}.

(** Mutex: thread 0 is in the slow path of [unlock()] and has stored
    [Unlocked]; thread 1 is announced. *)
Definition mutex_unlock_stored : Mutex.system :=
  {| Mutex.mutex := {| Mutex.lock_ := Mutex.State.Unlocked; Mutex.syscalls := [] |};
     Mutex.threads :=
       <[0%nat := Mutex.Waking]>
         (<[0%nat := Mutex.Releasing]> (Mutex.threads mutex_contended)) |}.

(** Mutex: thread 0 holds it; thread 1 announced itself and sleeps. *)
Definition mutex_asleep : Mutex.system :=
  {| Mutex.mutex :=
       {| Mutex.lock_ := Mutex.State.LockedHasWaiters;
          Mutex.syscalls := [Mutex.FUTEX_WAIT Mutex.State.LockedHasWaiters] |};
     Mutex.threads :=
       <[1%nat := Mutex.Asleep]>
         (<[1%nat := Mutex.Announced]>
            (<[1%nat := Mutex.SlowPath]>
               (<[0%nat := Mutex.Holding]> (λ _, Mutex.Idle)))) |}.

End Scenarios.

(* ===================================================================== *)
(** * Properties *)
(* ===================================================================== *)

(** ** Arithmetic *)

Module U64Facts.

Lemma modulus_pos : 0 < U64.modulus.
Proof. reflexivity. Qed.

Lemma wrap_small z : U64.in_range z → U64.wrap z = z.
Proof. intros Hz. apply Z.mod_small. exact Hz. Qed.

Lemma wrap_range z : U64.in_range (U64.wrap z).
Proof. apply Z.mod_pos_bound, modulus_pos. Qed.

Lemma add_small x y : U64.in_range (x + y) → U64.add x y = x + y.
Proof. apply wrap_small. Qed.

End U64Facts.

Lemma mod_eq_small (C a b : Z) :
  0 < C → 0 ≤ a - b < C → a mod C = b mod C → a = b.
Proof.
  intros HC Hab Heq.
  assert (Hd : (a - b) mod C = 0).
  { rewrite Zminus_mod, Heq, Z.sub_diag. apply Z.mod_0_l. lia. }
  rewrite Z.mod_small in Hd by lia. lia.
Qed.

Lemma mod_eq_wrap (C a b : Z) :
  0 < C → 0 < a - b ≤ C → (a mod C = b mod C ↔ a - b = C).
Proof.
  intros HC Hab. split.
  - intros Heq.
    destruct (decide (a - b = C)) as [|Hne]; [done|].
    assert (a = b) by (apply (mod_eq_small C); [lia | lia | done]). lia.
  - intros Hd. replace a with (b + 1 * C) by lia.
    apply Z.mod_add. lia.
Qed.

Lemma succ_mod (C x : Z) : 0 < C → (x mod C + 1) mod C = (x + 1) mod C.
Proof. intros HC. apply Zplus_mod_idemp_l. Qed.

Lemma outcome_bind_Ok {A B} (a : A) (k : A → outcome B) : (Ok a ≫= k) = k a.
Proof. reflexivity. Qed.

Lemma outcome_bind_Fault {A B} (f : fault) (k : A → outcome B) :
  (Fault f ≫= k) = Fault f.
Proof. reflexivity. Qed.

Ltac obind :=
  repeat first [rewrite outcome_bind_Ok | rewrite outcome_bind_Fault];
  cbv beta iota.

Lemma urem_zero x : urem x 0 = Fault DivisionByZero.
Proof. reflexivity. Qed.

Lemma urem_next (C idx : Z) :
  1 ≤ C < U64.modulus → 0 ≤ idx < C →
  urem (U64.add idx 1) C = Ok ((idx + 1) mod C).
Proof.
  intros HC Hidx. unfold urem.
  rewrite decide_False by lia.
  rewrite U64Facts.add_small by (unfold U64.in_range; lia). done.
Qed.

(** ** Ring buffers *)

Module RingFacts.
Section WithPayload.

Context {T : Type}.
Variable moved_from : T → T.

Import RingBuffer.
Local Abbreviation Pop := (RingBuffer.Pop moved_from).
Local Abbreviation apply_op := (RingBuffer.apply_op moved_from).
Local Abbreviation run := (RingBuffer.run moved_from).
Local Abbreviation reachable := (RingBuffer.reachable moved_from).

Lemma new_well_formed (C : Z) : 1 ≤ C → well_formed C (new (T:=T) C).
Proof. intros HC. unfold well_formed, new; simpl. lia. Qed.

Lemma length_store_slot (data : list T) (idx : Z) (v : T) :
  0 ≤ idx ≤ Z.of_nat (length data) →
  Z.of_nat (length (store_slot data idx v)) =
    if decide (Z.of_nat (length data) ≤ idx) then idx + 1 else Z.of_nat (length data).
Proof.
  intros Hidx. unfold store_slot. case_decide.
  - rewrite length_app; simpl. lia.
  - rewrite length_insert. done.
Qed.

(** [Push] on a well-formed buffer: it returns, it fails exactly when the
    buffer is full, and a failed call changes nothing. *)
Lemma Push_well_formed (C : Z) (v : T) (rb : t) :
  1 ≤ C < U64.modulus → well_formed C rb →
  ∃ ok rb', Push v rb = Ok (ok, rb') ∧ well_formed C rb' ∧
    (ok = false ↔ (writeIdx_ rb + 1) mod C = readIdx_ rb) ∧
    (ok = false → rb' = rb).
Proof.
  intros HC (Hcap & Hr & Hw & Hlen). unfold Push.
  rewrite Hcap, urem_next, outcome_bind_Ok by done.
  assert (Hn : 0 ≤ (writeIdx_ rb + 1) mod C < C) by (apply Z.mod_pos_bound; lia).
  case_decide as Hfull.
  - exists false, rb. repeat split; try done; lia.
  - eexists true, _. split; [done|]. split; [|split; [split; [done|congruence]|done]].
    repeat split; simpl; try done; try lia.
    rewrite length_store_slot by lia.
    destruct (decide (writeIdx_ rb + 1 = C)) as [Hwrap|Hnowrap].
    + left. case_decide; lia.
    + rewrite Z.mod_small in * by lia.
      destruct Hlen as [Hl|[Hl Hrw]]; [left|right]; case_decide; lia.
Qed.

(** [Pop] on a well-formed buffer: it returns, it is empty-handed exactly
    when the indices coincide, and such a call changes nothing. *)
Lemma Pop_well_formed (C : Z) (rb : t) :
  1 ≤ C < U64.modulus → well_formed C rb →
  ∃ r rb', Pop rb = Ok (r, rb') ∧ well_formed C rb' ∧
    (r = None ↔ readIdx_ rb = writeIdx_ rb) ∧
    (r = None → rb' = rb).
Proof.
  intros HC (Hcap & Hr & Hw & Hlen). unfold RingBuffer.Pop.
  case_decide as Hempty.
  - exists None, rb. repeat split; try done; lia.
  - assert (Hin : (Z.to_nat (readIdx_ rb) < length (data_ rb))%nat) by lia.
    apply lookup_lt_is_Some_2 in Hin as [x Hx].
    unfold load_slot. rewrite Hx, outcome_bind_Ok, Hcap, urem_next, outcome_bind_Ok by done.
    assert (Hn : 0 ≤ (readIdx_ rb + 1) mod C < C) by (apply Z.mod_pos_bound; lia).
    eexists (Some x), _. split; [done|]. split; [|split; [split; [done|congruence]|done]].
    repeat split; simpl; try done; try lia.
    rewrite length_insert.
    destruct Hlen as [Hl|[Hl Hrw]]; [left; done|right].
    rewrite Z.mod_small by lia. lia.
Qed.

Lemma apply_op_well_formed (C : Z) (o : op T) (rb : t) :
  1 ≤ C < U64.modulus → well_formed C rb →
  ∃ r rb', apply_op o rb = Ok (r, rb') ∧ well_formed C rb'.
Proof.
  intros HC Hwf. destruct o as [v|]; simpl.
  - destruct (Push_well_formed C v rb HC Hwf) as (ok & rb' & -> & Hwf' & _).
    by eexists _, _.
  - destruct (Pop_well_formed C rb HC Hwf) as (r & rb' & -> & Hwf' & _).
    by eexists _, _.
Qed.

Lemma run_well_formed (C : Z) (ops : list (op T)) (rb : t) :
  1 ≤ C < U64.modulus → well_formed C rb →
  ∃ rs rb', run ops rb = Ok (rs, rb') ∧ well_formed C rb'.
Proof.
  intros HC. revert rb. induction ops as [|o ops IH]; intros rb Hwf; simpl.
  - by eexists _, _.
  - destruct (apply_op_well_formed C o rb HC Hwf) as (r & rb1 & -> & Hwf1).
    rewrite outcome_bind_Ok.
    destruct (IH rb1 Hwf1) as (rs & rb2 & -> & Hwf2).
    by eexists _, _.
Qed.

Lemma reachable_well_formed (C : Z) (rb : t) :
  1 ≤ C < U64.modulus → reachable C rb → well_formed C rb.
Proof.
  intros HC (ops & rs & Hrun).
  destruct (run_well_formed C ops (new C) HC) as (rs' & rb' & Hrun' & Hwf).
  { apply new_well_formed. lia. }
  congruence.
Qed.

(** C3. In every reachable state of a buffer of capacity [C >= 1], [Push]
    returns false exactly when [(writeIdx + 1) mod C = readIdx], [Pop]
    returns the empty result exactly when [readIdx = writeIdx], and a failed
    call leaves the whole state (indices and slots) as it was. *)
Theorem failure_iff_full_or_empty (C : Z) (rb : t) (v : T) :
  1 ≤ C < U64.modulus → reachable C rb →
  (∃ ok rb', Push v rb = Ok (ok, rb') ∧
     (ok = false ↔ (writeIdx_ rb + 1) mod C = readIdx_ rb) ∧
     (ok = false → rb' = rb)) ∧
  (∃ r rb', Pop rb = Ok (r, rb') ∧
     (r = None ↔ readIdx_ rb = writeIdx_ rb) ∧
     (r = None → rb' = rb)).
Proof.
  intros HC Hreach.
  pose proof (reachable_well_formed C rb HC Hreach) as Hwf.
  split.
  - destruct (Push_well_formed C v rb HC Hwf) as (ok & rb' & Hp & _ & Hiff & Hsame).
    by exists ok, rb'.
  - destruct (Pop_well_formed C rb HC Hwf) as (r & rb' & Hp & _ & Hiff & Hsame).
    by exists r, rb'.
Qed.

Lemma run_app (ops1 ops2 : list (op T)) (rb : t) :
  run (ops1 ++ ops2) rb =
    '(rs1, rb1) ← run ops1 rb; '(rs2, rb2) ← run ops2 rb1; Ok (rs1 ++ rs2, rb2).
Proof.
  revert rb. induction ops1 as [|o ops1 IH]; intros rb; simpl.
  - by destruct (run ops2 rb) as [[??]|].
  - destruct (apply_op o rb) as [[r rb1]|f]; [|done].
    change (Ok (r, rb1) ≫= ?k) with (k (r, rb1)). cbv beta iota.
    rewrite IH.
    destruct (run ops1 rb1) as [[rs1 rb2]|f]; [|done].
    obind. by destruct (run ops2 rb2) as [[??]|].
Qed.

(** Pushing into a buffer that has never been popped from and has room. *)
Lemma push_many (C : Z) (vs data : list T) :
  1 ≤ C < U64.modulus →
  Z.of_nat (length data) + Z.of_nat (length vs) ≤ C - 1 →
  run (map DoPush vs) (Build data C 0 (Z.of_nat (length data))) =
    Ok (replicate (length vs) (Pushed true),
        Build (data ++ vs) C 0 (Z.of_nat (length (data ++ vs)))).
Proof.
  intros HC. revert data. induction vs as [|v vs IH]; intros data Hlen; simpl in *.
  - by rewrite app_nil_r.
  - unfold Push; simpl.
    rewrite urem_next, outcome_bind_Ok by lia.
    rewrite Z.mod_small by lia.
    rewrite decide_False by lia. rewrite !outcome_bind_Ok.
    unfold store_slot. rewrite decide_True by lia.
    replace (Z.of_nat (length data) + 1) with (Z.of_nat (length (data ++ [v])))
      by (rewrite length_app; simpl; lia).
    rewrite IH by (rewrite length_app; simpl; lia).
    rewrite outcome_bind_Ok. by rewrite <- !app_assoc.
Qed.

(** Draining the elements [vs] stored after the prefix [pre]. *)
Lemma pop_many (C : Z) (vs pre : list T) :
  1 ≤ C < U64.modulus →
  Z.of_nat (length pre) + Z.of_nat (length vs) < C →
  ∃ data',
    run (replicate (length vs) DoPop)
        (Build (pre ++ vs) C (Z.of_nat (length pre))
                 (Z.of_nat (length pre) + Z.of_nat (length vs))) =
      Ok (map (λ v, Popped (Some v)) vs,
          Build data' C (Z.of_nat (length pre) + Z.of_nat (length vs))
                          (Z.of_nat (length pre) + Z.of_nat (length vs))).
Proof.
  intros HC. revert pre. induction vs as [|v vs IH]; intros pre Hlen; simpl in *.
  - exists pre. by rewrite app_nil_r, Z.add_0_r.
  - unfold RingBuffer.Pop; simpl.
    rewrite decide_False by lia.
    unfold load_slot. rewrite Nat2Z.id, list_lookup_middle by done.
    rewrite outcome_bind_Ok, urem_next, !outcome_bind_Ok by lia.
    rewrite Z.mod_small by lia.
    rewrite insert_app_r_alt, Nat.sub_diag by done. simpl.
    destruct (IH (pre ++ [moved_from v])) as [data' Hrun].
    { rewrite length_app; simpl; lia. }
    exists data'.
    rewrite length_app in Hrun; simpl in Hrun.
    rewrite <- app_assoc in Hrun; simpl in Hrun.
    replace (Z.of_nat (length pre + 1)) with (Z.of_nat (length pre) + 1) in Hrun by lia.
    replace (Z.of_nat (length pre) + Z.of_nat (S (length vs)))
      with (Z.of_nat (length pre) + 1 + Z.of_nat (length vs)) by lia.
    by rewrite Hrun.
Qed.

(** C2. Starting from an empty buffer of capacity [C >= 2] and calling
    sequentially: the first [C - 1] pushes return true, the next push returns
    false, the following [C - 1] pops return the pushed values in push order,
    and one more pop returns the empty result. *)
Theorem fill_then_drain (C : Z) (vs : list T) (extra : T) :
  2 ≤ C < U64.modulus → Z.of_nat (length vs) = C - 1 →
  ∃ rb,
    run (map DoPush vs ++ [DoPush extra] ++ replicate (length vs) DoPop ++ [DoPop])
        (new C) =
      Ok (replicate (length vs) (Pushed true) ++ [Pushed false] ++
          map (λ v, Popped (Some v)) vs ++ [Popped None], rb).
Proof.
  intros HC Hlen.
  destruct (pop_many C vs []) as [data' Hpop]; [lia | simpl; lia |].
  exists (Build data' C (C - 1) (C - 1)).
  rewrite run_app. unfold new.
  change 0 with (Z.of_nat (length (@nil T))) at 2.
  rewrite push_many by (simpl; lia). rewrite outcome_bind_Ok. simpl app at 1.
  rewrite run_app.
  assert (Hfull : Push extra (Build vs C 0 (Z.of_nat (length vs))) =
                  Ok (false, Build vs C 0 (Z.of_nat (length vs)))).
  { unfold Push. cbn [writeIdx_ capacity_ readIdx_ data_].
    rewrite urem_next, outcome_bind_Ok by lia.
    rewrite Hlen. replace (C - 1 + 1) with (0 + 1 * C) by lia.
    rewrite Z.mod_add, Z.mod_0_l by lia.
    by rewrite decide_True. }
  cbn [run apply_op RingBuffer.run RingBuffer.apply_op app].
  rewrite Hfull. obind.
  rewrite run_app.
  cbn [length app] in Hpop. change (Z.of_nat 0) with 0 in Hpop.
  rewrite Z.add_0_l, Hlen in Hpop. rewrite Hlen.
  rewrite Hpop. obind.
  cbn [run apply_op RingBuffer.run RingBuffer.apply_op].
  unfold RingBuffer.Pop. cbn [writeIdx_ readIdx_].
  rewrite decide_True by done. by obind.
Qed.

End WithPayload.
End RingFacts.

Module FastRingFacts.
Section WithPayload.

Context {T : Type}.
Variable moved_from : T → T.

Import FastRingBuffer.
Local Abbreviation Pop := (FastRingBuffer.Pop moved_from).
Local Abbreviation run := (FastRingBuffer.run moved_from).
Local Abbreviation plain_Pop := (RingBuffer.Pop moved_from).
Local Abbreviation plain_run := (RingBuffer.run moved_from).

Lemma new_consistent (C : Z) : 1 ≤ C → caches_consistent C (new (T:=T) C).
Proof.
  intros HC. exists 0, 0, 0, 0. simpl.
  rewrite Z.mod_0_l by lia. repeat split; lia.
Qed.

(** One [Push] on the fast buffer against one on the plain buffer it stands
    for. *)
Ltac erased :=
  unfold erase_caches, commit_push, refresh_readIdxCached, refresh_writeIdxCached;
  cbn;
  repeat match goal with
         | H : capacity_ _ = _ |- _ => rewrite H
         | H : readIdx_ _ = _ |- _ => rewrite H
         | H : writeIdx_ _ = _ |- _ => rewrite H
         | H : data_ _ = _ |- _ => rewrite H
         end.

Lemma Push_simulation (C : Z) (v : T) (rb : t) :
  1 ≤ C < U64.modulus → caches_consistent C rb →
  ∃ ok rb', Push v rb = Ok (ok, rb') ∧
    RingBuffer.Push v (erase_caches rb) = Ok (ok, erase_caches rb') ∧
    caches_consistent C rb'.
Proof.
  intros HC (Rc & R & Wc & W & H0 & H1 & H2 & H3 & H4 & Hcap & HRc & HR & HWc & HW).
  assert (HWr : 0 ≤ writeIdx_ rb < C) by (rewrite HW; apply Z.mod_pos_bound; lia).
  unfold Push, RingBuffer.Push.
  cbn [erase_caches RingBuffer.writeIdx_ RingBuffer.capacity_ RingBuffer.readIdx_
       RingBuffer.data_].
  rewrite Hcap, urem_next by done. obind.
  rewrite HW, succ_mod by lia. rewrite HRc.
  cbn [refresh_readIdxCached readIdxCached_]. rewrite HR.
  destruct (decide ((W + 1) mod C = Rc mod C)) as [Hc|Hc].
  - destruct (decide ((W + 1) mod C = R mod C)) as [Hf|Hf].
    + eexists false, _. split; [done|]. split; [by erased|].
      exists R, R, Wc, W. cbn. repeat split; try done; lia.
    + eexists true, _. split; [done|]. split; [by erased|].
      assert (W + 1 - R ≠ C) by (intros ?; apply Hf, mod_eq_wrap; lia).
      exists R, R, Wc, (W + 1). cbn. repeat split; try done; lia.
  - assert (W + 1 - Rc ≠ C) by (intros ?; apply Hc, mod_eq_wrap; lia).
    rewrite decide_False.
    + eexists true, _. split; [done|]. split; [by erased|].
      exists Rc, R, Wc, (W + 1). cbn. repeat split; try done; lia.
    + intros Hf. apply mod_eq_small in Hf; lia.
Qed.

(** One [Pop] on the fast buffer against one on the plain buffer; a fault of
    the plain buffer is a fault of the fast one. *)
Lemma Pop_simulation (C : Z) (rb : t) :
  1 ≤ C < U64.modulus → caches_consistent C rb →
  match plain_Pop (erase_caches rb) with
  | Ok (r, p') => ∃ rb', Pop rb = Ok (r, rb') ∧ erase_caches rb' = p' ∧
                         caches_consistent C rb'
  | Fault f => Pop rb = Fault f
  end.
Proof.
  intros HC (Rc & R & Wc & W & H0 & H1 & H2 & H3 & H4 & Hcap & HRc & HR & HWc & HW).
  assert (HRr : 0 ≤ readIdx_ rb < C) by (rewrite HR; apply Z.mod_pos_bound; lia).
  assert (Hcommit : ∀ rb1 : t,
    data_ rb1 = data_ rb → capacity_ rb1 = C → readIdx_ rb1 = readIdx_ rb →
    writeIdx_ rb1 = writeIdx_ rb →
    (∃ Wc', R + 1 ≤ Wc' ∧ Wc' ≤ W ∧ writeIdxCached_ rb1 = Wc' mod C) →
    readIdxCached_ rb1 = readIdxCached_ rb →
    match (val ← load_slot (data_ rb) (readIdx_ rb);
           nextReadIdx ← urem (U64.add (readIdx_ rb) 1) C;
           Ok (Some val,
               RingBuffer.Build
                 (<[Z.to_nat (readIdx_ rb) := moved_from val]> (data_ rb)) C
                 nextReadIdx (writeIdx_ rb))) with
    | Ok (r, p') => ∃ rb', commit_pop moved_from rb1 = Ok (r, rb') ∧
                           erase_caches rb' = p' ∧ caches_consistent C rb'
    | Fault f => commit_pop moved_from rb1 = Fault f
    end).
  { intros rb1 Hd Hc Hr Hw (Wc' & Hlo & Hhi & Hwc) Hrc.
    unfold commit_pop. rewrite Hd, Hc, Hr, Hw.
    destruct (load_slot (data_ rb) (readIdx_ rb)) as [x|f]; [|done]. obind.
    rewrite urem_next by done. obind.
    eexists. split; [done|]. split; [by erased|].
    exists Rc, (R + 1), Wc', W. cbn.
    rewrite Hwc, Hrc, HRc, HR, HW, succ_mod by lia.
    repeat split; try done; lia. }
  unfold FastRingBuffer.Pop, RingBuffer.Pop.
  cbn [erase_caches RingBuffer.writeIdx_ RingBuffer.capacity_ RingBuffer.readIdx_
       RingBuffer.data_].
  rewrite Hcap. cbn [refresh_writeIdxCached writeIdxCached_].
  destruct (decide (readIdx_ rb = writeIdxCached_ rb)) as [Hc|Hc].
  - destruct (decide (readIdx_ rb = writeIdx_ rb)) as [He|He].
    + eexists. split; [done|]. split; [by erased|].
      exists Rc, R, W, W. cbn. repeat split; try done; lia.
    + apply Hcommit; try done.
      exists W. split; [|done].
      destruct (decide (R = W)) as [->|]; [congruence|lia].
  - assert (R ≠ Wc) by congruence.
    rewrite decide_False.
    + apply Hcommit; try done. exists Wc. split; [lia|]. split; [lia|done].
    + rewrite HR, HW. intros Hf. symmetry in Hf. apply mod_eq_small in Hf; lia.
Qed.

Lemma run_simulation (C : Z) (ops : list (op T)) (rb : t) :
  1 ≤ C < U64.modulus → caches_consistent C rb →
  match plain_run ops (erase_caches rb) with
  | Ok (rs, p') => ∃ rb', run ops rb = Ok (rs, rb') ∧ erase_caches rb' = p' ∧
                          caches_consistent C rb'
  | Fault f => run ops rb = Fault f
  end.
Proof.
  intros HC. revert rb. induction ops as [|o ops IH]; intros rb Hcc.
  - simpl. by exists rb.
  - cbn [RingBuffer.run FastRingBuffer.run RingBuffer.apply_op
         FastRingBuffer.apply_op].
    assert (Hstep :
      match RingBuffer.apply_op moved_from o (erase_caches rb) with
      | Ok (r, p') => ∃ rb', apply_op moved_from o rb = Ok (r, rb') ∧
                             erase_caches rb' = p' ∧ caches_consistent C rb'
      | Fault f => apply_op moved_from o rb = Fault f
      end).
    { destruct o as [v|]; cbn [RingBuffer.apply_op FastRingBuffer.apply_op].
      - destruct (Push_simulation C v rb HC Hcc) as (ok & rb' & -> & -> & Hcc').
        obind. by exists rb'.
      - pose proof (Pop_simulation C rb HC Hcc) as Hpop.
        destruct (plain_Pop (erase_caches rb)) as [[r p']|f].
        + destruct Hpop as (rb' & -> & <- & Hcc'). obind. by exists rb'.
        + by rewrite Hpop. }
    destruct (RingBuffer.apply_op moved_from o (erase_caches rb)) as [[r p']|f].
    + destruct Hstep as (rb' & -> & <- & Hcc'). obind.
      specialize (IH rb' Hcc').
      destruct (plain_run ops (erase_caches rb')) as [[rs p'']|f].
      * destruct IH as (rb'' & -> & <- & Hcc''). obind. by exists rb''.
      * by rewrite IH.
    + by rewrite Hstep.
Qed.

(** C4. For every capacity [C >= 1] and every sequence of calls made
    sequentially, [FastRingBuffer] returns the same results ([Push] booleans
    and [Pop] values), or faults in the same way, as [RingBuffer]. *)
Theorem fast_refines_plain (C : Z) (ops : list (op T)) :
  1 ≤ C < U64.modulus →
  fst <$> run ops (new C) = fst <$> plain_run ops (RingBuffer.new C).
Proof.
  intros HC.
  pose proof (run_simulation C ops (new C) HC (new_consistent C (proj1 HC))) as Hsim.
  change (erase_caches (new C)) with (RingBuffer.new (T:=T) C) in Hsim.
  destruct (plain_run ops (RingBuffer.new C)) as [[rs p']|f].
  - destruct Hsim as (rb' & -> & _). done.
  - by rewrite Hsim.
Qed.

Lemma reachable_erase (C : Z) (rb : t) :
  1 ≤ C < U64.modulus → reachable moved_from C rb →
  RingBuffer.reachable moved_from C (erase_caches rb) ∧ caches_consistent C rb.
Proof.
  intros HC (ops & rs & Hrun).
  pose proof (run_simulation C ops (new C) HC (new_consistent C (proj1 HC))) as Hsim.
  change (erase_caches (new C)) with (RingBuffer.new (T:=T) C) in Hsim.
  destruct (plain_run ops (RingBuffer.new C)) as [[rs' p']|f] eqn:Hplain.
  - destruct Hsim as (rb' & Hrun' & <- & Hcc).
    assert (rs' = rs ∧ rb' = rb) as [-> ->] by (split; congruence).
    split; [by exists ops, rs|done].
  - congruence.
Qed.

(** With capacity 0 the only state is the freshly constructed one: [Push]
    faults and [Pop] finds [read == write]. *)
Lemma plain_run_capacity_zero (ops : list (op T)) rs (p : RingBuffer.t) :
  plain_run ops (RingBuffer.new 0) = Ok (rs, p) → p = RingBuffer.new 0.
Proof.
  revert rs. induction ops as [|[v|] ops IH]; intros rs; simpl.
  - congruence.
  - done.
  - destruct (plain_run ops (RingBuffer.new 0)) as [[rs' p']|f]; [|done].
    intros [= <- <-]. by apply (IH rs').
Qed.

Lemma run_capacity_zero (ops : list (op T)) rs (rb : t) :
  run ops (new 0) = Ok (rs, rb) → rb = new 0.
Proof.
  revert rs. induction ops as [|[v|] ops IH]; intros rs; simpl.
  - congruence.
  - done.
  - change (refresh_writeIdxCached (new 0)) with (new (T:=T) 0).
    destruct (run ops (new 0)) as [[rs' p']|f]; [|done].
    intros [= <- <-]. by apply (IH rs').
Qed.

(** On reachable states the fast buffer returns, and takes the decisions of
    the plain one. *)
Lemma fast_total (C : Z) (v : T) (f : t) :
  1 ≤ C < U64.modulus → reachable moved_from C f →
  ∃ ok f' r f'',
    Push v f = Ok (ok, f') ∧ Pop f = Ok (r, f'') ∧
    (ok = false ↔ (writeIdx_ f + 1) mod C = readIdx_ f) ∧
    (r = None ↔ readIdx_ f = writeIdx_ f) ∧
    0 ≤ readIdx_ f < C ∧ 0 ≤ writeIdx_ f < C.
Proof.
  intros HC Hf.
  destruct (reachable_erase C f HC Hf) as [Hpf Hcc].
  pose proof (RingFacts.reachable_well_formed moved_from C _ HC Hpf) as Hwf.
  destruct (Push_simulation C v f HC Hcc) as (ok & f' & Hpush & Hplain & _).
  destruct (RingFacts.Push_well_formed C v _ HC Hwf)
    as (ok' & p' & Hpush' & _ & Hiff & _).
  pose proof (Pop_simulation C f HC Hcc) as Hpop.
  destruct (RingFacts.Pop_well_formed moved_from C _ HC Hwf)
    as (r & p'' & Hpop' & _ & Hiff' & _).
  rewrite Hpop' in Hpop. destruct Hpop as (f'' & Hpop & _).
  assert (ok' = ok) as -> by congruence.
  destruct Hwf as (_ & Hr & Hw & _).
  cbn in Hr, Hw, Hiff, Hiff'.
  exists ok, f', r, f''.
  split; [done|]. split; [done|]. split; [done|]. split; [done|]. lia.
Qed.

(** C10 (as amended).  The constructors store any capacity unchecked.
    - Capacity 0: every [Push] evaluates [(index + 1) % 0] and faults; [Pop]
      never reaches its modulo, it finds [read == write] and returns empty.
    - Capacity [>= 1]: every [Push] and [Pop] returns (no fault), for both
      variants.
    - Capacity 1: every [Push] returns false and every [Pop] returns empty. *)
Theorem capacity_edge_cases (C : Z) (v : T) (p : RingBuffer.t) (f : t) :
  0 ≤ C < U64.modulus →
  RingBuffer.reachable moved_from C p → reachable moved_from C f →
  (C = 0 →
     RingBuffer.Push v p = Fault DivisionByZero ∧ Push v f = Fault DivisionByZero ∧
     plain_Pop p = Ok (None, p) ∧ Pop f = Ok (None, f)) ∧
  (1 ≤ C →
     (∃ ok p', RingBuffer.Push v p = Ok (ok, p')) ∧
     (∃ r p', plain_Pop p = Ok (r, p')) ∧
     (∃ ok f', Push v f = Ok (ok, f')) ∧
     (∃ r f', Pop f = Ok (r, f'))) ∧
  (C = 1 →
     RingBuffer.Push v p = Ok (false, p) ∧ plain_Pop p = Ok (None, p) ∧
     (∃ f', Push v f = Ok (false, f')) ∧ (∃ f', Pop f = Ok (None, f'))).
Proof.
  intros HC Hp Hf.
  assert (Htotal : 1 ≤ C →
    (∃ ok p' r p'',
      RingBuffer.Push v p = Ok (ok, p') ∧ plain_Pop p = Ok (r, p'') ∧
      (ok = false ↔ (RingBuffer.writeIdx_ p + 1) mod C = RingBuffer.readIdx_ p) ∧
      (ok = false → p' = p) ∧
      (r = None ↔ RingBuffer.readIdx_ p = RingBuffer.writeIdx_ p) ∧
      (r = None → p'' = p) ∧
      0 ≤ RingBuffer.readIdx_ p < C ∧ 0 ≤ RingBuffer.writeIdx_ p < C) ∧
    (∃ ok f' r f'',
      Push v f = Ok (ok, f') ∧ Pop f = Ok (r, f'') ∧
      (ok = false ↔ (writeIdx_ f + 1) mod C = readIdx_ f) ∧
      (r = None ↔ readIdx_ f = writeIdx_ f) ∧
      0 ≤ readIdx_ f < C ∧ 0 ≤ writeIdx_ f < C)).
  { intros HC1. assert (HC' : 1 ≤ C < U64.modulus) by lia.
    split; [|by apply fast_total].
    pose proof (RingFacts.reachable_well_formed moved_from C p HC' Hp) as Hwf.
    destruct (RingFacts.Push_well_formed C v p HC' Hwf)
      as (ok & p' & Hpush & _ & Hiff & Hsame).
    destruct (RingFacts.Pop_well_formed moved_from C p HC' Hwf)
      as (r & p'' & Hpop & _ & Hiff' & Hsame').
    destruct Hwf as (_ & Hr & Hw & _).
    by exists ok, p', r, p''. }
  split; [|split].
  - intros ->.
    destruct Hp as (ops & rs & Hp). apply plain_run_capacity_zero in Hp as ->.
    destruct Hf as (ops' & rs' & Hf). apply run_capacity_zero in Hf as ->.
    done.
  - intros HC1.
    destruct (Htotal HC1) as
      [(ok & p' & r & p'' & Hpush & Hpop & _) (okf & f' & rf & f'' & Hfpush & Hfpop & _)].
    repeat split; eauto.
  - intros ->.
    destruct (Htotal ltac:(lia)) as
      [(ok & p' & r & p'' & Hpush & Hpop & Hiff & Hsame & Hiff' & Hsame' & Hr & Hw)
       (okf & f' & rf & f'' & Hfpush & Hfpop & Hfiff & Hfiff' & Hfr & Hfw)].
    assert (ok = false) as -> by (apply Hiff; rewrite Z.mod_1_r; lia).
    assert (r = None) as -> by (apply Hiff'; lia).
    assert (okf = false) as -> by (apply Hfiff; rewrite Z.mod_1_r; lia).
    assert (rf = None) as -> by (apply Hfiff'; lia).
    rewrite (Hsame eq_refl) in Hpush. rewrite (Hsame' eq_refl) in Hpop.
    repeat split; eauto.
Qed.

End WithPayload.
End FastRingFacts.

(** ** Ring buffers as bounded FIFO queues *)

Lemma mod_sub_cases (C r w : Z) :
  0 ≤ r < C → 0 ≤ w < C →
  (w - r) mod C = if decide (r ≤ w) then w - r else w - r + C.
Proof.
  intros Hr Hw. case_decide.
  - apply Z.mod_small. lia.
  - symmetry. apply (Z.mod_unique _ _ (-1)); lia.
Qed.

Lemma mod_add_cases (C r k : Z) :
  0 ≤ r < C → 0 ≤ k < C →
  (r + k) mod C = if decide (r + k < C) then r + k else r + k - C.
Proof.
  intros Hr Hk. case_decide.
  - apply Z.mod_small. lia.
  - symmetry. apply (Z.mod_unique _ _ 1); lia.
Qed.

Lemma mod_succ_cases (C w : Z) :
  0 ≤ w < C → (w + 1) mod C = if decide (w + 1 < C) then w + 1 else 0.
Proof.
  intros Hw. case_decide.
  - apply Z.mod_small. lia.
  - replace (w + 1) with C by lia. apply Z.mod_same. lia.
Qed.

Module QueueFacts.
Section WithPayload.

Context {T : Type}.
Variable moved_from : T → T.

Import RingBuffer.
Local Abbreviation Pop := (RingBuffer.Pop moved_from).
Local Abbreviation run := (RingBuffer.run moved_from).

Lemma held_by_new (C : Z) : 1 ≤ C → BoundedQueue.held_by C (new (T:=T) C) [].
Proof.
  intros HC. split; [by apply RingFacts.new_well_formed|].
  split; [cbn; by rewrite Z.mod_0_l by lia|done].
Qed.

Lemma lookup_store_slot_eq (data : list T) (w : Z) (v : T) :
  0 ≤ w ≤ Z.of_nat (length data) →
  store_slot data w v !! Z.to_nat w = Some v.
Proof.
  intros Hw. unfold store_slot. case_decide.
  - assert (Z.to_nat w = length data) as -> by lia.
    by rewrite lookup_app_r, Nat.sub_diag.
  - apply list_lookup_insert_eq. lia.
Qed.

Lemma lookup_store_slot_ne (data : list T) (w i : Z) (v x : T) :
  0 ≤ w → 0 ≤ i → i ≠ w →
  data !! Z.to_nat i = Some x → store_slot data w v !! Z.to_nat i = Some x.
Proof.
  intros Hw Hi Hne Hx. unfold store_slot. case_decide.
  - by apply lookup_app_l_Some.
  - rewrite list_lookup_insert_ne by lia. done.
Qed.

Lemma Push_held (C : Z) (v : T) (rb : t) (q : list T) :
  1 ≤ C < U64.modulus → BoundedQueue.held_by C rb q →
  ∃ rb', Push v rb = Ok ((BoundedQueue.Push (C - 1) v q).1, rb') ∧
         BoundedQueue.held_by C rb' (BoundedQueue.Push (C - 1) v q).2.
Proof.
  intros HC (Hwf & Hlen & Hdata).
  pose proof Hwf as (Hcap & Hr & Hw & Hsize).
  unfold Push, BoundedQueue.Push.
  rewrite Hcap, urem_next by done. obind.
  pose proof (mod_sub_cases C _ _ Hr Hw) as Hsub.
  pose proof (mod_succ_cases C (writeIdx_ rb) Hw) as Hnext.
  destruct (decide ((writeIdx_ rb + 1) mod C = readIdx_ rb)) as [Hfull|Hroom].
  - rewrite decide_True by (repeat case_decide; lia).
    by exists rb.
  - rewrite decide_False by (repeat case_decide; lia).
    eexists. split; [done|]. cbn [fst snd].
    assert (Hn : 0 ≤ (writeIdx_ rb + 1) mod C < C) by (apply Z.mod_pos_bound; lia).
    split; [|split]; cbn [data_ capacity_ readIdx_ writeIdx_].
    + (* shape *)
      unfold well_formed; cbn. split; [done|]. split; [done|]. split; [done|].
      rewrite RingFacts.length_store_slot by lia.
      destruct Hsize as [Hl|[Hl Hrw]]; repeat case_decide; lia.
    + rewrite length_app; cbn.
      pose proof (mod_sub_cases C (readIdx_ rb) ((writeIdx_ rb + 1) mod C) Hr Hn).
      repeat case_decide; lia.
    + intros k x Hk.
      assert (Hkq : (k < length (q ++ [v]))%nat) by (by eapply lookup_lt_Some).
      rewrite length_app in Hkq; cbn in Hkq.
      assert (Hkr : 0 ≤ Z.of_nat k < C) by (repeat case_decide; lia).
      pose proof (mod_add_cases C (readIdx_ rb) (Z.of_nat k) Hr Hkr) as Hidx.
      destruct (decide (k = length q)) as [->|Hne].
      * rewrite lookup_app_r, Nat.sub_diag in Hk by done. injection Hk as <-.
        replace ((readIdx_ rb + Z.of_nat (length q)) mod C) with (writeIdx_ rb)
          by (repeat case_decide; lia).
        apply lookup_store_slot_eq.
        destruct Hsize as [Hl|[Hl Hrw]]; lia.
      * rewrite lookup_app_l in Hk by lia.
        apply lookup_store_slot_ne; [lia| |repeat case_decide; lia|by apply Hdata].
        apply Z.mod_pos_bound. lia.
Qed.

Lemma Pop_held (C : Z) (rb : t) (q : list T) :
  1 ≤ C < U64.modulus → BoundedQueue.held_by C rb q →
  ∃ rb', Pop rb = Ok ((BoundedQueue.Pop q).1, rb') ∧
         BoundedQueue.held_by C rb' (BoundedQueue.Pop q).2.
Proof.
  intros HC (Hwf & Hlen & Hdata).
  pose proof Hwf as (Hcap & Hr & Hw & Hsize).
  pose proof (mod_sub_cases C _ _ Hr Hw) as Hsub.
  unfold RingBuffer.Pop, BoundedQueue.Pop.
  destruct q as [|x q].
  - rewrite decide_True by (cbn in Hlen; repeat case_decide; lia).
    by exists rb.
  - rewrite decide_False by (cbn in Hlen; repeat case_decide; lia).
    pose proof (Hdata 0%nat x eq_refl) as Hx.
    rewrite Z.add_0_r, Z.mod_small in Hx by done.
    unfold load_slot. rewrite Hx, Hcap, urem_next by done. obind.
    eexists. split; [done|]. cbn [fst snd].
    assert (Hn : 0 ≤ (readIdx_ rb + 1) mod C < C) by (apply Z.mod_pos_bound; lia).
    pose proof (mod_succ_cases C (readIdx_ rb) Hr) as Hnext.
    cbn [length] in Hlen.
    split; [|split]; cbn [data_ capacity_ readIdx_ writeIdx_].
    + unfold well_formed; cbn. split; [done|]. split; [done|]. split; [done|].
      rewrite length_insert.
      destruct Hsize as [Hl|[Hl Hrw]]; [by left|right].
      repeat case_decide; lia.
    + pose proof (mod_sub_cases C ((readIdx_ rb + 1) mod C) (writeIdx_ rb) Hn Hw).
      repeat case_decide; lia.
    + intros k y Hk.
      assert (Hkq : (k < length q)%nat) by (by eapply lookup_lt_Some).
      pose proof (Hdata (S k) y Hk) as Hy.
      assert (Hkr : 0 ≤ Z.of_nat (S k) < C) by (repeat case_decide; lia).
      pose proof (mod_add_cases C (readIdx_ rb) (Z.of_nat (S k)) Hr Hkr) as Hidx.
      pose proof (mod_add_cases C ((readIdx_ rb + 1) mod C) (Z.of_nat k) Hn
                    ltac:(lia)) as Hidx'.
      replace (((readIdx_ rb + 1) mod C + Z.of_nat k) mod C)
        with ((readIdx_ rb + Z.of_nat (S k)) mod C)
        by (repeat case_decide; lia).
      rewrite list_lookup_insert_ne; [done|].
      repeat case_decide; lia.
Qed.

Lemma run_held (C : Z) (ops : list (op T)) (rb : t) (q : list T) :
  1 ≤ C < U64.modulus → BoundedQueue.held_by C rb q →
  ∃ rb', run ops rb = Ok ((BoundedQueue.run (C - 1) ops q).1, rb') ∧
         BoundedQueue.held_by C rb' (BoundedQueue.run (C - 1) ops q).2.
Proof.
  intros HC. revert rb q. induction ops as [|o ops IH]; intros rb q Hheld.
  - by exists rb.
  - destruct o as [v|];
      cbn [RingBuffer.run BoundedQueue.run RingBuffer.apply_op BoundedQueue.apply_op].
    + destruct (Push_held C v rb q HC Hheld) as (rb1 & -> & Hheld1).
      destruct (BoundedQueue.Push (C - 1) v q) as [ok q1]. cbn [fst snd] in *. obind.
      destruct (IH rb1 q1 Hheld1) as (rb2 & -> & Hheld2).
      destruct (BoundedQueue.run (C - 1) ops q1) as [rs q2]. obind.
      by exists rb2.
    + destruct (Pop_held C rb q HC Hheld) as (rb1 & -> & Hheld1).
      destruct (BoundedQueue.Pop q) as [r q1]. cbn [fst snd] in *. obind.
      destruct (IH rb1 q1 Hheld1) as (rb2 & -> & Hheld2).
      destruct (BoundedQueue.run (C - 1) ops q1) as [rs q2]. obind.
      by exists rb2.
Qed.

Lemma queue_alternating (room : Z) (vs : list T) :
  1 ≤ room →
  BoundedQueue.run room (vs ≫= λ v, [DoPush v; DoPop]) [] =
  (vs ≫= λ v, [Pushed true; Popped (Some v)], []).
Proof.
  intros Hroom. induction vs as [|v vs IH]; [done|].
  cbn [mbind list_bind app BoundedQueue.run BoundedQueue.apply_op].
  unfold BoundedQueue.Push. rewrite decide_False by (cbn; lia).
  cbn [BoundedQueue.Pop app]. by rewrite IH.
Qed.

(** [AlternatingPushPop], for every capacity [C >= 2] and any number of
    rounds: on a fresh fast buffer, each [Push] succeeds and the [Pop] that
    follows returns the value just pushed, also when the indices wrap
    around. *)
Theorem alternating_push_pop (C : Z) (vs : list T) :
  2 ≤ C < U64.modulus →
  fst <$> FastRingBuffer.run moved_from (vs ≫= λ v, [DoPush v; DoPop])
            (FastRingBuffer.new C) =
  Ok (vs ≫= λ v, [Pushed true; Popped (Some v)]).
Proof.
  intros HC. assert (HC1 : 1 ≤ C < U64.modulus) by lia.
  set (ops := vs ≫= λ v, [DoPush v; DoPop]).
  destruct (run_held C ops (new C) [] HC1 (held_by_new C (proj1 HC1)))
    as (rb' & Hrun & _).
  pose proof (FastRingFacts.run_simulation moved_from C ops (FastRingBuffer.new C) HC1
                (FastRingFacts.new_consistent C (proj1 HC1))) as Hsim.
  change (FastRingBuffer.erase_caches (FastRingBuffer.new C))
    with (new (T:=T) C) in Hsim.
  rewrite Hrun in Hsim. destruct Hsim as (f' & -> & _).
  unfold ops. rewrite queue_alternating by lia. done.
Qed.

(** Strict FIFO delivery.  For every capacity [C >= 1] and every sequence
    of calls made sequentially, both ring buffers return what a FIFO queue
    bounded by [C - 1] elements returns: a pop never yields a value that was
    not pushed, nor one twice, nor out of order, and no call faults. *)
Theorem ring_buffers_are_fifo (C : Z) (ops : list (op T)) :
  1 ≤ C < U64.modulus →
  fst <$> run ops (new C) = Ok (BoundedQueue.run (C - 1) ops []).1 ∧
  fst <$> FastRingBuffer.run moved_from ops (FastRingBuffer.new C) =
    Ok (BoundedQueue.run (C - 1) ops []).1.
Proof.
  intros HC.
  destruct (run_held C ops (new C) [] HC (held_by_new C (proj1 HC)))
    as (rb' & Hrun & _).
  split; [by rewrite Hrun|].
  pose proof (FastRingFacts.run_simulation moved_from C ops (FastRingBuffer.new C) HC
                (FastRingFacts.new_consistent C (proj1 HC))) as Hsim.
  change (FastRingBuffer.erase_caches (FastRingBuffer.new C))
    with (new (T:=T) C) in Hsim.
  rewrite Hrun in Hsim. destruct Hsim as (f' & -> & _). done.
Qed.

End WithPayload.
End QueueFacts.

(** ** One producer and one consumer *)

Lemma mod_ne_window (C a b : Z) :
  0 < C → 0 < a - b < C → a mod C ≠ b mod C.
Proof. intros HC Hab Heq. apply mod_eq_small in Heq; lia. Qed.

Lemma slot_ne (C a b : Z) :
  0 < C → 0 < a - b < C → Z.to_nat (a mod C) ≠ Z.to_nat (b mod C).
Proof.
  intros HC Hab Heq.
  apply (mod_ne_window C a b HC Hab).
  apply Z2Nat.inj in Heq; [done|apply Z.mod_pos_bound; lia..].
Qed.

Module SPSCFacts.
Section WithPayload.

Context {T : Type}.
Variable moved_from : T → T.

Import SPSC.
Local Abbreviation step := (SPSC.step moved_from).
Local Abbreviation reachable := (SPSC.reachable moved_from).

(** Run without interruption, the steps of a call are the method of the
    sequential model. *)
Lemma Push_in_steps (val : T) (rb : FastRingBuffer.t) :
  FastRingBuffer.Push val rb =
  '(r, rb1) ← push_check rb;
  Ok (match r with
      | Some nextWriteIdx => (true, push_publish nextWriteIdx (push_write val rb1))
      | None => (false, rb1)
      end).
Proof.
  unfold FastRingBuffer.Push, push_check.
  destruct (urem _ _) as [next|f]; [|done]. obind.
  repeat case_decide; reflexivity.
Qed.

Lemma Pop_in_steps (rb : FastRingBuffer.t) :
  FastRingBuffer.Pop moved_from rb =
  let '(go, rb1) := pop_check rb in
  if go then
    '(val, rb2) ← pop_move moved_from rb1;
    rb3 ← pop_publish rb2;
    Ok (Some val, rb3)
  else Ok (None, rb1).
Proof.
  unfold FastRingBuffer.Pop, pop_check, FastRingBuffer.commit_pop, pop_move, pop_publish.
  repeat case_decide; try reflexivity.
  all: cbn [FastRingBuffer.refresh_writeIdxCached FastRingBuffer.data_
            FastRingBuffer.readIdx_ FastRingBuffer.capacity_].
  all: destruct (load_slot _ _) as [v|f]; [|done]; obind.
  all: cbn [FastRingBuffer.readIdx_ FastRingBuffer.capacity_].
  all: destruct (urem _ _) as [next|f]; [|done]; reflexivity.
Qed.

Lemma in_order_init (C : Z) : 1 ≤ C → in_order C (init (T := T) C).
Proof.
  intros HC. exists 0, 0. cbn.
  rewrite Z.mod_0_l by lia.
  repeat split; try done; try lia.
Qed.

Lemma in_order_step (C : Z) (a : action) (s : state) (o : outcome state) :
  1 ≤ C < U64.modulus → in_order C s → step a s = Some o →
  ∃ s', o = Ok s' ∧ in_order C s'.
Proof.
  intros HC (Rc & Wc & Hcap & Hw & Hr & Hrc & Hwc & Hchain & Hpre & Hprod & Hcons &
             Hslots & Hlen) Hstep.
  destruct Hchain as (H0 & H1 & H2 & H3 & H4).
  destruct s as [rb pr co pu po].
  unfold producer_ok, consumer_ok, first_held, written in *. cbn in *.
  set (W := Z.of_nat (length pu)) in *. set (R := Z.of_nat (length po)) in *.
  assert (HR : (length po ≤ length pu)%nat) by lia.
  destruct a as [val| | | | |]; cbn in Hstep.
  - (* PushCheck: the fullness test *)
    destruct pr; try done. injection Hstep as <-.
    unfold push_check. rewrite Hcap, Hw.
    rewrite urem_next by (done || (apply Z.mod_pos_bound; lia)). obind.
    rewrite succ_mod by lia. rewrite Hrc.
    cbn [FastRingBuffer.refresh_readIdxCached FastRingBuffer.readIdxCached_]. rewrite Hr.
    destruct (decide ((W + 1) mod C = Rc mod C)) as [Hc|Hc].
    + destruct (decide ((W + 1) mod C = R mod C)) as [Hf|Hf]; obind.
      * eexists. split; [done|]. exists R, Wc.
        unfold producer_ok, consumer_ok, first_held, written. cbn. fold W R.
        repeat split; try done; lia.
      * eexists. split; [done|]. exists R, Wc.
        unfold producer_ok, consumer_ok, first_held, written. cbn. fold W R.
        assert (W + 1 - R ≠ C) by (intros ?; apply Hf, mod_eq_wrap; lia).
        repeat split; try done; lia.
    + obind. eexists. split; [done|]. exists Rc, Wc.
      unfold producer_ok, consumer_ok, first_held, written. cbn. fold W R.
      assert (W + 1 - Rc ≠ C) by (intros ?; apply Hc, mod_eq_wrap; lia).
      repeat split; try done; lia.
  - (* PushWrite: the slot *)
    destruct pr as [|val next|]; try done. injection Hstep as <-.
    destruct Hprod as [Hnext Hroom].
    eexists. split; [done|]. exists Rc, Wc.
    unfold producer_ok, consumer_ok, first_held, written. cbn. fold W R.
    rewrite Hw. unfold store_slot.
    assert (HWm : 0 ≤ W mod C < C) by (apply Z.mod_pos_bound; lia).
    split; [done|]. split; [done|]. split; [done|]. split; [done|]. split; [done|].
    split; [lia|]. split; [done|].
    destruct (decide (W < C)) as [Hsmall|Hbig].
    + (* the vector has not wrapped: [emplace_back] *)
      rewrite Z.min_l in Hlen by lia.
      rewrite (Z.mod_small W C) by lia.
      rewrite decide_True by lia.
      assert (Hlen' : length (FastRingBuffer.data_ rb) = length pu) by lia.
      split; [|split; [done|split]].
      * split; [done|]. split; [done|].
        rewrite lookup_app_r by lia.
        replace (Z.to_nat W - length (FastRingBuffer.data_ rb))%nat with 0%nat by lia.
        done.
      * intros k Hk. rewrite lookup_app_l.
        -- by apply Hslots.
        -- rewrite Z.mod_small by lia. lia.
      * rewrite length_app. cbn. lia.
    + (* all slots exist: assignment *)
      rewrite Z.min_r in Hlen by lia.
      rewrite decide_False by lia.
      split; [|split; [done|split]].
      * split; [done|]. split; [done|].
        apply list_lookup_insert_eq. lia.
      * intros k Hk. rewrite list_lookup_insert_ne.
        -- by apply Hslots.
        -- apply slot_ne; [lia|].
           destruct co; lia.
      * rewrite length_insert. lia.
  - (* PushPublish: the store of [writeIdx_] *)
    destruct pr as [| |val next]; try done. injection Hstep as <-.
    destruct Hprod as (Hnext & Hroom & Hslot).
    eexists. split; [done|]. exists Rc, Wc.
    unfold producer_ok, consumer_ok, first_held, written. cbn. fold W R.
    rewrite length_app. cbn [length].
    replace (Z.of_nat (length pu + 1)) with (W + 1) by lia.
    split; [done|]. split; [done|]. split; [done|]. split; [done|]. split; [done|].
    split; [lia|]. split; [|split; [done|split; [|split]]].
    + rewrite take_app_le by lia. done.
    + destruct co as [| |v]; try done.
      destruct Hcons as [? Hval]. split; [done|].
      rewrite lookup_app_l; [done|]. by apply lookup_lt_Some in Hval.
    + intros k Hk.
      destruct (decide (k = length pu)) as [->|Hne].
      * rewrite list_lookup_middle by done. exact Hslot.
      * rewrite lookup_app_l by lia. apply Hslots. lia.
    + done.
  - (* PopCheck: the emptiness test *)
    destruct co; try done. unfold pop_check in Hstep.
    rewrite Hr, Hwc in Hstep.
    cbn [FastRingBuffer.refresh_writeIdxCached FastRingBuffer.writeIdxCached_] in Hstep.
    rewrite Hw in Hstep.
    destruct (decide (R mod C = Wc mod C)) as [Hc|Hc].
    + destruct (decide (R mod C = W mod C)) as [He|He]; injection Hstep as <-.
      * eexists. split; [done|]. exists Rc, W.
        unfold producer_ok, consumer_ok, first_held, written. cbn. fold W R.
        repeat split; try done; lia.
      * eexists. split; [done|]. exists Rc, W.
        unfold producer_ok, consumer_ok, first_held, written. cbn. fold W R.
        assert (R ≠ W) by congruence.
        repeat split; try done; lia.
    + injection Hstep as <-.
      eexists. split; [done|]. exists Rc, Wc.
      unfold producer_ok, consumer_ok, first_held, written. cbn. fold W R.
      assert (R ≠ Wc) by congruence.
      repeat split; try done; lia.
  - (* PopMove: the slot *)
    destruct co; try done. injection Hstep as <-.
    assert (Hlt : (length po < length pu)%nat) by lia.
    destruct (lookup_lt_is_Some_2 pu (length po) Hlt) as [val Hval].
    pose proof (Hslots (length po) ltac:(lia)) as Hslot. rewrite Hval in Hslot.
    unfold pop_move, load_slot. rewrite Hr. fold R in Hslot. rewrite Hslot. obind.
    eexists. split; [done|]. exists Rc, Wc.
    unfold producer_ok, consumer_ok, first_held, written. cbn. fold W R.
    split; [done|]. split; [done|]. split; [done|]. split; [done|]. split; [done|].
    split; [lia|]. split; [done|]. split; [|split; [done|split]].
    + destruct pr as [|? ?|v next]; try done.
      destruct Hprod as (Hnext & Hroom & Hs). split; [done|]. split; [done|].
      rewrite list_lookup_insert_ne; [done|].
      apply not_eq_sym, slot_ne; lia.
    + intros k Hk. rewrite list_lookup_insert_ne.
      * apply Hslots. lia.
      * apply not_eq_sym, slot_ne; lia.
    + by rewrite length_insert.
  - (* PopPublish: the store of [readIdx_] *)
    destruct co as [| |val]; try done. injection Hstep as <-.
    destruct Hcons as [Hlt Hval].
    unfold pop_publish. rewrite Hcap, Hr.
    rewrite urem_next by (done || (apply Z.mod_pos_bound; lia)). obind.
    rewrite succ_mod by lia.
    eexists. split; [done|]. exists Rc, Wc.
    unfold producer_ok, consumer_ok, first_held, written. cbn. fold W R.
    rewrite length_app. cbn [length].
    replace (Z.of_nat (length po + 1)) with (R + 1) by lia.
    split; [done|]. split; [done|]. split; [done|]. split; [done|]. split; [done|].
    split; [lia|]. split; [|split; [done|split; [done|split; [|done]]]].
    + replace (length po + 1)%nat with (S (length po)) by lia.
      rewrite (take_S_r _ _ val) by done. by rewrite <- Hpre.
    + intros k Hk. apply Hslots. lia.
Qed.

Lemma reachable_in_order (C : Z) (s : state) :
  1 ≤ C < U64.modulus → reachable C s → in_order C s.
Proof.
  intros HC. induction 1 as [|s a s' _ IH Hstep]; [apply in_order_init; lia|].
  destruct (in_order_step C a s (Ok s') HC IH Hstep) as (s'' & [= <-] & Hs'). done.
Qed.

Lemma spsc_exec_reachable (C : Z) (schedule : list action) (s s' : state) :
  reachable C s → exec moved_from schedule s = Some s' → reachable C s'.
Proof.
  revert s. induction schedule as [|a rest IH]; intros s Hs; cbn.
  - by intros [= <-].
  - destruct (step a s) as [[s1|f]|] eqn:Hstep; try done.
    apply IH. by apply (reachable_step moved_from C s a).
Qed.

(** One thread calling [Push] and another calling [Pop] on a
    [FastRingBuffer] of capacity [C >= 1], their steps interleaved in any
    way: the values [Pop] has returned are, in order, the first of those
    whose [Push] returned true; at most [C - 1] pushed values wait to be
    popped; the value a [Pop] is about to return is the oldest one waiting;
    no step divides by zero or indexes [data_] out of range; and [data_]
    never grows beyond the [capacity_] elements reserved by the
    constructor. *)
Theorem spsc_fifo (C : Z) (s : state) :
  1 ≤ C < U64.modulus → reachable C s →
  (∃ waiting, pushed s = popped s ++ waiting ∧ Z.of_nat (length waiting) ≤ C - 1) ∧
  (∀ val, consuming s = CMoved val → pushed s !! length (popped s) = Some val) ∧
  (∀ a o, step a s = Some o → ∃ s', o = Ok s') ∧
  Z.of_nat (length (FastRingBuffer.data_ (buffer s))) ≤ C.
Proof.
  intros HC Hs. pose proof (reachable_in_order C s HC Hs) as Hin.
  assert (Hlen : Z.of_nat (length (FastRingBuffer.data_ (buffer s))) ≤ C).
  { destruct Hin as (Rc & Wc & _ & _ & _ & _ & _ & _ & _ & _ & _ & _ & Hlen). lia. }
  split; [|split; [|split; [|done]]].
  - destruct Hin as (Rc & Wc & _ & _ & _ & _ & _ & Hchain & Hpre & _).
    exists (drop (length (popped s)) (pushed s)). split.
    + rewrite Hpre at 1. by rewrite take_drop.
    + rewrite length_drop. lia.
  - intros val Hval.
    destruct Hin as (Rc & Wc & _ & _ & _ & _ & _ & _ & _ & _ & Hcons & _).
    unfold consumer_ok in Hcons. rewrite Hval in Hcons. apply Hcons.
  - intros a o Hstep.
    destruct (in_order_step C a s o HC Hin Hstep) as (s' & -> & _). by exists s'.
Qed.

(** The caches never make a call fail wrongly: with one producer and one
    consumer interleaved in any way, a [Push] returns false only if, when it
    tests for fullness, [C - 1] pushed values wait to be popped, and a [Pop]
    returns empty only if, when it tests for emptiness, none does; and in
    those situations they do fail. *)
Theorem spsc_fails_iff_full_or_empty (C : Z) (s : state) :
  1 ≤ C < U64.modulus → reachable C s →
  let waiting := Z.of_nat (length (pushed s)) - Z.of_nat (length (popped s)) in
  (∀ val s', step (PushCheck val) s = Some (Ok s') →
     (producing s' = PIdle ↔ waiting = C - 1)) ∧
  (∀ s', step PopCheck s = Some (Ok s') →
     (consuming s' = CIdle ↔ waiting = 0)).
Proof.
  intros HC Hs. pose proof (reachable_in_order C s HC Hs) as Hin.
  destruct Hin as (Rc & Wc & Hcap & Hw & Hr & Hrc & Hwc & Hchain & _).
  destruct Hchain as (H0 & H1 & H2 & H3 & H4).
  destruct s as [rb pr co pu po]. cbn in *.
  set (W := Z.of_nat (length pu)) in *. set (R := Z.of_nat (length po)) in *.
  split.
  - intros val s'. destruct pr; try done.
    unfold push_check. rewrite Hcap, Hw.
    rewrite urem_next by (done || (apply Z.mod_pos_bound; lia)). obind.
    rewrite succ_mod by lia. rewrite Hrc.
    cbn [FastRingBuffer.refresh_readIdxCached FastRingBuffer.readIdxCached_]. rewrite Hr.
    destruct (decide ((W + 1) mod C = Rc mod C)) as [Hc|Hc].
    + destruct (decide ((W + 1) mod C = R mod C)) as [Hf|Hf]; obind; intros [= <-]; cbn.
      * split; [intros _|done].
        assert (W + 1 - R = C) by (apply mod_eq_wrap; [lia|lia|done]). lia.
      * split; [done|]. intros Hfull. destruct Hf. apply mod_eq_wrap; lia.
    + obind. intros [= <-]; cbn. split; [done|]. intros Hfull.
      destruct Hc. apply mod_eq_wrap; lia.
  - intros s'. destruct co; try done. unfold pop_check.
    rewrite Hr, Hwc.
    cbn [FastRingBuffer.refresh_writeIdxCached FastRingBuffer.writeIdxCached_].
    rewrite Hw.
    destruct (decide (R mod C = Wc mod C)) as [Hc|Hc].
    + destruct (decide (R mod C = W mod C)) as [He|He]; intros [= <-]; cbn.
      * split; [intros _|done].
        assert (W = R) by (apply (mod_eq_small C); [lia|lia|done]). lia.
      * split; [done|]. intros Hempty. destruct He. f_equal. lia.
    + intros [= <-]; cbn. split; [done|]. intros Hempty.
      destruct Hc. f_equal. lia.
Qed.

End WithPayload.
End SPSCFacts.

Module SPSCPlainFacts.
Section WithPayload.

Context {T : Type}.
Variable moved_from : T → T.

Import SPSCPlain.
Local Abbreviation step := (SPSCPlain.step moved_from).
Local Abbreviation reachable := (SPSCPlain.reachable moved_from).

(** Run without interruption, the steps of a call are the method of the
    sequential model. *)
Lemma plain_Push_in_steps (val : T) (rb : RingBuffer.t) :
  RingBuffer.Push val rb =
  r ← push_check rb;
  Ok (match r with
      | Some nextWriteIdx => (true, push_publish nextWriteIdx (push_write val rb))
      | None => (false, rb)
      end).
Proof.
  unfold RingBuffer.Push, push_check.
  destruct (urem _ _) as [next|f]; [|done]. obind.
  case_decide; reflexivity.
Qed.

Lemma plain_Pop_in_steps (rb : RingBuffer.t) :
  RingBuffer.Pop moved_from rb =
  if pop_check rb then
    '(val, rb2) ← pop_move moved_from rb;
    rb3 ← pop_publish rb2;
    Ok (Some val, rb3)
  else Ok (None, rb).
Proof.
  unfold RingBuffer.Pop, pop_check, pop_move, pop_publish.
  case_decide; [reflexivity|].
  destruct (load_slot _ _) as [v|f]; [|done]; obind.
  cbn [RingBuffer.readIdx_ RingBuffer.capacity_].
  destruct (urem _ _) as [next|f]; [|done]; reflexivity.
Qed.

(** Each step of the plain buffer is matched by the same step of the fast
    buffer: the caches change no decision. *)
Lemma twin_step (C : Z) (a : SPSC.action) (p : state) (f : SPSC.state)
    (o : outcome state) :
  1 ≤ C < U64.modulus → twin p f → SPSC.in_order C f → step a p = Some o →
  ∃ p' f', o = Ok p' ∧ SPSC.step moved_from a f = Some (Ok f') ∧ twin p' f'.
Proof.
  intros HC (Hbuf & Hpr & Hco & Hpu & Hpo) Hin Hstep.
  pose proof (SPSCFacts.in_order_step moved_from C a f) as Htotal.
  specialize (λ o, Htotal o HC Hin).
  destruct Hin as (Rc & Wc & Hcap & Hw & Hr & Hrc & Hwc & Hchain & _).
  destruct Hchain as (H0 & H1 & H2 & H3 & H4).
  destruct f as [[d c r wc w rc] fpr fco fpu fpo]. destruct p as [rb pr co pu po].
  cbn in Hbuf, Hpr, Hco, Hpu, Hpo, Hcap, Hw, Hr, Hrc, Hwc, H1, H2, H3, H4.
  subst rb fpr fco fpu fpo c w r rc wc.
  set (W := Z.of_nat (length pu)) in *. set (R := Z.of_nat (length po)) in *.
  assert (HWm : 0 ≤ W mod C < C) by (apply Z.mod_pos_bound; lia).
  assert (HRm : 0 ≤ R mod C < C) by (apply Z.mod_pos_bound; lia).
  unfold twin.
  destruct a as [val| | | | |]; cbn in Hstep |- *.
  - (* PushCheck *)
    destruct pr; try done. injection Hstep as <-.
    unfold push_check, SPSC.push_check. cbn.
    rewrite urem_next by done. obind.
    rewrite succ_mod by lia.
    destruct (decide ((W + 1) mod C = Rc mod C)) as [Hc|Hc].
    + destruct (decide ((W + 1) mod C = R mod C)) as [Hf|Hf]; obind.
      * by eexists _, _.
      * by eexists _, _.
    + rewrite decide_False.
      * obind. by eexists _, _.
      * assert (W + 1 - Rc ≠ C) by (intros ?; apply Hc, mod_eq_wrap; lia).
        apply mod_ne_window; lia.
  - (* PushWrite *)
    destruct pr; try done. injection Hstep as <-. by eexists _, _.
  - (* PushPublish *)
    destruct pr; try done. injection Hstep as <-. by eexists _, _.
  - (* PopCheck *)
    destruct co; try done. injection Hstep as <-.
    unfold pop_check, SPSC.pop_check. cbn.
    destruct (decide (R mod C = Wc mod C)) as [Hc|Hc].
    + destruct (decide (R mod C = W mod C)) as [He|He]; by eexists _, _.
    + rewrite decide_False; [by eexists _, _|].
      assert (R ≠ Wc) by congruence.
      apply not_eq_sym, mod_ne_window; lia.
  - (* PopMove *)
    destruct co; try done. injection Hstep as <-.
    destruct (Htotal _ eq_refl) as (s' & Hs' & _). revert Hs'.
    unfold pop_move, SPSC.pop_move. cbn.
    destruct (load_slot d (R mod C)) as [v|flt]; obind; [|done].
    intros _. by eexists _, _.
  - (* PopPublish *)
    destruct co; try done. injection Hstep as <-.
    unfold pop_publish, SPSC.pop_publish. cbn.
    rewrite urem_next by done. obind. by eexists _, _.
Qed.

Lemma reachable_twin (C : Z) (p : state) :
  1 ≤ C < U64.modulus → reachable C p →
  ∃ f, SPSC.reachable moved_from C f ∧ twin p f.
Proof.
  intros HC. induction 1 as [|p a p' _ (f & Hf & Htwin) Hstep].
  - exists (SPSC.init C). split; [constructor|done].
  - pose proof (SPSCFacts.reachable_in_order moved_from C f HC Hf) as Hin.
    destruct (twin_step C a p f (Ok p') HC Htwin Hin Hstep)
      as (p'' & f' & [= <-] & Hfstep & Htwin').
    exists f'. split; [|done]. by apply (SPSC.reachable_step moved_from C f a).
Qed.

Lemma spsc_plain_exec_reachable (C : Z) (schedule : list SPSC.action) (s s' : state) :
  reachable C s → exec moved_from schedule s = Some s' → reachable C s'.
Proof.
  revert s. induction schedule as [|a rest IH]; intros s Hs; cbn.
  - by intros [= <-].
  - destruct (step a s) as [[s1|f]|] eqn:Hstep; try done.
    apply IH. by apply (reachable_step moved_from C s a).
Qed.

(** One thread calling [Push] and another calling [Pop] on a plain
    [RingBuffer] of capacity [C >= 1], their steps interleaved in any way:
    the values [Pop] has returned are, in order, the first of those whose
    [Push] returned true; at most [C - 1] pushed values wait to be popped;
    the value a [Pop] is about to return is the oldest one waiting; no step
    divides by zero or indexes [data_] out of range; and [data_] never grows
    beyond the [capacity_] elements reserved by the constructor. *)
Theorem spsc_plain_fifo (C : Z) (s : state) :
  1 ≤ C < U64.modulus → reachable C s →
  (∃ waiting, pushed s = popped s ++ waiting ∧ Z.of_nat (length waiting) ≤ C - 1) ∧
  (∀ val, consuming s = SPSC.CMoved val → pushed s !! length (popped s) = Some val) ∧
  (∀ a o, step a s = Some o → ∃ s', o = Ok s') ∧
  Z.of_nat (length (RingBuffer.data_ (buffer s))) ≤ C.
Proof.
  intros HC Hs. destruct (reachable_twin C s HC Hs) as (f & Hf & Htwin).
  pose proof (SPSCFacts.reachable_in_order moved_from C f HC Hf) as Hin.
  pose proof Htwin as (Hbuf & Hpr & Hco & Hpu & Hpo).
  rewrite <- Hpu, <- Hpo, <- Hco, <- Hbuf.
  destruct Hin as (Rc & Wc & _ & _ & _ & _ & _ & Hchain & Hpre & _ & Hcons & _ & Hlen).
  split; [|split; [|split]].
  - exists (drop (length (SPSC.popped f)) (SPSC.pushed f)). split.
    + rewrite Hpre at 1. by rewrite take_drop.
    + rewrite length_drop. lia.
  - intros val Hval. unfold SPSC.consumer_ok in Hcons. rewrite Hval in Hcons.
    apply Hcons.
  - intros a o Hstep.
    pose proof (SPSCFacts.reachable_in_order moved_from C f HC Hf) as Hin.
    destruct (twin_step C a s f o HC Htwin Hin Hstep) as (p' & _ & -> & _).
    by exists p'.
  - cbn. lia.
Qed.

End WithPayload.
End SPSCPlainFacts.

(** Case analysis on the thread a per-thread table was updated at. *)
Ltac fn_cases :=
  unfold insert, fn_insert in *;
  repeat match goal with
         | H : context [decide (?i = ?j)] |- _ => destruct (decide (i = j)); subst
         | |- context [decide (?i = ?j)] => destruct (decide (i = j)); subst
         end.

(** ** TTAS spinlock *)

Module TASFacts.
Import TASSpinLock.

(** While the flag is set, [try_lock] fails and leaves it set, whatever the
    platform does. *)
Lemma try_lock_held (spurious : bool) :
  try_lock spurious {| locked_ := true |} = (false, {| locked_ := true |}).
Proof. by destruct spurious. Qed.

(** On a free lock, an attempt that does not fail spuriously succeeds. *)
Lemma try_lock_unheld_genuine :
  try_lock false {| locked_ := false |} = (true, {| locked_ := true |}).
Proof. reflexivity. Qed.

(** [lock()] on a free lock returns as soon as one attempt is genuine, with
    the flag set. *)
Lemma lock_unheld (k : nat) (rest : list bool) :
  lock (replicate k true ++ false :: rest) new = Some {| locked_ := true |}.
Proof. induction k as [|k IH]; [reflexivity|exact IH]. Qed.

(** A successful [try_lock] leaves the lock as [lock()] does, so the
    following [unlock()] has the same effect. *)
Lemma try_lock_success_like_lock (spurious : bool) (l l1 l2 : t) (attempts : list bool) :
  try_lock spurious l = (true, l1) → lock attempts l = Some l2 →
  l1 = l2 ∧ unlock l1 = unlock l2.
Proof.
  destruct l as [[]], spurious; try discriminate.
  intros [= <-]. revert l2. induction attempts as [|[] rest IH]; intros l2; simpl.
  - discriminate.
  - apply IH.
  - by intros [= <-].
Qed.

(** C6 at the input where the code departs from it: on a free lock,
    [try_lock] returns false when its single weak compare-exchange fails
    spuriously, although [lock()] on the same lock, given the same first
    attempt, retries and acquires it. *)
Theorem try_lock_spurious_failure :
  try_lock true new = (false, new) ∧
  lock [true; false] new = Some {| locked_ := true |}.
Proof. split; reflexivity. Qed.

Lemma ttas_exclusive_init : exclusive init.
Proof. split; [split; [done|by intros [? ?]]|done]. Qed.

Lemma ttas_exclusive_step (i : nat) (a : action) (s s' : system) :
  exclusive s → step i a s = Some s' → exclusive s'.
Proof.
  destruct s as [[held] th]. unfold exclusive, step. cbn [flag threads locked_].
  intros [Hflag Huniq] Hstep.
  destruct a as [sp| |sp|], (th i) eqn:Hi; try discriminate;
    try (destruct sp); destruct held; cbn in Hstep; injection Hstep as <-;
    cbn [flag threads locked_ unlock].
  all: split; [split|].
  all: try (intros Hheld; try discriminate; destruct (proj1 Hflag Hheld) as [k Hk];
            exists k; fn_cases; congruence).
  all: try (intros [k Hk]; fn_cases;
            first [done | congruence | apply Hflag; eauto
                  | exfalso;
                    match goal with H : _ ≠ _ |- _ => apply H; by apply Huniq end]).
  all: try (intros j k Hj Hk; fn_cases;
            first [done | congruence | by apply Huniq
                  | exfalso;
                    assert (false = true) by (apply Hflag; eauto); discriminate]).
  all: try (intros _; exists i; fn_cases; congruence).
Qed.

Lemma ttas_reachable_exclusive (s : system) : reachable s → exclusive s.
Proof.
  induction 1 as [|s i a s' _ IH Hstep]; [apply ttas_exclusive_init|].
  by apply (ttas_exclusive_step i a s).
Qed.

(** Mutual exclusion of the TTAS spinlock, one step per atomic operation
    and any choice of spurious failures: in every reachable state at most
    one thread is between a successful [lock()] / [try_lock()] and its
    [unlock()], and the flag is set exactly when there is one. *)
Theorem ttas_mutual_exclusion (s : system) (i j : nat) :
  reachable s →
  (threads s i = Holding → threads s j = Holding → i = j) ∧
  (threads s i = Holding → locked_ (flag s) = true) ∧
  (locked_ (flag s) = true → ∃ k, threads s k = Holding).
Proof.
  intros Hs. destruct (ttas_reachable_exclusive s Hs) as [Hflag Huniq].
  split; [apply Huniq|]. split; [|apply Hflag].
  intros Hi. apply Hflag. by exists i.
Qed.

End TASFacts.

(** ** Futex calls *)

Module FutexFacts.
Import Futex.

(** For every [uint32_t] number of microseconds, the timeout [WaitTimed]
    hands to the kernel is a valid [timespec] (its nanoseconds are below
    [10^9], so the call is not refused), the 32-bit product that computes
    the nanoseconds does not wrap, and the timeout is exactly the duration
    asked for. *)
Theorem timeout_is_exact (old micros : Z) :
  U32.in_range micros →
  let ts := timeout (WaitTimed old micros) in
  0 ≤ tv_sec ts ≤ 4294 ∧ 0 ≤ tv_nsec ts < 1000000000 ∧
  tv_nsec ts = (micros mod 1000000) * 1000 ∧
  tv_sec ts * 1000000000 + tv_nsec ts = micros * 1000.
Proof.
  unfold U32.in_range, U32.modulus. intros Hm. cbn.
  pose proof (Z.mod_pos_bound micros 1000000 ltac:(lia)) as Hr.
  pose proof (Z.div_mod micros 1000000 ltac:(lia)) as Hdm.
  assert (Hq : 0 ≤ micros / 1000000 ≤ 4294).
  { split; [apply Z.div_pos; lia|].
    apply Z.lt_succ_r, Z.div_lt_upper_bound; lia. }
  assert (Hwrap : U32.wrap (micros mod 1000000 * 1000) = micros mod 1000000 * 1000).
  { unfold U32.wrap, U32.modulus. apply Z.mod_small. lia. }
  rewrite Hwrap. lia.
Qed.

End FutexFacts.

(** ** Futex mutex *)

Module MutexFacts.
Import Mutex.

Lemma wakes_app (xs ys : list futex_call) : wakes (xs ++ ys) = wakes xs ++ wakes ys.
Proof. apply List.filter_app. Qed.

(** [unlock] while no other thread takes a step.  When the state word is
    [LockedNoWaiters] the compare-exchange of [UnlockFastPath] succeeds,
    sets it to [Unlocked], and no system call is made.  Otherwise the
    compare-exchange fails, [Unlocked] is stored and one wake-all
    ([FUTEX_WAKE] with [INT32_MAX]) is issued. *)
Lemma unlock_alone (m : t) :
  let fast := (UnlockFastPath m).1 in
  let m' := (unlock m).2 in
  (lock_ m = State.LockedNoWaiters →
     fast = true ∧ m' = (UnlockFastPath m).2 ∧
     lock_ m' = State.Unlocked ∧ syscalls m' = syscalls m) ∧
  (lock_ m ≠ State.LockedNoWaiters →
     fast = false ∧ (UnlockFastPath m).2 = m ∧
     lock_ m' = State.Unlocked ∧
     syscalls m' = syscalls m ++ [FUTEX_WAKE INT32_MAX]) ∧
  lock_ m' = State.Unlocked ∧
  (wakes (syscalls m') ≠ wakes (syscalls m) ↔ fast = false).
Proof.
  destruct m as [w calls].
  unfold unlock, UnlockFastPath, CompareExchange, bind, ret, store, WakeAll,
    Atomic.compare_exchange_strong.
  cbn [lock_ syscalls].
  destruct (decide (w = State.LockedNoWaiters)) as [->|Hne]; cbn.
  - repeat split; try done.
  - rewrite wakes_app. cbn.
    repeat split; try done.
    intros _ Heq. apply (f_equal length) in Heq.
    rewrite length_app in Heq. cbn in Heq. lia.
Qed.

Lemma mutex_exclusive_init : exclusive init.
Proof.
  split; [by left|]. split; [|done].
  split; [done|by intros [? ?]].
Qed.

Lemma owns_woken (th : nat → status) (k : nat) : owns (woken th k) ↔ owns (th k).
Proof. unfold woken. by destruct (th k). Qed.

(** The wake: the threads asleep resume. *)
Lemma mutex_exclusive_wake (w : Z) (calls calls' : list futex_call)
    (th : nat → status) (i : nat) :
  th i = Waking →
  exclusive {| mutex := {| lock_ := w; syscalls := calls |}; threads := th |} →
  exclusive {| mutex := {| lock_ := w; syscalls := calls' |};
               threads := <[i := Idle]> (woken th) |}.
Proof.
  unfold exclusive. cbn [mutex threads lock_]. intros Hi (Hword & Hheld & Huniq).
  split; [done|]. split; [split|].
  - intros Hw. destruct (proj1 Hheld Hw) as [k Hk]. exists k.
    rewrite fn_lookup_insert_ne by (intros <-; by rewrite Hi in Hk).
    by apply owns_woken.
  - intros [k Hk]. apply Hheld. exists k.
    destruct (decide (i = k)) as [<-|Hne]; [by rewrite fn_lookup_insert in Hk|].
    rewrite fn_lookup_insert_ne in Hk by done. by apply (owns_woken th k).
  - intros j k Hj Hk.
    destruct (decide (i = j)) as [<-|Hnj]; [by rewrite fn_lookup_insert in Hj|].
    destruct (decide (i = k)) as [<-|Hnk]; [by rewrite fn_lookup_insert in Hk|].
    rewrite fn_lookup_insert_ne in Hj, Hk by done.
    apply Huniq; [by apply (owns_woken th j)|by apply (owns_woken th k)].
Qed.

Lemma mutex_exclusive_step (i : nat) (a : action) (s s' : system) :
  exclusive s → step i a s = Some s' → exclusive s'.
Proof.
  destruct s as [[w calls] th]. intros Hexcl.
  pose proof Hexcl as (Hword & Hheld & Huniq). revert Hword Hheld Huniq.
  unfold exclusive, step. cbn [mutex threads lock_].
  intros Hword Hheld Huniq Hstep.
  assert (Hfree : w = State.Unlocked → ∀ k, ¬ owns (th k)).
  { intros -> k Hk. apply Hheld; [by exists k|done]. }
  assert (Hbusy : ∀ k, owns (th k) → w ≠ State.Unlocked).
  { intros k Hk. apply Hheld. by exists k. }
  unfold FastPathLock, SlowPathLock_announce, UnlockFastPath, CompareExchange,
    Wait, store, WakeAll, Atomic.compare_exchange_strong in Hstep.
  cbn [lock_ syscalls] in Hstep.
  destruct a, (th i) eqn:Hi; try discriminate;
    try (injection Hstep as <-; exact (mutex_exclusive_wake _ _ _ _ _ Hi Hexcl));
    repeat case_decide; repeat case_bool_decide;
    injection Hstep as <-; cbn [mutex threads lock_]; subst.
  all: try (exfalso; (apply (Hbusy i); [by rewrite Hi|done])).
  all: split; [unfold State.Unlocked, State.LockedNoWaiters, State.LockedHasWaiters;
               first [by left | by right; left | by right; right | done]|].
  all: split; [split|].
  all: try (intros Hw;
            first [ done
                  | by exists i; fn_cases
                  | assert (∃ k, owns (th k)) as [k Hk] by (by apply Hheld);
                    exists k; fn_cases; first [done | by rewrite Hi in Hk] ]).
  all: try (intros [k Hk]; fn_cases;
            first [ done
                  | by eapply Hbusy
                  | match goal with
                    | H : _ ?x = _ :> status |- _ => apply (Hbusy x); by rewrite H
                    end
                  | exfalso;
                    match goal with
                    | H : _ ≠ _ |- _ => apply H; apply Huniq; by rewrite ?Hi
                    end ]).
  all: try (intros j k Hj Hk; fn_cases;
            first [ done
                  | by apply Huniq
                  | by rewrite Hi in *
                  | exfalso; by eapply Hfree
                  | exfalso;
                    match goal with
                    | H : _ ≠ _ |- _ => apply H; apply Huniq; by rewrite ?Hi
                    end ]).
Qed.

Lemma mutex_reachable_exclusive (s : system) : reachable s → exclusive s.
Proof.
  induction 1 as [|s i a s' _ IH Hstep]; [apply mutex_exclusive_init|].
  by apply (mutex_exclusive_step i a s).
Qed.

(** A step of another thread leaves a thread where it is, unless it sleeps
    and the step is a wake. *)
Lemma mutex_other_step_status (s s' : system) (i j : nat) (a : action) :
  step j a s = Some s' → j ≠ i → threads s i ≠ Asleep →
  threads s' i = threads s i.
Proof.
  destruct s as [[w calls] th]. unfold step. cbn.
  unfold FastPathLock, SlowPathLock_announce, UnlockFastPath, CompareExchange,
    Wait, store, WakeAll, Atomic.compare_exchange_strong.
  cbn. intros Hstep Hne Hawake.
  destruct a, (th j); try discriminate;
    repeat case_decide; repeat case_bool_decide; simplify_eq; cbn;
    rewrite ?fn_lookup_insert_ne by done; try done.
  unfold woken. by destruct (th i).
Qed.

Lemma mutex_others_run_status (i : nat) (s s' : system) :
  others_run i s s' → threads s i ≠ Asleep → threads s' i = threads s i.
Proof.
  induction 1 as [|s j a s1 s2 Hne Hstep _ IH]; [done|]. intros Hawake.
  pose proof (mutex_other_step_status s s1 i j a Hstep Hne Hawake) as Hsame.
  rewrite IH; [done|]. by rewrite Hsame.
Qed.

Lemma mutex_others_run_reachable (i : nat) (s s' : system) :
  others_run i s s' → reachable s → reachable s'.
Proof.
  induction 1 as [|s j a s1 s2 _ Hstep _ IH]; [done|].
  intros Hs. apply IH. by apply (reachable_step s j a).
Qed.

(** C8 (as amended). [unlock] by the thread that holds the mutex, the other
    threads taking any steps between its operations.  When the state word
    is [LockedNoWaiters] the compare-exchange of [UnlockFastPath] sets it to
    [Unlocked] and [unlock] returns; the call makes no system call.
    Otherwise the word is [LockedHasWaiters], the compare-exchange fails and
    changes nothing; the next operation stores [Unlocked], and the last one
    issues one wake-all ([FUTEX_WAKE] with [INT32_MAX]), with which
    [unlock] returns.  The wake leaves the word as the other threads have
    set it since the store: on return it is [Unlocked] exactly when no
    thread owns the mutex then. *)
Theorem unlock_paths (s : system) (i : nat) :
  reachable s → threads s i = Holding →
  ∃ s1, step i CallUnlock s = Some s1 ∧
    (lock_ (mutex s) = State.LockedNoWaiters →
       threads s1 i = Idle ∧ lock_ (mutex s1) = State.Unlocked ∧
       syscalls (mutex s1) = syscalls (mutex s)) ∧
    (lock_ (mutex s) ≠ State.LockedNoWaiters →
       lock_ (mutex s) = State.LockedHasWaiters ∧
       threads s1 i = Releasing ∧ mutex s1 = mutex s ∧
       ∀ s2, others_run i s1 s2 →
       ∃ s3, step i Advance s2 = Some s3 ∧
         threads s3 i = Waking ∧ lock_ (mutex s3) = State.Unlocked ∧
         syscalls (mutex s3) = syscalls (mutex s2) ∧
         ∀ s4, others_run i s3 s4 →
         ∃ s5, step i Advance s4 = Some s5 ∧
           threads s5 i = Idle ∧ lock_ (mutex s5) = lock_ (mutex s4) ∧
           syscalls (mutex s5) = syscalls (mutex s4) ++ [FUTEX_WAKE INT32_MAX] ∧
           (lock_ (mutex s5) = State.Unlocked ↔ ∀ j, ¬ owns (threads s5 j))).
Proof.
  intros Hs Hi. pose proof (mutex_reachable_exclusive s Hs) as (Hword & Hheld & _).
  assert (Hlocked : lock_ (mutex s) ≠ State.Unlocked).
  { apply Hheld. exists i. by rewrite Hi. }
  destruct (step i CallUnlock s) as [s1|] eqn:Hstep1; last first.
  { unfold step in Hstep1. rewrite Hi in Hstep1.
    by destruct (UnlockFastPath (mutex s)). }
  exists s1. split; [done|].
  pose proof (reachable_step s i CallUnlock s1 Hs Hstep1) as Hs1.
  destruct s as [[w calls] th]. cbn [mutex threads lock_ syscalls] in *.
  unfold step, UnlockFastPath, CompareExchange, Atomic.compare_exchange_strong
    in Hstep1.
  cbn [mutex threads lock_ syscalls] in Hstep1. rewrite Hi in Hstep1.
  split.
  - intros ->. rewrite decide_True in Hstep1 by done.
    injection Hstep1 as <-. cbn. by rewrite fn_lookup_insert.
  - intros Hslow. rewrite decide_False in Hstep1 by done.
    injection Hstep1 as <-. cbn [mutex threads lock_ syscalls] in *.
    split; [by destruct Hword as [|[|]]|].
    split; [by rewrite fn_lookup_insert|]. split; [done|].
    intros s2 Hrun2.
    pose proof (mutex_others_run_reachable i _ s2 Hrun2 Hs1) as Hs2.
    assert (Hth2 : threads s2 i = Releasing).
    { rewrite (mutex_others_run_status i _ s2 Hrun2); cbn;
        by rewrite fn_lookup_insert. }
    assert (Hstep3 : step i Advance s2 =
              Some {| mutex := {| lock_ := State.Unlocked;
                                  syscalls := syscalls (mutex s2) |};
                      threads := <[i := Waking]> (threads s2) |}).
    { unfold step. by rewrite Hth2. }
    eexists. split; [exact Hstep3|].
    pose proof (reachable_step s2 i Advance _ Hs2 Hstep3) as Hs3.
    cbn [mutex threads lock_ syscalls].
    split; [by rewrite fn_lookup_insert|]. split; [done|]. split; [done|].
    intros s4 Hrun4.
    pose proof (mutex_others_run_reachable i _ s4 Hrun4 Hs3) as Hs4.
    assert (Hth4 : threads s4 i = Waking).
    { rewrite (mutex_others_run_status i _ s4 Hrun4); cbn;
        by rewrite fn_lookup_insert. }
    assert (Hstep5 : step i Advance s4 =
              Some {| mutex := {| lock_ := lock_ (mutex s4);
                                  syscalls := syscalls (mutex s4) ++
                                              [FUTEX_WAKE INT32_MAX] |};
                      threads := <[i := Idle]> (woken (threads s4)) |}).
    { unfold step. by rewrite Hth4. }
    eexists. split; [exact Hstep5|].
    pose proof (reachable_step s4 i Advance _ Hs4 Hstep5) as Hs5.
    pose proof (mutex_reachable_exclusive _ Hs5) as (_ & Hheld5 & _).
    cbn [mutex threads lock_ syscalls] in *.
    split; [by rewrite fn_lookup_insert|]. split; [done|]. split; [done|].
    split.
    + intros Hfree j Hj. apply Hheld5; [|done]. by exists j.
    + intros Hnone. destruct (decide (lock_ (mutex s4) = State.Unlocked)) as [|Hne];
        [done|]. apply Hheld5 in Hne as [j Hj]. by destruct (Hnone j).
Qed.

(** Thread [k] keeps what it has when thread [i] moves on. *)
Ltac other_thread k i Hi Hk :=
  exists k; destruct (decide (k = i)) as [->|];
  [rewrite Hi in Hk; rewrite fn_lookup_insert; done
  |rewrite fn_lookup_insert_ne by done; done].

Lemma mutex_covered_step (i : nat) (a : action) (s s' : system) :
  exclusive s → sleepers_covered s → step i a s = Some s' → sleepers_covered s'.
Proof.
  destruct s as [[w calls] th]. intros (Hword & Hheld & Huniq) Hcov.
  unfold sleepers_covered, wake_pending, step in *. cbn [mutex threads lock_] in *.
  unfold FastPathLock, SlowPathLock_announce, UnlockFastPath, CompareExchange,
    Wait, store, WakeAll, Atomic.compare_exchange_strong.
  cbn [lock_ syscalls].
  destruct a, (th i) eqn:Hi; try discriminate;
    repeat case_decide; repeat case_bool_decide;
    intros [= <-]; cbn [mutex threads lock_]; subst; intros [j Hj].
  all: destruct (decide (j = i)) as [->|Hne];
    [rewrite fn_lookup_insert in Hj; try discriminate
    |rewrite fn_lookup_insert_ne in Hj by done].
  (* the wake leaves nobody asleep *)
  all: try (unfold woken in Hj; destruct (th j); discriminate).
  (* a thread falls asleep: the word it saw is that of an owned mutex *)
  all: try (destruct (proj1 Hheld ltac:(done)) as [k Hk];
            left; split; [done|]; other_thread k i Hi Hk).
  (* a thread was asleep before the step *)
  all: destruct (Hcov (ex_intro _ j Hj)) as [[Hw2 [k Hk]]|[k Hk]]; try done.
  all: try (left; split; [done|]; other_thread k i Hi Hk).
  all: try (right; other_thread k i Hi Hk).
  all: try (right; exists i; by rewrite fn_lookup_insert).
  all: try (exfalso; assert (k = i) as -> by (apply Huniq; [done|by rewrite Hi]);
            by rewrite Hi in Hk).
Qed.

Lemma mutex_reachable_covered (s : system) :
  reachable s → exclusive s ∧ sleepers_covered s.
Proof.
  induction 1 as [|s i a s' _ [IHe IHc] Hstep].
  - split; [apply mutex_exclusive_init|]. by intros [? ?].
  - split; [by apply (mutex_exclusive_step i a s)|by apply (mutex_covered_step i a s)].
Qed.

(** Mutual exclusion of the futex mutex, one step per atomic operation or
    system call: in every reachable state at most one thread is between the
    return of [lock()] and the store of [Unlocked] by its [unlock()], and
    the word differs from [Unlocked] exactly when there is one. *)
Theorem mutex_mutual_exclusion (s : system) (i j : nat) :
  reachable s →
  (owns (threads s i) → owns (threads s j) → i = j) ∧
  (owns (threads s i) → lock_ (mutex s) ≠ State.Unlocked) ∧
  (lock_ (mutex s) ≠ State.Unlocked → ∃ k, owns (threads s k)).
Proof.
  intros Hs. destruct (mutex_reachable_exclusive s Hs) as (_ & Hheld & Huniq).
  split; [apply Huniq|]. split; [|apply Hheld].
  intros Hi. apply Hheld. by exists i.
Qed.

(** No wake-up is lost.  In every reachable state in which a thread
    sleeps in [Wait]: either the mutex is owned and its word is
    [LockedHasWaiters], or a thread is between the store and the wake of
    its [unlock()]; in the first case the [unlock()] of the holder fails its
    fast path and goes on to the store and the wake; and the wake, when it
    is made, resumes the sleeping thread. *)
Theorem mutex_no_lost_wakeup (s : system) (i : nat) :
  reachable s → threads s i = Asleep →
  wake_pending s ∧
  (∀ k, threads s k = Holding → lock_ (mutex s) = State.LockedHasWaiters →
        ∃ s1, step k CallUnlock s = Some s1 ∧ threads s1 k = Releasing ∧
              threads s1 i = Asleep) ∧
  (∀ k, threads s k = Waking →
        ∃ s1, step k Advance s = Some s1 ∧ threads s1 i = Resumed ∧
              syscalls (mutex s1) = syscalls (mutex s) ++ [FUTEX_WAKE INT32_MAX]).
Proof.
  intros Hs Hi. destruct (mutex_reachable_covered s Hs) as [_ Hcov].
  split; [apply Hcov; by exists i|]. split.
  - intros k Hk Hw. destruct s as [[w calls] th]. cbn in *. subst w.
    eexists. unfold step. cbn. rewrite Hk.
    unfold UnlockFastPath, CompareExchange, Atomic.compare_exchange_strong. cbn.
    rewrite decide_False by done. split; [done|]. cbn.
    split; [by rewrite fn_lookup_insert|].
    rewrite fn_lookup_insert_ne; [done|]. intros <-. congruence.
  - intros k Hk. destruct s as [[w calls] th]. cbn in *.
    eexists. unfold step. cbn. rewrite Hk. split; [done|]. cbn. split; [|done].
    rewrite fn_lookup_insert_ne by (intros <-; congruence).
    unfold woken. by rewrite Hi.
Qed.

End MutexFacts.

(** ** Ticket lock *)

Module TicketFacts.
Import TicketLock.

Lemma consistent_init : tickets_consistent 0 init.
Proof.
  unfold tickets_consistent, init; cbn.
  repeat split; try done; try lia; intros; lia.
Qed.

Lemma consistent_weaken (n : nat) (s : system) :
  tickets_consistent n s → tickets_consistent (S n) s.
Proof.
  unfold tickets_consistent. intros (?&?&?&?).
  split; [done|]. split; [done|]. split; [lia|done].
Qed.

(** Closes the routine cases: a hypothesis about the stepping thread's old
    status, the range of a drawn ticket, or uniqueness of tickets. *)
Ltac ticket_facts Hrange Hhold Htry :=
  repeat match goal with
         | H : drawn_ticket (threads ?s ?j) = Some ?t |- _ =>
             lazymatch goal with
             | _ : owner_ticket_ (lock s) ≤ t < next_free_ticket_ (lock s) |- _ => fail
             | _ => pose proof (Hrange j t H)
             end
         | H : threads ?s ?j = TryLoaded ?c |- _ =>
             lazymatch goal with
             | _ : 0 ≤ c ≤ owner_ticket_ (lock s) |- _ => fail
             | _ => pose proof (Htry j c H)
             end
         | H : threads ?s ?j = Holding ?t |- _ =>
             lazymatch goal with
             | _ : t = owner_ticket_ (lock s) |- _ => fail
             | _ => pose proof (Hhold j t H)
             end
         end.

Ltac ticket_case Hrange Huniq Hhold Htry :=
  ticket_facts Hrange Hhold Htry;
  simplify_eq/=; try done;
  repeat match goal with
         | H : threads ?s ?j = _, H' : context [threads ?s ?j] |- _ =>
             rewrite H in H'; simplify_eq/=
         end;
  try done;
  ticket_facts Hrange Hhold Htry;
  first [ lia | congruence | by eauto | f_equal; lia | exfalso; lia | idtac ].

(** Every atomic operation preserves the invariant as long as fewer than
    [2^64] operations have been made. *)
Lemma consistent_step (n : nat) (s s' : system) (i : nat) (a : action) :
  Z.of_nat (S n) < U64.modulus →
  tickets_consistent n s → step i a s = Some s' → tickets_consistent (S n) s'.
Proof.
  intros Hn Hinv Hstep.
  pose proof Hinv as (Ho & Hon & Hnn & Hrange & Huniq & Hhold & Htry & Hsurj).
  unfold step in Hstep.
  destruct a, (threads s i) as [|tk|cur|tk] eqn:Hi; try discriminate.
  - (* CallLock: the fetch_add hands out ticket [next] *)
    injection Hstep as <-.
    unfold tickets_consistent; cbn.
    rewrite U64Facts.add_small by (unfold U64.in_range; lia).
    split; [lia|]. split; [lia|]. split; [lia|].
    split; [|split; [|split; [|split]]].
    + intros j t Hj. fn_cases; ticket_case Hrange Huniq Hhold Htry.
    + intros j k t Hj Hk. fn_cases; ticket_case Hrange Huniq Hhold Htry.
    + intros j t Hj. fn_cases; ticket_case Hrange Huniq Hhold Htry.
    + intros j c Hj. fn_cases; ticket_case Hrange Huniq Hhold Htry.
    + intros t Ht.
      destruct (decide (t = next_free_ticket_ (lock s))) as [->|Hne].
      * exists i. fn_cases; done.
      * destruct (Hsurj t) as [j Hj]; [lia|].
        exists j. fn_cases; ticket_case Hrange Huniq Hhold Htry.
  - (* SpinOnce *)
    unfold lock_must_spin in Hstep. case_bool_decide as Hspin.
    + injection Hstep as <-. by apply consistent_weaken.
    + injection Hstep as <-.
      assert (tk = owner_ticket_ (lock s)) as Htk
        by (destruct (decide (tk = owner_ticket_ (lock s))); [done|by destruct Hspin]).
      assert (Hmine : drawn_ticket (threads s i) = Some tk) by (by rewrite Hi).
      unfold tickets_consistent; cbn.
      split; [lia|]. split; [lia|]. split; [lia|].
      split; [|split; [|split; [|split]]].
      * intros j t Hj. fn_cases; ticket_case Hrange Huniq Hhold Htry.
      * intros j k t Hj Hk.
        apply (Huniq j k t); fn_cases; simplify_eq/=; rewrite ?Hi; done.
      * intros j t Hj. fn_cases; ticket_case Hrange Huniq Hhold Htry.
      * intros j c Hj. fn_cases; ticket_case Hrange Huniq Hhold Htry.
      * intros t Ht. destruct (Hsurj t Ht) as [j Hj].
        exists j. fn_cases; ticket_case Hrange Huniq Hhold Htry.
  - (* CallTryLock: the load of [owner_ticket_] *)
    injection Hstep as <-.
    unfold tickets_consistent, try_lock_load; cbn.
    split; [lia|]. split; [lia|]. split; [lia|].
    split; [|split; [|split; [|split]]].
    + intros j t Hj. fn_cases; ticket_case Hrange Huniq Hhold Htry.
    + intros j k t Hj Hk. fn_cases; ticket_case Hrange Huniq Hhold Htry.
    + intros j t Hj. fn_cases; ticket_case Hrange Huniq Hhold Htry.
    + intros j c Hj. fn_cases; ticket_case Hrange Huniq Hhold Htry.
    + intros t Ht. destruct (Hsurj t Ht) as [j Hj].
      exists j. fn_cases; ticket_case Hrange Huniq Hhold Htry.
  - (* TryLockCas *)
    pose proof (Htry i cur Hi) as Hcur.
    unfold try_lock_cas, Atomic.compare_exchange_strong in Hstep.
    destruct (decide (next_free_ticket_ (lock s) = cur)) as [Heq|Hne];
      injection Hstep as <-.
    + (* success: [next = cur <= owner <= next], nobody has a ticket *)
      assert (Hown : owner_ticket_ (lock s) = cur) by lia.
      unfold tickets_consistent; cbn.
      rewrite U64Facts.add_small by (unfold U64.in_range; lia).
      split; [lia|]. split; [lia|]. split; [lia|].
      split; [|split; [|split; [|split]]].
      * intros j t Hj. fn_cases; ticket_case Hrange Huniq Hhold Htry.
      * intros j k t Hj Hk. fn_cases; ticket_case Hrange Huniq Hhold Htry.
      * intros j t Hj. fn_cases; ticket_case Hrange Huniq Hhold Htry.
      * intros j c Hj. fn_cases; ticket_case Hrange Huniq Hhold Htry.
      * intros t Ht. exists i. fn_cases; ticket_case Hrange Huniq Hhold Htry.
    + unfold tickets_consistent; cbn.
      split; [lia|]. split; [lia|]. split; [lia|].
      split; [|split; [|split; [|split]]].
      * intros j t Hj. fn_cases; ticket_case Hrange Huniq Hhold Htry.
      * intros j k t Hj Hk. fn_cases; ticket_case Hrange Huniq Hhold Htry.
      * intros j t Hj. fn_cases; ticket_case Hrange Huniq Hhold Htry.
      * intros j c Hj. fn_cases; ticket_case Hrange Huniq Hhold Htry.
      * intros t Ht. destruct (Hsurj t Ht) as [j Hj].
        exists j. fn_cases; ticket_case Hrange Huniq Hhold Htry.
  - (* CallUnlock: the holder has ticket [owner]; [owner] moves on *)
    injection Hstep as <-.
    pose proof (Hhold i tk Hi) as ->.
    assert (Hmine : drawn_ticket (threads s i) = Some (owner_ticket_ (lock s)))
      by (by rewrite Hi).
    pose proof (Hrange i _ Hmine) as Hlt.
    unfold tickets_consistent, unlock; cbn.
    rewrite U64Facts.add_small by (unfold U64.in_range; lia).
    split; [lia|]. split; [lia|]. split; [lia|].
    split; [|split; [|split; [|split]]].
    + intros j t Hj. fn_cases; [done|].
      pose proof (Hrange j t Hj).
      destruct (decide (t = owner_ticket_ (lock s))) as [->|]; [|lia].
      by destruct (n0 (Huniq i j _ Hmine Hj)).
    + intros j k t Hj Hk. fn_cases; ticket_case Hrange Huniq Hhold Htry.
    + intros j t Hj. fn_cases; [done|].
      pose proof (Hhold j t Hj) as ->.
      destruct n0. apply (Huniq i j (owner_ticket_ (lock s))); [done|by rewrite Hj].
    + intros j c Hj. fn_cases; ticket_case Hrange Huniq Hhold Htry.
    + intros t Ht. destruct (Hsurj t) as [j Hj]; [lia|].
      exists j. fn_cases; [|done]. rewrite Hmine in Hj. injection Hj as <-. lia.
Qed.

Lemma reachable_consistent (n : nat) (s : system) :
  reachable_in n s → Z.of_nat n < U64.modulus → tickets_consistent n s.
Proof.
  induction 1 as [|n s i a s' Hreach IH Hstep]; intros Hn.
  - apply consistent_init.
  - apply (consistent_step n s s' i a); [done| |done]. apply IH. lia.
Qed.

Lemma ticket_exec_reachable (schedule : list (nat * action)) (n : nat) (s s' : system) :
  reachable_in n s → exec schedule s = Some s' →
  reachable_in (length schedule + n) s'.
Proof.
  revert n s. induction schedule as [|[i a] rest IH]; intros n s Hs; simpl.
  - by intros [= <-].
  - destruct (step i a s) as [s1|] eqn:Hstep; [|done]. cbn.
    intros Hexec.
    replace (S (length rest + n)) with (length rest + S n)%nat by lia.
    apply (IH (S n) s1); [|done]. by apply (reachable_step n s i a).
Qed.

(** *** What each enabled step does *)

Lemma step_CallLock (s : system) (i : nat) :
  threads s i = Idle →
  step i CallLock s =
    Some {| lock := {| next_free_ticket_ := U64.add (next_free_ticket_ (lock s)) 1;
                       owner_ticket_ := owner_ticket_ (lock s) |};
            threads := <[i := Spinning (next_free_ticket_ (lock s))]> (threads s) |}.
Proof. intros Hi. unfold step. by rewrite Hi. Qed.

Lemma step_SpinOnce_granted (s : system) (i : nat) :
  threads s i = Spinning (owner_ticket_ (lock s)) →
  step i SpinOnce s =
    Some {| lock := lock s;
            threads := <[i := Holding (owner_ticket_ (lock s))]> (threads s) |}.
Proof.
  intros Hi. unfold step, lock_must_spin. rewrite Hi.
  by rewrite bool_decide_false by (intros Hne; by apply Hne).
Qed.

Lemma step_CallUnlock (s : system) (i : nat) (ticket : Z) :
  threads s i = Holding ticket →
  step i CallUnlock s =
    Some {| lock := {| next_free_ticket_ := next_free_ticket_ (lock s);
                       owner_ticket_ := U64.add (owner_ticket_ (lock s)) 1 |};
            threads := <[i := Idle]> (threads s) |}.
Proof. intros Hi. unfold step. by rewrite Hi. Qed.

(** The compare-exchange of [try_lock], on any values of the counters. *)
Lemma try_lock_cas_spec (cur : Z) (l : t) :
  ((try_lock_cas cur l).1 = true ↔ next_free_ticket_ l = cur) ∧
  ((try_lock_cas cur l).1 = true →
     next_free_ticket_ (try_lock_cas cur l).2 = U64.add (next_free_ticket_ l) 1 ∧
     owner_ticket_ (try_lock_cas cur l).2 = owner_ticket_ l) ∧
  ((try_lock_cas cur l).1 = false → (try_lock_cas cur l).2 = l).
Proof.
  unfold try_lock_cas, Atomic.compare_exchange_strong.
  destruct l as [next owner]; cbn.
  destruct (decide (next = cur)) as [->|Hne]; cbn; repeat split; try done.
Qed.

(** Steps of other threads leave a thread where it is. *)
Lemma ticket_other_step_status (s s' : system) (i j : nat) (a : action) :
  step j a s = Some s' → j ≠ i → threads s' i = threads s i.
Proof.
  destruct s as [[next owner] th].
  unfold step, try_lock_cas, lock_must_spin, Atomic.compare_exchange_strong. cbn.
  intros Hstep Hne.
  destruct a, (th j); try discriminate; cbn in Hstep;
    repeat case_decide; repeat case_bool_decide; simplify_eq; cbn;
    by rewrite ?fn_lookup_insert_ne.
Qed.

Lemma ticket_others_run_status (i m : nat) (s s' : system) :
  others_run i m s s' → threads s' i = threads s i.
Proof.
  induction 1 as [|m s j a s1 s2 Hne Hstep _ IH]; [done|].
  rewrite IH. by apply (ticket_other_step_status s s1 i j a).
Qed.

Lemma ticket_others_run_reachable (i m n : nat) (s s' : system) :
  others_run i m s s' → reachable_in n s → reachable_in (m + n) s'.
Proof.
  intros Hrun. revert n.
  induction Hrun as [|m s j a s1 s2 _ Hstep _ IH]; intros n Hs; [done|].
  replace (S m + n)%nat with (m + S n)%nat by lia.
  apply IH. by apply (reachable_step n s j a).
Qed.

(** C5 (as amended). A call of [try_lock] by a thread in no call: its load
    of [owner_ticket_], any number of steps of other threads, then its
    compare-exchange, with which the call returns.  The call succeeds
    exactly when, at the compare-exchange, [next_free_ticket_] equals the
    value loaded.  On success the caller holds the lock with the loaded
    ticket, [next_free_ticket_] has grown by exactly 1 (in [uint64_t]
    arithmetic, hence by 1 as a number unless it was [2^64 - 1]) and
    [owner_ticket_] is untouched; on failure the call has changed neither
    counter.  While no counter has wrapped (the first [2^64] steps), success
    means that the loaded value is still current and that the lock is unheld
    with nobody queued; conversely an unheld lock with nobody queued makes
    the call succeed when the loaded value is still current. *)
Theorem try_lock_succeeds_iff (n : nat) (s0 : system) (i : nat) :
  reachable_in n s0 → threads s0 i = Idle →
  let loaded := owner_ticket_ (lock s0) in
  ∃ s1, step i CallTryLock s0 = Some s1 ∧ lock s1 = lock s0 ∧
  ∀ m s2, others_run i m s1 s2 →
  let next := next_free_ticket_ (lock s2) in
  ∃ s3, step i TryLockCas s2 = Some s3 ∧
    (holds s3 i ↔ next = loaded) ∧
    (holds s3 i →
       threads s3 i = Holding loaded ∧
       next_free_ticket_ (lock s3) = U64.add next 1 ∧
       (U64.in_range (next + 1) → next_free_ticket_ (lock s3) = next + 1) ∧
       owner_ticket_ (lock s3) = owner_ticket_ (lock s2)) ∧
    (¬ holds s3 i → threads s3 i = Idle ∧ lock s3 = lock s2) ∧
    (Z.of_nat (n + m + 2) < U64.modulus →
       (holds s3 i →
          owner_ticket_ (lock s2) = loaded ∧ unheld_and_no_waiter s2) ∧
       (owner_ticket_ (lock s2) = loaded → unheld_and_no_waiter s2 →
          holds s3 i)).
Proof.
  intros Hreach Hidle loaded.
  assert (Hload : step i CallTryLock s0 =
            Some {| lock := lock s0;
                    threads := <[i := TryLoaded loaded]> (threads s0) |}).
  { unfold step. by rewrite Hidle. }
  eexists. split; [exact Hload|]. split; [done|].
  intros m s2 Hrun next.
  assert (Hth : threads s2 i = TryLoaded loaded).
  { rewrite (ticket_others_run_status i m _ s2 Hrun). cbn.
    by rewrite fn_lookup_insert. }
  assert (Hr2 : reachable_in (m + S n) s2).
  { apply (ticket_others_run_reachable i m (S n) _ s2 Hrun).
    by apply (reachable_step n s0 i CallTryLock). }
  destruct (try_lock_cas_spec loaded (lock s2)) as (Hiff & Hsucc & Hfail).
  destruct (try_lock_cas loaded (lock s2)) as [ok l'] eqn:Hcas.
  cbn [fst snd] in Hiff, Hsucc, Hfail.
  exists {| lock := l';
            threads := <[i := if ok then Holding loaded else Idle]> (threads s2) |}.
  split. { unfold step. by rewrite Hth, Hcas. }
  assert (Hholds : holds {| lock := l';
                            threads := <[i := if ok then Holding loaded else Idle]>
                                         (threads s2) |} i ↔ ok = true).
  { unfold holds. cbn. rewrite fn_lookup_insert.
    destruct ok; split; try done; [by eexists|by intros [? ?]]. }
  rewrite Hholds. cbn [lock threads]. rewrite fn_lookup_insert.
  split; [done|]. split; [|split].
  - intros ->. destruct (Hsucc eq_refl) as [Hnext Howner].
    split; [done|]. split; [done|]. split; [|done].
    intros Hrange. rewrite Hnext. by apply U64Facts.add_small.
  - intros Hno. destruct ok; [done|]. split; [done|]. by apply Hfail.
  - intros Hn.
    destruct (reachable_consistent (m + S n) s2 Hr2 ltac:(lia))
      as (Ho & Hon & Hnn & Hrange & Huniq & Hhold & Htry & Hsurj).
    pose proof (Htry i loaded Hth) as Hcur.
    split.
    + intros Hok. apply Hiff in Hok. fold next in Hok. split; [lia|].
      intros j. destruct (drawn_ticket (threads s2 j)) as [t|] eqn:Hj; [|done].
      apply Hrange in Hj. lia.
    + intros Hfresh Hfree. apply Hiff.
      destruct (decide (owner_ticket_ (lock s2) = next_free_ticket_ (lock s2)))
        as [|Hne]; [congruence|].
      destruct (Hsurj (owner_ticket_ (lock s2))) as [j Hj]; [lia|].
      by rewrite Hfree in Hj.
Qed.

(** C7 (as amended). In every state reached in fewer than [2^64] atomic
    steps of [lock], [try_lock] and [unlock] (each [unlock] by a thread that
    holds the lock): [owner_ticket_ <= next_free_ticket_]; a thread that
    holds the lock has drawn the ticket equal to [owner_ticket_]; a thread
    whose drawn ticket equals [owner_ticket_] holds the lock or is in the
    loop of [lock()] and leaves it at its next evaluation of the loop
    condition; and no two threads have that ticket. *)
Theorem ticket_invariant (n : nat) (s : system) :
  reachable_in n s → Z.of_nat n < U64.modulus →
  owner_ticket_ (lock s) ≤ next_free_ticket_ (lock s) ∧
  (∀ i, holds s i → drawn_ticket (threads s i) = Some (owner_ticket_ (lock s))) ∧
  (∀ i, drawn_ticket (threads s i) = Some (owner_ticket_ (lock s)) →
        holds s i ∨ ∃ s', step i SpinOnce s = Some s' ∧ holds s' i) ∧
  (∀ i j, drawn_ticket (threads s i) = Some (owner_ticket_ (lock s)) →
          drawn_ticket (threads s j) = Some (owner_ticket_ (lock s)) → i = j).
Proof.
  intros Hreach Hn.
  destruct (reachable_consistent n s Hreach Hn)
    as (Ho & Hon & Hnn & Hrange & Huniq & Hhold & Htry & Hsurj).
  split; [done|]. split; [|split].
  - intros i [t Ht]. rewrite Ht. cbn. f_equal. by apply (Hhold i).
  - intros i Hi. destruct (threads s i) as [|t|c|t] eqn:Hst; try discriminate.
    + right. injection Hi as ->.
      eexists. split; [by apply step_SpinOnce_granted|].
      eexists. cbn. by rewrite fn_lookup_insert.
    + left. by exists t.
  - intros i j Hi Hj. by apply (Huniq i j _ Hi Hj).
Qed.

(** Mutual exclusion and FIFO order, while no counter has wrapped: at most
    one thread holds the lock, and the holder's ticket is the smallest of
    the tickets drawn and not yet released, so that threads are served in
    the order of their fetch_add. *)
Theorem ticket_mutual_exclusion_fifo (n : nat) (s : system) (i j : nat) (ti tj : Z) :
  reachable_in n s → Z.of_nat n < U64.modulus →
  threads s i = Holding ti →
  (threads s j = Holding tj → i = j) ∧
  (threads s j = Spinning tj → ti < tj).
Proof.
  intros Hreach Hn Hi.
  destruct (reachable_consistent n s Hreach Hn)
    as (Ho & Hon & Hnn & Hrange & Huniq & Hhold & Htry & Hsurj).
  pose proof (Hhold i ti Hi) as ->.
  split.
  - intros Hj. pose proof (Hhold j tj Hj) as ->.
    apply (Huniq i j (owner_ticket_ (lock s))); [by rewrite Hi|by rewrite Hj].
  - intros Hj.
    assert (Hdj : drawn_ticket (threads s j) = Some tj) by (by rewrite Hj).
    pose proof (Hrange j tj Hdj) as Hr.
    destruct (decide (tj = owner_ticket_ (lock s))) as [->|]; [|lia].
    assert (i = j) as -> by (apply (Huniq i j (owner_ticket_ (lock s)));
                             [by rewrite Hi|done]).
    congruence.
Qed.

(** The ticket lock is never stuck, while no counter has wrapped: when
    [next_free_ticket_] equals [owner_ticket_] no thread holds the lock or
    waits for it; otherwise the thread whose ticket is [owner_ticket_]
    exists, and it holds the lock or leaves the loop of [lock()] at its next
    read of [owner_ticket_]. *)
Theorem ticket_lock_passes_on (n : nat) (s : system) :
  reachable_in n s → Z.of_nat n < U64.modulus →
  (next_free_ticket_ (lock s) = owner_ticket_ (lock s) → unheld_and_no_waiter s) ∧
  (owner_ticket_ (lock s) < next_free_ticket_ (lock s) →
   ∃ i, threads s i = Holding (owner_ticket_ (lock s)) ∨
        (threads s i = Spinning (owner_ticket_ (lock s)) ∧
         ∃ s', step i SpinOnce s = Some s' ∧
               threads s' i = Holding (owner_ticket_ (lock s)))).
Proof.
  intros Hreach Hn.
  destruct (reachable_consistent n s Hreach Hn)
    as (Ho & Hon & Hnn & Hrange & Huniq & Hhold & Htry & Hsurj).
  split.
  - intros Heq i. destruct (drawn_ticket (threads s i)) as [t|] eqn:Ht; [|done].
    pose proof (Hrange i t Ht). lia.
  - intros Hlt. destruct (Hsurj (owner_ticket_ (lock s))) as [i Hi]; [lia|].
    exists i. destruct (threads s i) as [|t|c|t] eqn:Hti; try done.
    + injection Hi as ->. right. split; [done|].
      eexists. split; [by apply step_SpinOnce_granted|].
      cbn. by rewrite fn_lookup_insert.
    + injection Hi as ->. by left.
Qed.

(** Any number of uncontended lock/unlock rounds by one thread. *)
Lemma rounds_reachable (k : Z) :
  0 ≤ k →
  ∃ n s, reachable_in n s ∧
    next_free_ticket_ (lock s) = k mod U64.modulus ∧
    owner_ticket_ (lock s) = k mod U64.modulus ∧
    ∀ i, threads s i = Idle.
Proof.
  revert k. apply natlike_ind.
  - exists 0%nat, init. split; [constructor|]. by repeat split.
  - intros k Hk (n & s & Hreach & Hnext & Howner & Hidle).
    pose proof (step_CallLock s 0 (Hidle 0%nat)) as Hs1.
    set (s1 := {| lock := _; threads := _ |}) in Hs1.
    assert (Ht1 : threads s1 0%nat = Spinning (owner_ticket_ (lock s1))).
    { subst s1; cbn. rewrite fn_lookup_insert. congruence. }
    pose proof (step_SpinOnce_granted s1 0 Ht1) as Hs2.
    set (s2 := {| lock := lock s1; threads := _ |}) in Hs2.
    assert (Ht2 : threads s2 0%nat = Holding (owner_ticket_ (lock s1))).
    { subst s2; cbn. by rewrite fn_lookup_insert. }
    pose proof (step_CallUnlock s2 0 _ Ht2) as Hs3.
    set (s3 := {| lock := _; threads := _ |}) in Hs3.
    exists (S (S (S n))), s3. split; [|split; [|split]].
    + eapply reachable_step; [|exact Hs3].
      eapply reachable_step; [|exact Hs2].
      eapply reachable_step; [|exact Hs1]. done.
    + subst s3 s2 s1; cbn. rewrite Hnext. unfold U64.add, U64.wrap, Z.succ.
      apply succ_mod, U64Facts.modulus_pos.
    + subst s3 s2 s1; cbn. rewrite Howner. unfold U64.add, U64.wrap, Z.succ.
      apply succ_mod, U64Facts.modulus_pos.
    + intros i. subst s3 s2 s1; cbn.
      unfold insert, fn_insert. by repeat case_decide.
Qed.

(** C7 as stated fails in two ways.  (1) Right after the fetch_add of
    [lock()] on a free lock, the caller's ticket equals [owner_ticket_] but
    [lock()] has not returned yet.  (2) After [2^64 - 1] lock/unlock rounds
    both counters are [2^64 - 1]; the next [lock()] wraps
    [next_free_ticket_] to 0, below [owner_ticket_]. *)
Lemma ticket_invariant_counterexamples :
  (∃ n s i, reachable_in n s ∧
     drawn_ticket (threads s i) = Some (owner_ticket_ (lock s)) ∧ ¬ holds s i) ∧
  (∃ n s, reachable_in n s ∧
     next_free_ticket_ (lock s) < owner_ticket_ (lock s)).
Proof.
  split.
  - eexists 1%nat, _, 0%nat. split; [|split].
    + eapply reachable_step; [apply reachable_init|].
      by apply (step_CallLock init 0).
    + reflexivity.
    + intros [t Ht]. discriminate Ht.
  - destruct (rounds_reachable (U64.modulus - 1)) as (n & s & Hreach & Hnext & Howner & Hidle);
      [done|].
    eexists (S n), _. split.
    + eapply reachable_step; [exact Hreach|]. by apply (step_CallLock s 0).
    + cbn. rewrite Hnext, Howner. reflexivity.
Qed.

End TicketFacts.


(** ** Queue (MCS) spinlock *)

Module MCSFacts.
Import QueueSpinLock.

Lemma may_be_tail_before_next_seen (p : option pc) :
  may_be_tail p → before_next_seen p.
Proof. by destruct p as [[]|]. Qed.

Ltac mcs_simpl :=
  cbn [tail_ guards control enqueued set_control set_next set_is_owner
       next_ is_owner_ may_be_tail before_next_seen] in *.

(** Case analysis on the lookups of updated maps, in the goal and in the
    hypotheses that mention them. *)
Ltac map_cases :=
  repeat first
    [ match goal with
      | H : context [<[_:=_]> _ !! _] |- _ => rewrite lookup_insert in H
      | H : context [delete _ _ !! _] |- _ => rewrite lookup_delete in H
      | H : context [last (_ ++ [_])] |- _ => rewrite last_snoc in H
      | |- context [<[_:=_]> _ !! _] => rewrite lookup_insert
      | |- context [delete _ _ !! _] => rewrite lookup_delete
      | |- context [last (_ ++ [_])] => rewrite last_snoc
      end
    | progress mcs_simpl
    | case_decide; simplify_eq ].

(** Add a fact unless it is already among the hypotheses; a conjunction or
    an existential is kept and a copy of it is taken apart. *)
Ltac learn H :=
  let T := type of H in
  lazymatch goal with
  | _ : T |- _ => fail
  | _ =>
      pose proof H;
      lazymatch T with
      | _ ∧ _ => let C := fresh in pose proof H as C; destruct_and! C
      | ∃ _, _ =>
          let C := fresh in
          pose proof H as C;
          repeat match type of C with ∃ _, _ => destruct C as [? C] end;
          destruct_and? C
      | _ => idtac
      end
  end.

(** Forward reasoning with the fields of [invariant s]. *)
Ltac mcs_learn Hlive Htpc Htnext Htlast Hlasttail Hfresh Hunowned Hpred Hsucc Hseen Hhand :=
  repeat match goal with
         | H : control ?s !! ?x = None |- _ => learn (proj1 (Hlive x) H)
         | H : guards ?s !! ?x = None |- _ => learn (proj2 (Hlive x) H)
         | H : tail_ ?s = Some ?t |- _ => learn (Htpc t H)
         | H : tail_ ?s = Some ?t |- _ => learn (Htlast t H)
         | H : last (enqueued ?s) = Some ?t |- _ => learn (Hlasttail t H)
         | H : tail_ ?s = Some ?t, G : guards ?s !! ?t = Some ?g |- _ =>
             learn (Htnext t g H G)
         | H : control ?s !! ?x = Some Constructed, G : guards ?s !! ?x = Some ?g |- _ =>
             learn (Hfresh x g H G)
         | H : control ?s !! ?x = Some (Exchanged ?p), G : guards ?s !! ?x = Some ?g |- _ =>
             learn (Hunowned x p g H G)
         | H : control ?s !! ?x = Some (Exchanged (Some ?p)) |- _ => learn (Hpred x p H)
         | G : guards ?s !! ?w = Some ?g, N : next_ ?g = Some ?n |- _ =>
             learn (Hsucc w g n G N)
         | H : may_be_tail ?c |- _ => learn (may_be_tail_before_next_seen c H)
         | H : control ?s !! ?w = Some NextSeen |- _ => learn (Hseen w H)
         | H : control ?s !! ?w = Some (Handoff ?n) |- _ => learn (Hhand w n H)
         | H : ∀ y, control ?s !! y = Some (Exchanged (Some ?p)) → y = ?x,
           Hc : control ?s !! ?z = Some (Exchanged (Some ?p)) |- _ => learn (H z Hc)
         | H : ∀ g, guards ?s !! ?p = Some g → _, Hg : guards ?s !! ?p = Some ?g |- _ =>
             learn (H g Hg)
         | H : ∀ w' g', guards ?s !! w' = Some g' → next_ g' = Some ?n → w' = ?w,
           Hg : guards ?s !! ?z = Some ?g, Hn : next_ ?g = Some ?n |- _ =>
             learn (H z g Hg Hn)
         | H : may_be_tail (control ?s !! ?x) → _, Hc : control ?s !! ?x = Some ?c |- _ =>
             learn (H ltac:(rewrite Hc; exact I))
         end.

(** The known program points, used where a hypothesis or the goal speaks of
    [may_be_tail] or [before_next_seen]. *)
Ltac mcs_points :=
  repeat match goal with
         | H : control ?s !! ?x = _, H' : may_be_tail (control ?s !! ?x) |- _ =>
             rewrite H in H'; cbn in H'
         | H : control ?s !! ?x = _, H' : before_next_seen (control ?s !! ?x) |- _ =>
             rewrite H in H'; cbn in H'
         | H : control ?s !! ?x = _ |- context [control ?s !! ?x] => rewrite H; cbn
         | H : guards ?s !! ?x = _ |- context [guards ?s !! ?x] => rewrite H; cbn
         end.

Ltac mcs_go Hlive Htpc Htnext Htlast Hlasttail Hfresh Hunowned Hpred Hsucc Hseen Hhand :=
  intros; simplify_eq; map_cases; simplify_eq; try done;
  mcs_learn Hlive Htpc Htnext Htlast Hlasttail Hfresh Hunowned Hpred Hsucc Hseen Hhand;
  simplify_eq; mcs_points; try done;
  first
    [ congruence
    | lazymatch goal with
      | |- _ ∧ _ =>
          split; mcs_go Hlive Htpc Htnext Htlast Hlasttail Hfresh Hunowned Hpred Hsucc Hseen Hhand
      | |- _ ↔ _ =>
          split; mcs_go Hlive Htpc Htnext Htlast Hlasttail Hfresh Hunowned Hpred Hsucc Hseen Hhand
      | |- ∀ _, _ =>
          intro; mcs_go Hlive Htpc Htnext Htlast Hlasttail Hfresh Hunowned Hpred Hsucc Hseen Hhand
      | |- _ ≠ _ =>
          intro; mcs_go Hlive Htpc Htnext Htlast Hlasttail Hfresh Hunowned Hpred Hsucc Hseen Hhand
      end
    | by eauto
    | idtac ].

Lemma invariant_init : invariant init.
Proof. by constructor. Qed.

Lemma invariant_step (s s' : system) (w : nat) :
  invariant s → step w s = Some s' → invariant s'.
Proof.
  intros [Hlive Htpc Htnext Htlast Hlasttail Hfresh Hunowned Hpred Hsucc Hseen Hhand] Hstep.
  unfold step in Hstep.
  destruct (control s !! w) as [[| [p|] | | | | | n]|] eqn:Hw.
  - (* Constructed: the exchange *)
    injection Hstep as <-. constructor; mcs_simpl.
    all: mcs_go Hlive Htpc Htnext Htlast Hlasttail Hfresh Hunowned Hpred Hsucc Hseen Hhand.
  - (* Exchanged (Some p): link behind the predecessor *)
    destruct (guards s !! p) as [gp|] eqn:Hgp; [|done].
    injection Hstep as <-. constructor; mcs_simpl.
    all: mcs_go Hlive Htpc Htnext Htlast Hlasttail Hfresh Hunowned Hpred Hsucc Hseen Hhand.
  - (* Exchanged None: the queue was empty, take ownership *)
    destruct (guards s !! w) as [gw|] eqn:Hgw; [|done].
    injection Hstep as <-. constructor; mcs_simpl.
    all: mcs_go Hlive Htpc Htnext Htlast Hlasttail Hfresh Hunowned Hpred Hsucc Hseen Hhand.
  - (* AwaitOwner: one look at [is_owner_] *)
    destruct (guards s !! w) as [gw|] eqn:Hgw; [|done].
    injection Hstep as <-.
    destruct (is_owner_ gw) eqn:Hown; [|by constructor].
    constructor; mcs_simpl.
    all: mcs_go Hlive Htpc Htnext Htlast Hlasttail Hfresh Hunowned Hpred Hsucc Hseen Hhand.
  - (* Owner: the compare-exchange of [Dequeue] *)
    unfold Atomic.compare_exchange_strong in Hstep.
    destruct (decide (tail_ s = Some w)) as [Htail|Htail]; injection Hstep as <-.
    + constructor; mcs_simpl.
      all: mcs_go Hlive Htpc Htnext Htlast Hlasttail Hfresh Hunowned Hpred Hsucc Hseen Hhand.
    + constructor; mcs_simpl.
      all: mcs_go Hlive Htpc Htnext Htlast Hlasttail Hfresh Hunowned Hpred Hsucc Hseen Hhand.
  - (* AwaitNext: one look at [next_] *)
    destruct (guards s !! w) as [gw|] eqn:Hgw; [|done].
    injection Hstep as <-.
    destruct (next_ gw) as [n|] eqn:Hnext; [|by constructor].
    constructor; mcs_simpl.
    all: mcs_go Hlive Htpc Htnext Htlast Hlasttail Hfresh Hunowned Hpred Hsucc Hseen Hhand.
  - (* NextSeen: load the successor *)
    destruct (guards s !! w) as [gw|] eqn:Hgw; [|done]. cbn in Hstep.
    destruct (next_ gw) as [n|] eqn:Hnext; [|done].
    injection Hstep as <-. constructor; mcs_simpl.
    all: mcs_go Hlive Htpc Htnext Htlast Hlasttail Hfresh Hunowned Hpred Hsucc Hseen Hhand.
  - (* Handoff: make the successor the owner; the guard is gone *)
    destruct (guards s !! n) as [gn|] eqn:Hgn; [|done].
    injection Hstep as <-. constructor; mcs_simpl.
    all: mcs_go Hlive Htpc Htnext Htlast Hlasttail Hfresh Hunowned Hpred Hsucc Hseen Hhand.
  - (* construction of a guard *)
    injection Hstep as <-. constructor; mcs_simpl.
    all: mcs_go Hlive Htpc Htnext Htlast Hlasttail Hfresh Hunowned Hpred Hsucc Hseen Hhand.
Qed.

Lemma reachable_invariant (s : system) : reachable s → invariant s.
Proof.
  induction 1 as [|s w s' _ IH Hstep]; [apply invariant_init|].
  by apply (invariant_step s s' w).
Qed.

Lemma reachable_with_reachable (s : system) (h : history) :
  reachable_with s h → reachable s.
Proof.
  induction 1 as [|s h w s' _ IH Hstep]; [constructor|].
  by apply (reachable_step s w).
Qed.

Lemma reachable_has_history (s : system) :
  reachable s → ∃ h, reachable_with s h.
Proof.
  induction 1 as [|s w s' _ [h IH] Hstep]; [exists no_history; constructor|].
  exists (record_step w s h). by constructor.
Qed.

Lemma exec_with_reachable (schedule : list nat) (s s' : system) (h h' : history) :
  reachable_with s h → exec_with schedule s h = Some (s', h') → reachable_with s' h'.
Proof.
  revert s h. induction schedule as [|w rest IH]; intros s h Hs; simpl.
  - by intros [= <- <-].
  - destruct (step w s) as [s1|] eqn:Hstep; [|done]. cbn.
    apply IH. by constructor.
Qed.

Lemma served_init : served_in_order init no_history.
Proof.
  constructor; cbn; try done; try lia.
  intros x. rewrite !lookup_empty. naive_solver.
Qed.

(** Forward reasoning with the fields of [served_in_order s h]. *)
Ltac ord_learn Hord :=
  repeat match goal with
         | H : rank ?h !! ?x = Some ?r |- _ => learn (ord_range _ h Hord x r H)
         | H : rank ?h !! ?x = Some ?r |- _ => learn (ord_log _ h Hord x r H)
         | H : rank ?h !! ?x = None |- _ => learn (proj1 (ord_live _ h Hord x) H)
         | H : control ?s !! ?x = None |- _ =>
             learn (proj2 (ord_live s _ Hord x) (or_introl H))
         | H : control ?s !! ?x = Some Constructed |- _ =>
             learn (proj2 (ord_live s _ Hord x) (or_intror H))
         | H : tail_ ?s = Some ?t |- _ => learn (ord_tail s _ Hord t H)
         | H : tail_ ?s = None |- _ => learn (ord_empty s _ Hord H)
         | H : control ?s !! ?y = Some (Exchanged (Some ?p)) |- _ =>
             learn (ord_pred s _ Hord y p H)
         | H : control ?s !! ?y = Some (Exchanged None) |- _ =>
             learn (ord_first s _ Hord y H)
         | G : guards ?s !! ?p = Some ?g, N : next_ ?g = Some ?y |- _ =>
             learn (ord_next s _ Hord p g y G N)
         | G : guards ?s !! ?x = Some ?g, N : is_owner_ ?g = true |- _ =>
             learn (ord_flag s _ Hord x g G N)
         | H : control ?s !! ?x = Some ?p, A : acquired ?p |- _ =>
             learn (ord_acquired s _ Hord x p H A)
         | H : control ?s !! ?x = Some Owner |- _ => learn (ord_acquired s _ Hord x _ H I)
         | H : control ?s !! ?x = Some AwaitNext |- _ =>
             learn (ord_acquired s _ Hord x _ H I)
         | H : control ?s !! ?x = Some NextSeen |- _ =>
             learn (ord_acquired s _ Hord x _ H I)
         | H : control ?s !! ?x = Some (Handoff ?n) |- _ =>
             learn (ord_acquired s _ Hord x _ H I)
         end.

(** Two guards at the same position are one guard. *)
Ltac ord_same Hord :=
  repeat match goal with
         | H1 : rank ?h !! ?x = Some ?r1, H2 : rank ?h !! ?y = Some ?r2 |- _ =>
             lazymatch x with
             | y => fail
             | _ =>
                 let E := fresh in
                 assert (x = y) as E
                   by (apply (ord_inj _ h Hord x y r1 H1); rewrite H2; f_equal; lia);
                 subst
             end
         | H1 : rank ?h !! ?x = Some ?r1, H2 : rank ?h !! ?x = Some ?r2 |- _ =>
             lazymatch r1 with
             | r2 => fail
             | _ => rewrite H1 in H2; injection H2 as H2
             end
         | H1 : rank ?h !! ?x = Some _, H2 : rank ?h !! ?x = None |- _ =>
             rewrite H1 in H2; discriminate
         | H1 : control ?h !! ?x = Some _, H2 : control ?h !! ?x = None |- _ =>
             rewrite H1 in H2; discriminate
         | H1 : control ?h !! ?x = Some ?a, H2 : control ?h !! ?x = Some ?b |- _ =>
             lazymatch a with
             | b => fail
             | _ => rewrite H1 in H2; simplify_eq
             end
         end.

(** Two different guards are at different positions. *)
Ltac ord_apart Hord :=
  repeat match goal with
         | H1 : rank ?h !! ?x = Some ?r1, H2 : rank ?h !! ?y = Some ?r2, N : ?x ≠ ?y |- _ =>
             lazymatch goal with
             | _ : r1 ≠ r2 |- _ => fail
             | _ =>
                 assert (r1 ≠ r2)
                   by (let E := fresh in
                       intros E; apply N;
                       apply (ord_inj _ h Hord x y r1 H1); by rewrite H2, E)
             end
         end.

Ltac ord_simpl :=
  cbn [rank released acquired] in *; mcs_simpl;
  rewrite ?length_app; cbn [length].

Ltac ord_rank :=
  lazymatch goal with
  | |- Some _ = Some _ => f_equal; lia
  | |- rank ?h !! ?x = Some _ =>
      match goal with
      | H : rank h !! x = Some _ |- _ => rewrite H; f_equal; lia
      end
  end.

(** The guard between the two phases of its [Enqueue] behind [x]: the one
    there was before the step, or the one whose exchange has just replaced
    [x] as the tail. *)
Ltac ord_follow Hord :=
  lazymatch goal with
  | R : rank ?h !! ?x = Some ?r, G : guards ?s !! ?x = Some ?g, N : next_ ?g = None
    |- ∃ y, _ = Some (Exchanged (Some ?x)) =>
      let Ht := fresh "Ht" in
      destruct (decide (tail_ s = Some x)) as [Ht|Ht];
      [ first
          [ congruence
          | match goal with
            | |- ∃ y, <[?w:=_]> _ !! y = _ =>
                exists w; rewrite lookup_insert_eq; congruence
            end ]
      | let y := fresh "y" in
        let Hy := fresh "Hy" in
        destruct (ord_follower s h Hord x r g R Ht G N) as [y Hy];
        exists y; map_cases; congruence ]
  end.

Ltac ord_close Hord :=
  first
    [ done
    | congruence
    | lia
    | ord_rank
    | apply (ord_live _ _ Hord)
    | by eapply (ord_acquired _ _ Hord)
    | by eapply (ord_flag _ _ Hord)
    | by apply (ord_head _ _ Hord)
    | by eapply (ord_waiting _ _ Hord)
    | ord_follow Hord
    | match goal with
      | |- ∃ r, rank ?h !! ?p = Some r ∧ _ =>
          eexists; split; [eassumption|]; ord_rank
      | H : ?l !! ?r = Some ?x |- (?l ++ _) !! ?r = Some ?x =>
          rewrite lookup_app_l; [exact H | lia]
      | |- (?l ++ [?x]) !! length ?l = Some ?x => apply list_lookup_middle; done
      | |- _ ↔ _ =>
          split; intros;
          first [done | by left | by right | destruct_or?; simplify_eq; done]
      end
    | by eauto ].

Ltac ord_go Hord Hlive Htpc Htnext Htlast Hlasttail Hfresh Hunowned Hpred Hsucc Hseen Hhand :=
  intros; ord_simpl; simplify_eq; map_cases; simplify_eq; ord_simpl;
  mcs_learn Hlive Htpc Htnext Htlast Hlasttail Hfresh Hunowned Hpred Hsucc Hseen Hhand;
  simplify_eq; mcs_points;
  pose proof (ord_released _ _ Hord);
  ord_learn Hord; ord_same Hord; ord_apart Hord; ord_simpl.

Lemma served_step (s s' : system) (h : history) (w : nat) :
  invariant s → served_in_order s h → step w s = Some s' →
  served_in_order s' (record_step w s h).
Proof.
  intros [Hlive Htpc Htnext Htlast Hlasttail Hfresh Hunowned Hpred Hsucc Hseen Hhand].
  intros Hord Hstep.
  unfold step in Hstep. unfold record_step.
  destruct (control s !! w) as [[| [p|] | | | | | n]|] eqn:Hw.
  - (* Constructed: the exchange *)
    injection Hstep as <-. constructor; ord_simpl.
    all: try (ord_go Hord Hlive Htpc Htnext Htlast Hlasttail Hfresh Hunowned Hpred Hsucc Hseen Hhand;
              ord_close Hord).
    { (* the head: the new guard if the queue had been served to its end *)
      intros Hlt. destruct (decide (released h = length (enqueued s))) as [Heq|Hne].
      - exists w. rewrite lookup_insert_eq. by rewrite Heq.
      - destruct (ord_head _ _ Hord) as [x Hx]; [lia|]. exists x.
        rewrite lookup_insert_ne; [done|]. intros ->.
        pose proof (proj2 (ord_live _ _ Hord x) (or_intror Hw)). congruence. }
  - (* Exchanged (Some p): link behind the predecessor *)
    destruct (guards s !! p) as [gp|] eqn:Hgp; [|done].
    injection Hstep as <-. constructor; ord_simpl.
    all: try (ord_go Hord Hlive Htpc Htnext Htlast Hlasttail Hfresh Hunowned Hpred Hsucc Hseen Hhand;
              ord_close Hord).
  - (* Exchanged None: the queue was empty, take ownership *)
    destruct (guards s !! w) as [gw|] eqn:Hgw; [|done].
    injection Hstep as <-. constructor; ord_simpl.
    all: try (ord_go Hord Hlive Htpc Htnext Htlast Hlasttail Hfresh Hunowned Hpred Hsucc Hseen Hhand;
              ord_close Hord).
  - (* AwaitOwner: one look at [is_owner_] *)
    destruct (guards s !! w) as [gw|] eqn:Hgw; [|done].
    injection Hstep as <-.
    destruct (is_owner_ gw) eqn:Hown; [|done].
    constructor; ord_simpl.
    all: try (ord_go Hord Hlive Htpc Htnext Htlast Hlasttail Hfresh Hunowned Hpred Hsucc Hseen Hhand;
              ord_close Hord).
  - (* Owner: the compare-exchange of [Dequeue] *)
    unfold Atomic.compare_exchange_strong in Hstep.
    destruct (decide (tail_ s = Some w)) as [Htail|Htail]; injection Hstep as <-.
    + constructor; ord_simpl.
      all: try (ord_go Hord Hlive Htpc Htnext Htlast Hlasttail Hfresh Hunowned Hpred Hsucc Hseen Hhand;
                ord_close Hord).
    + constructor; ord_simpl.
      all: try (ord_go Hord Hlive Htpc Htnext Htlast Hlasttail Hfresh Hunowned Hpred Hsucc Hseen Hhand;
                ord_close Hord).
  - (* AwaitNext: one look at [next_] *)
    destruct (guards s !! w) as [gw|] eqn:Hgw; [|done].
    injection Hstep as <-.
    destruct (next_ gw) as [n|] eqn:Hnext; [|done].
    constructor; ord_simpl.
    all: try (ord_go Hord Hlive Htpc Htnext Htlast Hlasttail Hfresh Hunowned Hpred Hsucc Hseen Hhand;
              ord_close Hord).
  - (* NextSeen: load the successor *)
    destruct (guards s !! w) as [gw|] eqn:Hgw; [|done]. cbn in Hstep.
    destruct (next_ gw) as [n|] eqn:Hnext; [|done].
    injection Hstep as <-. constructor; ord_simpl.
    all: try (ord_go Hord Hlive Htpc Htnext Htlast Hlasttail Hfresh Hunowned Hpred Hsucc Hseen Hhand;
              ord_close Hord).
  - (* Handoff: make the successor the owner; the guard is gone *)
    destruct (guards s !! n) as [gn|] eqn:Hgn; [|done].
    injection Hstep as <-. constructor; ord_simpl.
    all: try (ord_go Hord Hlive Htpc Htnext Htlast Hlasttail Hfresh Hunowned Hpred Hsucc Hseen Hhand;
              ord_close Hord).
    { (* the head: the successor that is made the owner *)
      intros _. destruct (Hhand _ _ Hw) as (g & Hg & Hn).
      destruct (ord_next _ _ Hord _ _ _ Hg Hn) as (r & Hr & Hrn).
      pose proof (ord_acquired _ _ Hord _ _ Hw I) as Hrw.
      rewrite Hrw in Hr. injection Hr as <-.
      exists n. rewrite lookup_delete_ne; [done|]. intros ->.
      rewrite Hrw in Hrn. injection Hrn. lia. }
  - (* construction of a guard *)
    injection Hstep as <-. constructor; ord_simpl.
    all: try (ord_go Hord Hlive Htpc Htnext Htlast Hlasttail Hfresh Hunowned Hpred Hsucc Hseen Hhand;
              ord_close Hord).
Qed.

Lemma reachable_with_served (s : system) (h : history) :
  reachable_with s h → served_in_order s h.
Proof.
  induction 1 as [|s h w s' Hs IH Hstep]; [apply served_init|].
  apply served_step; [|done..].
  by apply reachable_invariant, (reachable_with_reachable s h).
Qed.

Lemma owner_unique (s : system) (x y : nat) :
  reachable s → control s !! x = Some Owner → control s !! y = Some Owner → x = y.
Proof.
  intros Hs Hx Hy. destruct (reachable_has_history s Hs) as [h Hh].
  pose proof (reachable_with_served s h Hh) as Hord.
  apply (ord_inj s h Hord x y (released h)); by eapply ord_acquired.
Qed.

(** Mutual exclusion of the queue spinlock, one step per atomic operation:
    in every reachable state at most one guard is in the critical section
    (its constructor has returned and its destructor has not started), and
    no other guard has been made owner. *)
Theorem mcs_mutual_exclusion (s : system) (x y : nat) :
  reachable s → control s !! x = Some Owner →
  (control s !! y = Some Owner → x = y) ∧
  (∀ g, y ≠ x → guards s !! y = Some g → is_owner_ g = false).
Proof.
  intros Hs Hx. destruct (reachable_has_history s Hs) as [h Hh].
  pose proof (reachable_with_served s h Hh) as Hord.
  pose proof (ord_acquired s h Hord x Owner Hx I) as Hrx.
  split.
  - intros Hy. pose proof (ord_acquired s h Hord y Owner Hy I) as Hry.
    by apply (ord_inj s h Hord x y (released h)).
  - intros g Hne Hg. destruct (is_owner_ g) eqn:Hown; [|done].
    destruct Hne. by apply (ord_inj s h Hord y x (released h)); [eapply ord_flag|].
Qed.

(** The queue spinlock serves guards in the order of their exchanges on
    [tail_]: the guard in the critical section ran its exchange before
    every other guard that has run one and is still alive. *)
Theorem mcs_first_come_first_served (s : system) (h : history) (x y ry : nat) :
  reachable_with s h → control s !! x = Some Owner →
  y ≠ x → rank h !! y = Some ry →
  ∃ rx, rank h !! x = Some rx ∧ (rx < ry)%nat ∧
        enqueued s !! rx = Some x ∧ enqueued s !! ry = Some y.
Proof.
  intros Hh Hx Hne Hy.
  pose proof (reachable_with_served s h Hh) as Hord.
  pose proof (ord_acquired s h Hord x Owner Hx I) as Hrx.
  exists (released h). split; [done|].
  pose proof (ord_range s h Hord y ry Hy) as [Hlo _].
  split; [|split; by eapply ord_log].
  destruct (decide (ry = released h)) as [->|]; [|lia].
  destruct Hne. by apply (ord_inj s h Hord y x (released h)).
Qed.

(** The queue spinlock is never stuck.  In every reachable state in which a
    guard is enqueued (it has run the exchange of [Enqueue] and has not
    finished [Dequeue]), the next atomic operation of some enqueued guard
    moves its thread to another program point: it is not a look of one of
    the two spin loops that finds nothing.  The guard in the critical
    section counts as one whose next operation is the compare-exchange of
    [Dequeue]. *)
Theorem mcs_never_stuck (s : system) (x : nat) (p : pc) :
  reachable s → control s !! x = Some p → p ≠ Constructed →
  ∃ y q s', control s !! y = Some q ∧ q ≠ Constructed ∧
            step y s = Some s' ∧ control s' !! y ≠ Some q.
Proof.
  intros Hs Hx Hp. destruct (reachable_has_history s Hs) as [h Hh].
  pose proof (reachable_with_served s h Hh) as Hord.
  pose proof (reachable_invariant s Hs) as Hinv.
  (* [x] is enqueued, so there is a guard [z] at the head of the queue *)
  destruct (rank h !! x) as [r|] eqn:Hr; last first.
  { apply (ord_live s h Hord) in Hr as [Hr|Hr]; congruence. }
  pose proof (ord_range s h Hord x r Hr) as Hrange.
  destruct (ord_head s h Hord) as [z Hz]; [lia|].
  destruct (control s !! z) as [q|] eqn:Hq; last first.
  { pose proof (proj2 (ord_live s h Hord z) (or_introl Hq)). congruence. }
  assert (∃ g, guards s !! z = Some g) as [g Hg].
  { destruct (guards s !! z) eqn:E; [by eexists|].
    apply (inv_live s Hinv) in E. congruence. }
  destruct q as [| [p'|] | | | | | n].
  - pose proof (proj2 (ord_live s h Hord z) (or_intror Hq)). congruence.
  - (* the head has no predecessor *)
    destruct (ord_pred s h Hord z p' Hq) as (r' & Hr' & Hrz).
    pose proof (ord_range s h Hord p' r' Hr'). rewrite Hz in Hrz.
    injection Hrz. lia.
  - exists z, (Exchanged None). eexists. do 2 (split; [done|]).
    unfold step. rewrite Hq, Hg. cbn. split; [done|].
    cbn. by rewrite lookup_insert_eq.
  - (* the head spins in [Acquire]: its flag is set *)
    pose proof (ord_waiting s h Hord z g Hz Hq Hg) as Hown.
    exists z, AwaitOwner. eexists. do 2 (split; [done|]).
    unfold step. rewrite Hq, Hg. cbn. rewrite Hown. split; [done|].
    cbn. by rewrite lookup_insert_eq.
  - exists z, Owner.
    destruct (decide (tail_ s = Some z)) as [Ht|Ht]; eexists;
      (do 2 (split; [done|])); unfold step, Atomic.compare_exchange_strong;
      rewrite Hq.
    + rewrite decide_True by done. split; [done|].
      cbn. by rewrite lookup_delete_eq.
    + rewrite decide_False by done. split; [done|].
      cbn. by rewrite lookup_insert_eq.
  - (* the head spins in [SpinUntilNextWaiter]: its successor is linked,
       or is about to link itself *)
    destruct (next_ g) as [n|] eqn:Hn.
    + exists z, AwaitNext. eexists. do 2 (split; [done|]).
      unfold step. rewrite Hq, Hg. cbn. rewrite Hn. split; [done|].
      cbn. by rewrite lookup_insert_eq.
    + assert (tail_ s ≠ Some z) as Ht.
      { intros Ht. pose proof (inv_tail_pc s Hinv z Ht) as Hpc.
        by rewrite Hq in Hpc. }
      destruct (ord_follower s h Hord z _ g Hz Ht Hg Hn) as [y Hy].
      exists y, (Exchanged (Some z)). eexists. do 2 (split; [done|]).
      unfold step. rewrite Hy, Hg. cbn. split; [done|].
      cbn. by rewrite lookup_insert_eq.
  - destruct (inv_next_seen s Hinv z Hq) as (g' & n & Hg' & Hn).
    exists z, NextSeen. eexists. do 2 (split; [done|]).
    unfold step. rewrite Hq, Hg'. cbn. rewrite Hn. cbn. split; [done|].
    cbn. by rewrite lookup_insert_eq.
  - destruct (inv_handoff s Hinv z n Hq) as (g' & Hg' & Hn).
    destruct (inv_succ s Hinv z g' n Hg' Hn) as (_ & Hcn & _).
    destruct (guards s !! n) as [gn|] eqn:Hgn; last first.
    { apply (inv_live s Hinv) in Hgn. congruence. }
    exists z, (Handoff n). eexists. do 2 (split; [done|]).
    unfold step. rewrite Hq, Hgn. cbn. split; [done|].
    cbn. by rewrite lookup_delete_eq.
Qed.

Lemma mcs_exec_reachable (schedule : list nat) (s s' : system) :
  reachable s → exec schedule s = Some s' → reachable s'.
Proof.
  revert s. induction schedule as [|w rest IH]; intros s Hs; simpl.
  - by intros [= <-].
  - destruct (step w s) as [s1|] eqn:Hstep; [|done]. cbn.
    apply IH. by apply (reachable_step s w).
Qed.

Lemma others_run_reachable (w : nat) (s s' : system) :
  others_run w s s' → reachable s → reachable s'.
Proof.
  induction 1 as [|s x s1 s2 _ Hstep _ IH]; [done|].
  intros Hs. apply IH. by apply (reachable_step s x).
Qed.

(** A step of another thread leaves the program point of [w]'s thread
    alone, and of [w]'s guard it can only set [is_owner_], or link a first
    successor. *)
Lemma other_step_frame (s s' : system) (w x : nat) (c : pc) (g : Guard) :
  invariant s → x ≠ w → step x s = Some s' →
  control s !! w = Some c → guards s !! w = Some g →
  control s' !! w = Some c ∧
  ∃ g', guards s' !! w = Some g' ∧
    (is_owner_ g = true → is_owner_ g' = true) ∧
    (∀ n, next_ g = Some n → next_ g' = Some n).
Proof.
  intros [Hlive Htpc Htnext Htlast Hlasttail Hfresh Hunowned Hpred Hsucc Hseen Hhand]
    Hne Hstep Hc Hg.
  unfold step in Hstep.
  destruct (control s !! x) as [[| [p|] | | | | | n]|] eqn:Hx.
  - injection Hstep as <-; mcs_simpl. rewrite lookup_insert_ne by done. eauto.
  - destruct (guards s !! p) as [gp|] eqn:Hgp; [|done].
    injection Hstep as <-; mcs_simpl. rewrite lookup_insert_ne by done.
    split; [done|]. rewrite lookup_insert. case_decide as Hp; [|eauto].
    subst p. rewrite Hg in Hgp. injection Hgp as <-.
    eexists. split; [done|]. split; [done|].
    intros n Hn. destruct (Hpred x w Hx) as (_ & _ & _ & Hnone & _).
    rewrite (Hnone g Hg) in Hn. done.
  - destruct (guards s !! x) as [gx|] eqn:Hgx; [|done].
    injection Hstep as <-; mcs_simpl. rewrite !lookup_insert_ne by done. eauto.
  - destruct (guards s !! x) as [gx|] eqn:Hgx; [|done].
    injection Hstep as <-. destruct (is_owner_ gx); mcs_simpl; [|eauto].
    rewrite lookup_insert_ne by done. eauto.
  - unfold Atomic.compare_exchange_strong in Hstep.
    case_decide; injection Hstep as <-; mcs_simpl.
    + rewrite !lookup_delete_ne by done. eauto.
    + rewrite lookup_insert_ne by done. eauto.
  - destruct (guards s !! x) as [gx|] eqn:Hgx; [|done].
    injection Hstep as <-. destruct (next_ gx); mcs_simpl; [|eauto].
    rewrite lookup_insert_ne by done. eauto.
  - destruct (guards s !! x) as [gx|] eqn:Hgx; [|done]. cbn in Hstep.
    destruct (next_ gx); [|done].
    injection Hstep as <-; mcs_simpl. rewrite lookup_insert_ne by done. eauto.
  - destruct (guards s !! n) as [gn|] eqn:Hgn; [|done].
    injection Hstep as <-; mcs_simpl. rewrite !lookup_delete_ne by done.
    split; [done|]. rewrite lookup_insert. case_decide as Hnw; [|eauto].
    subst n. rewrite Hg in Hgn. injection Hgn as <-.
    eexists. by split.
  - injection Hstep as <-; mcs_simpl. rewrite !lookup_insert_ne by done. eauto.
Qed.

Lemma others_run_frame (s s' : system) (w : nat) (c : pc) (g : Guard) :
  reachable s → others_run w s s' →
  control s !! w = Some c → guards s !! w = Some g →
  control s' !! w = Some c ∧
  ∃ g', guards s' !! w = Some g' ∧
    (is_owner_ g = true → is_owner_ g' = true) ∧
    (∀ n, next_ g = Some n → next_ g' = Some n).
Proof.
  intros Hreach Hrun. revert g Hreach.
  induction Hrun as [s|s x s1 s2 Hne Hstep _ IH]; intros g Hreach Hc Hg.
  - eauto.
  - destruct (other_step_frame s s1 w x c g) as (Hc1 & g1 & Hg1 & Ho1 & Hn1);
      [by apply reachable_invariant|done..|].
    destruct (IH g1) as (Hc2 & g2 & Hg2 & Ho2 & Hn2);
      [by apply (reachable_step s x)|done..|].
    split; [done|]. exists g2. split; [done|]. split; eauto.
Qed.

(** A live guard has its two fields. *)
Lemma live_guard (s : system) (w : nat) (c : pc) :
  invariant s → control s !! w = Some c → ∃ g, guards s !! w = Some g.
Proof.
  intros Hinv Hc. destruct (guards s !! w) as [g|] eqn:Hg; [by exists g|].
  apply (inv_live s Hinv) in Hg. congruence.
Qed.

(** C9.  In every reachable state of the lock:
    - when the exchange of [Enqueue] returned null, the thread's next
      operation stores true into its own [is_owner_], and after that,
      whatever the other threads do, its first evaluation of the loop
      condition of [Acquire] ends the loop;
    - the compare-exchange of [Dequeue] succeeds exactly when no node was
      enqueued after the releasing one; on success [tail_] is null and
      [Dequeue] returns, on failure [tail_] is unchanged and the thread
      enters [SpinUntilNextWaiter];
    - there, while [next_] is null the thread keeps waiting; once it is a
      successor [n], whatever the other threads do, the thread leaves the
      loop, loads [n] and stores true into [n]'s [is_owner_]. *)
Theorem mcs_enqueue_dequeue (s : system) (w : nat) :
  reachable s →
  (control s !! w = Some (Exchanged None) →
     ∃ s1, step w s = Some s1 ∧ (is_owner_ <$> guards s1 !! w) = Some true ∧
       ∀ s2, others_run w s1 s2 →
         ∃ s3, step w s2 = Some s3 ∧ control s3 !! w = Some Owner) ∧
  (control s !! w = Some Owner →
     ((Atomic.compare_exchange_strong (tail_ s) (Some w) None).1 = true ↔
        last_enqueued s w) ∧
     ∃ s1, step w s = Some s1 ∧
       (last_enqueued s w → tail_ s1 = None ∧ control s1 !! w = None) ∧
       (¬ last_enqueued s w →
          tail_ s1 = tail_ s ∧ control s1 !! w = Some AwaitNext)) ∧
  (control s !! w = Some AwaitNext →
     ∃ g, guards s !! w = Some g ∧
       (next_ g = None → step w s = Some s) ∧
       (∀ n, next_ g = Some n →
          ∀ s1, others_run w s s1 →
          ∃ s2, step w s1 = Some s2 ∧ control s2 !! w = Some NextSeen ∧
          ∀ s3, others_run w s2 s3 →
          ∃ s4, step w s3 = Some s4 ∧ control s4 !! w = Some (Handoff n) ∧
          ∀ s5, others_run w s4 s5 →
          ∃ s6, step w s5 = Some s6 ∧
            (is_owner_ <$> guards s6 !! n) = Some true ∧
            control s6 !! w = None)).
Proof.
  intros Hreach. pose proof (reachable_invariant s Hreach) as Hinv.
  split; [|split].
  - (* Enqueue into an empty queue *)
    intros Hc. destruct (live_guard s w _ Hinv Hc) as [g Hg].
    assert (Hstep : step w s =
      Some {| tail_ := tail_ s; guards := <[w := set_is_owner true g]> (guards s);
              control := <[w := AwaitOwner]> (control s);
              enqueued := enqueued s |}).
    { unfold step. rewrite Hc, Hg. reflexivity. }
    eexists. split; [exact Hstep|].
    mcs_simpl. split; [by rewrite lookup_insert_eq|].
    intros s2 Hrun.
    pose proof (reachable_step _ _ _ Hreach Hstep) as Hreach1.
    destruct (others_run_frame _ s2 w AwaitOwner (set_is_owner true g) Hreach1 Hrun)
      as (Hc2 & g2 & Hg2 & Ho2 & _);
      [by mcs_simpl; rewrite lookup_insert_eq..|].
    eexists. split.
    + unfold step. rewrite Hc2, Hg2. cbn. rewrite (Ho2 eq_refl). reflexivity.
    + mcs_simpl. by rewrite lookup_insert_eq.
  - (* Dequeue: the compare-exchange *)
    intros Hc.
    assert (Hiff : tail_ s = Some w ↔ last_enqueued s w).
    { unfold last_enqueued. rewrite <- last_Some. split.
      - apply (inv_tail_last s Hinv).
      - intros Hlast. apply (inv_last_tail s Hinv); [done|]. by rewrite Hc. }
    unfold step. rewrite Hc. unfold Atomic.compare_exchange_strong.
    destruct (decide (tail_ s = Some w)) as [Ht|Ht]; cbn.
    + split; [by split; [intros _; apply Hiff|]|].
      eexists. split; [done|]. mcs_simpl. split.
      * intros _. by rewrite lookup_delete_eq.
      * intros Hnot. destruct Hnot. by apply Hiff.
    + split; [split; [done|by intros ?%Hiff]|].
      eexists. split; [done|]. mcs_simpl. split.
      * intros ?%Hiff. done.
      * intros _. by rewrite lookup_insert_eq.
  - (* SpinUntilNextWaiter and the hand-over *)
    intros Hc. destruct (live_guard s w _ Hinv Hc) as [g Hg].
    exists g. split; [done|]. split.
    { intros Hnone. unfold step. rewrite Hc, Hg. cbn. by rewrite Hnone. }
    intros n Hn s1 Hrun1.
    destruct (others_run_frame s s1 w _ g Hreach Hrun1 Hc Hg)
      as (Hc1 & g1 & Hg1 & _ & Hn1).
    pose proof (others_run_reachable w s s1 Hrun1 Hreach) as Hreach1.
    assert (Hstep1 : step w s1 = Some (set_control w NextSeen s1)).
    { unfold step. rewrite Hc1, Hg1. cbn. by rewrite (Hn1 n Hn). }
    eexists. split; [exact Hstep1|]. mcs_simpl.
    split; [by rewrite lookup_insert_eq|].
    intros s3 Hrun3.
    pose proof (reachable_step _ _ _ Hreach1 Hstep1) as Hreach2.
    edestruct (others_run_frame _ s3 w NextSeen g1 Hreach2 Hrun3)
      as (Hc3 & g3 & Hg3 & _ & Hn3); [by mcs_simpl; rewrite lookup_insert_eq|done|].
    pose proof (others_run_reachable w _ s3 Hrun3 Hreach2) as Hreach3.
    assert (Hstep3 : step w s3 = Some (set_control w (Handoff n) s3)).
    { unfold step. rewrite Hc3, Hg3. cbn. by rewrite (Hn3 n (Hn1 n Hn)). }
    eexists. split; [exact Hstep3|]. mcs_simpl.
    split; [by rewrite lookup_insert_eq|].
    intros s5 Hrun5.
    pose proof (reachable_step _ _ _ Hreach3 Hstep3) as Hreach4.
    edestruct (others_run_frame _ s5 w (Handoff n) g3 Hreach4 Hrun5)
      as (Hc5 & g5 & Hg5 & _ & Hn5); [by mcs_simpl; rewrite lookup_insert_eq|done|].
    pose proof (others_run_reachable w _ s5 Hrun5 Hreach4) as Hreach5.
    pose proof (reachable_invariant s5 Hreach5) as Hinv5.
    pose proof (Hn5 n (Hn3 n (Hn1 n Hn))) as Hnext5.
    destruct (inv_succ s5 Hinv5 w g5 n Hg5 Hnext5) as (Hne & Hcn & _).
    destruct (live_guard s5 n _ Hinv5 Hcn) as [gn Hgn].
    eexists. split; [unfold step; rewrite Hc5, Hgn; reflexivity|].
    mcs_simpl. split.
    + rewrite lookup_delete_ne by done. by rewrite lookup_insert_eq.
    + by rewrite lookup_delete_eq.
Qed.

(** No operation touches a guard that has been destroyed.  A guard lives
    on the stack of its thread from its constructor to the end of its
    destructor; [Enqueue] stores into the guard of the previous tail and
    [Dequeue] into the guard of the successor.  In every reachable state the
    guard a thread is about to store into exists, and so every next
    operation of every thread is defined. *)
Theorem mcs_no_dangling_guard (s : system) (w : nat) :
  reachable s →
  (∀ p, control s !! w = Some (Exchanged (Some p)) → is_Some (guards s !! p)) ∧
  (∀ n, control s !! w = Some (Handoff n) → is_Some (guards s !! n)) ∧
  is_Some (step w s).
Proof.
  intros Hs. pose proof (reachable_invariant s Hs) as Hinv.
  assert (Hlive : ∀ x c, control s !! x = Some c → is_Some (guards s !! x)).
  { intros x c Hc. destruct (live_guard s x c Hinv Hc) as [g Hg]. by exists g. }
  assert (Hprev : ∀ p, control s !! w = Some (Exchanged (Some p)) →
                       is_Some (guards s !! p)).
  { intros p Hw. destruct (inv_pred s Hinv w p Hw) as (_ & _ & Hp & _).
    destruct (control s !! p) as [c|] eqn:Hc; [by apply (Hlive p c)|done]. }
  assert (Hnext : ∀ n, control s !! w = Some (Handoff n) → is_Some (guards s !! n)).
  { intros n Hw. destruct (inv_handoff s Hinv w n Hw) as (g & Hg & Hn).
    destruct (inv_succ s Hinv w g n Hg Hn) as (_ & Hc & _).
    by apply (Hlive n AwaitOwner). }
  split; [done|]. split; [done|].
  unfold step. destruct (control s !! w) as [[| [p|] | | | | | n]|] eqn:Hw; try done.
  - destruct (Hprev p eq_refl) as [g ->]. done.
  - destruct (Hlive w _ Hw) as [g ->]. done.
  - destruct (Hlive w _ Hw) as [g ->]. done.
  - unfold Atomic.compare_exchange_strong. by case_decide.
  - destruct (Hlive w _ Hw) as [g ->]. done.
  - destruct (inv_next_seen s Hinv w Hw) as (g & n & -> & Hn). cbn. by rewrite Hn.
  - destruct (Hnext n eq_refl) as [g ->]. done.
Qed.

End MCSFacts.

(** ** The workers of the [MutualExclusion] tests *)

Module WorkerFacts.
Import Worker.

Lemma total_ext (f g : nat → nat) (n : nat) :
  (∀ i, (i < n)%nat → f i = g i) → total f n = total g n.
Proof.
  induction n as [|n IH]; intros Hfg; [done|]. cbn.
  rewrite IH by (intros; apply Hfg; lia). rewrite Hfg by lia. done.
Qed.

(** Changing the summand of one thread. *)
Lemma total_update (f g : nat → nat) (n i : nat) :
  (i < n)%nat → (∀ j, (j < n)%nat → j ≠ i → g j = f j) →
  (total g n + f i = total f n + g i)%nat.
Proof.
  induction n as [|n IH]; intros Hi Hfg; [lia|]. cbn.
  destruct (decide (i = n)) as [->|Hne].
  - rewrite (total_ext g f n) by (intros; apply Hfg; lia). lia.
  - rewrite (Hfg n) by lia.
    assert (total g n + f i = total f n + g i)%nat
      by (apply IH; [lia|intros; apply Hfg; lia]).
    lia.
Qed.

Lemma total_le (f : nat → nat) (n m : nat) :
  (∀ i, (i < n)%nat → (f i ≤ m)%nat) → (total f n ≤ n * m)%nat.
Proof.
  induction n as [|n IH]; intros Hf; [done|]. cbn.
  assert (total f n ≤ n * m)%nat by (apply IH; intros; apply Hf; lia).
  assert (f n ≤ m)%nat by (apply Hf; lia). lia.
Qed.

Lemma total_lt (f : nat → nat) (n m i : nat) :
  (i < n)%nat → (f i < m)%nat → (∀ j, (j < n)%nat → (f j ≤ m)%nat) →
  (total f n < n * m)%nat.
Proof.
  intros Hi Hlt Hf.
  pose (g := <[i := m]> f).
  assert (Hg : (total g n ≤ n * m)%nat).
  { apply total_le. intros j Hj. unfold g, insert, fn_insert.
    case_decide; [done|by apply Hf]. }
  assert (Hup : (total g n + f i = total f n + g i)%nat).
  { apply total_update; [done|]. intros j _ Hne.
    unfold g, insert, fn_insert. by case_decide. }
  assert (g i = m) by (unfold g, insert, fn_insert; by case_decide).
  lia.
Qed.

Lemma total_const (f : nat → nat) (n m : nat) :
  (∀ i, (i < n)%nat → f i = m) → total f n = (n * m)%nat.
Proof.
  induction n as [|n IH]; intros Hf; [done|]. cbn.
  rewrite IH by (intros; apply Hf; lia). rewrite Hf by lia. lia.
Qed.

Section WithLock.
Context {L A : Type} `{LockLaws L A}.
Variables num_threads increments : nat.
Hypothesis calls_bounded : calls_ok (num_threads * increments).

(** The invariant of the program: the lock's own invariant; no thread
    exceeds its iterations; a thread inside [++counter] holds the lock; the
    value a thread has loaded is still the counter; and the counter is the
    number of increments stored. *)
Record sound (s : state L) : Prop := {
  sound_lock : lock_inv (calls num_threads s) (lock s);
  sound_loop : ∀ i, (completed s i + active (phase_of (lock s) i) ≤ increments)%nat;
  sound_pc : ∀ i, at_ s i ≠ BeforeLoad → phase_of (lock s) i = Held;
  sound_loaded : ∀ i value, at_ s i = Loaded value → value = counter s;
  sound_counter :
    counter s =
    Z.of_nat (total (λ i, completed s i + stored (at_ s i))%nat num_threads);
}.

Lemma sound_start : sound (start (L := L)).
Proof.
  constructor; cbn; try done.
  - unfold calls. cbn.
    rewrite (total_const _ _ 0%nat); [rewrite Nat.mul_0_r; apply lock_inv_fresh|].
    intros i _. by rewrite (quiet_out _ _ quiet_fresh).
  - intros i. rewrite (quiet_out _ _ quiet_fresh). cbn. lia.
  - by rewrite (total_const _ _ 0%nat), Nat.mul_0_r.
Qed.

Lemma calls_le (s : state L) : sound s → (calls num_threads s ≤ num_threads * increments)%nat.
Proof. intros Hs. apply total_le. intros i _. apply (sound_loop s Hs). Qed.

(** The effect on [calls] of a step that touches thread [i] only. *)
Lemma calls_after (s s' : state L) (i : nat) :
  (i < num_threads)%nat →
  (∀ j, j ≠ i → completed s' j = completed s j ∧
                phase_of (lock s') j = phase_of (lock s) j) →
  (calls num_threads s' + (completed s i + active (phase_of (lock s) i)) =
   calls num_threads s + (completed s' i + active (phase_of (lock s') i)))%nat.
Proof.
  intros Hi Hframe. unfold calls.
  apply (total_update
           (λ j, completed s j + active (phase_of (lock s) j))%nat
           (λ j, completed s' j + active (phase_of (lock s') j))%nat); [done|].
  intros j _ Hne. destruct (Hframe j Hne) as [-> ->]. done.
Qed.

(** A lock operation that does not end a critical section. *)
Lemma sound_set_lock (s : state L) (i : nat) (a : A) (l' : L) :
  sound s → (i < num_threads)%nat → phase_of (lock s) i ≠ Held →
  (phase_of (lock s) i = Out → (completed s i < increments)%nat) →
  lock_step i a (lock s) = Some l' → sound (set_lock l' s).
Proof.
  intros Hs Hi Hnot Hguard Hl. pose proof Hs as [Hlock Hloop Hpc Hloaded Hcount].
  pose proof (phase_follows _ _ _ _ Hl) as Hfol.
  pose proof (calls_le s Hs) as Hle.
  assert (Hcalls :
    calls num_threads (set_lock l' s) =
    match phase_of (lock s) i with Out => S (calls num_threads s) | _ => calls num_threads s end).
  { pose proof (calls_after s (set_lock l' s) i Hi) as Hc. cbn in Hc.
    assert (∀ j, j ≠ i → completed s j = completed s j ∧
                         phase_of l' j = phase_of (lock s) j) as Hframe
      by (intros j Hne; split; [done|by apply (phase_frame _ _ _ _ _ Hl)]).
    specialize (Hc Hframe).
    destruct (phase_of (lock s) i), (phase_of l' i); cbn in Hfol, Hc; try done; lia. }
  constructor; cbn.
  - rewrite Hcalls. apply (lock_inv_step _ _ _ _ _ Hlock Hl).
    destruct (phase_of (lock s) i) eqn:Hph;
      try (apply (calls_ok_le _ _ Hle), calls_bounded).
    apply (calls_ok_le _ (num_threads * increments)); [|apply calls_bounded].
    assert (calls num_threads s < num_threads * increments)%nat; [|lia].
    apply (total_lt _ _ _ i); [done| |intros j _; apply Hloop].
    rewrite Hph. cbn. specialize (Hguard eq_refl). lia.
  - intros j. destruct (decide (j = i)) as [->|Hne].
    + specialize (Hloop i).
      destruct (phase_of (lock s) i) eqn:Hph, (phase_of l' i);
        cbn in Hfol, Hloop |- *; try done; try lia.
      all: specialize (Hguard eq_refl); lia.
    + rewrite (phase_frame _ _ _ _ _ Hl Hne). apply Hloop.
  - intros j Hj. destruct (decide (j = i)) as [->|Hne].
    + by destruct Hnot; apply Hpc.
    + rewrite (phase_frame _ _ _ _ _ Hl Hne). by apply Hpc.
  - done.
  - done.
Qed.

(** Every step of the program keeps the invariant. *)
Lemma sound_step (s s' : state L) (i : nat) (a : action A) :
  sound s → step num_threads increments i a s = Some s' → sound s'.
Proof.
  intros Hs Hstep. pose proof Hs as [Hlock Hloop Hpc Hloaded Hcount].
  unfold step in Hstep. case_decide as Hi; [|done].
  destruct a as [a| |].
  - (* an operation of the lock *)
    unfold in_lock in Hstep.
    destruct (phase_of (lock s) i) eqn:Hph.
    + case_decide as Hlt; [|done].
      destruct (lock_step i a (lock s)) as [l'|] eqn:Hl; [|done].
      injection Hstep as <-.
      apply (sound_set_lock s i a); [done|done|by rewrite Hph|done|done].
    + destruct (lock_step i a (lock s)) as [l'|] eqn:Hl; [|done].
      injection Hstep as <-.
      apply (sound_set_lock s i a); [done|done|by rewrite Hph|by rewrite Hph|done].
    + (* the first operation of [unlock()] *)
      destruct (at_ s i) eqn:Hat; try done.
      destruct (lock_step i a (lock s)) as [l'|] eqn:Hl; [|done].
      injection Hstep as <-.
      pose proof (phase_follows _ _ _ _ Hl) as Hfol. rewrite Hph in Hfol.
      pose proof (calls_le s Hs) as Hle.
      set (s' := {| lock := l'; counter := counter s;
                    completed := <[i:=S (completed s i)]> (completed s);
                    at_ := <[i:=BeforeLoad]> (at_ s) |}).
      assert (Hcalls : calls num_threads s' = calls num_threads s).
      { pose proof (calls_after s s' i Hi) as Hc. cbn in Hc.
        rewrite fn_lookup_insert, Hph in Hc.
        assert (∀ j, j ≠ i →
                  <[i:=S (completed s i)]> (completed s) j = completed s j ∧
                  phase_of l' j = phase_of (lock s) j) as Hframe.
        { intros j Hne. split; [by rewrite fn_lookup_insert_ne|].
          by apply (phase_frame _ _ _ _ _ Hl). }
        specialize (Hc Hframe).
        destruct (phase_of l' i); cbn in Hfol, Hc; try done; lia. }
      constructor; cbn.
      * rewrite Hcalls.
        pose proof (lock_inv_step _ _ _ _ _ Hlock Hl) as Hinv. rewrite Hph in Hinv.
        apply Hinv, (calls_ok_le _ _ Hle), calls_bounded.
      * intros j. destruct (decide (j = i)) as [->|Hne].
        -- rewrite fn_lookup_insert. specialize (Hloop i). rewrite Hph in Hloop.
           destruct (phase_of l' i); cbn in Hfol, Hloop |- *; try done; lia.
        -- rewrite fn_lookup_insert_ne by done.
           rewrite (phase_frame _ _ _ _ _ Hl Hne). apply Hloop.
      * intros j. destruct (decide (j = i)) as [->|Hne].
        -- by rewrite fn_lookup_insert.
        -- rewrite fn_lookup_insert_ne by done. intros Hj.
           rewrite (phase_frame _ _ _ _ _ Hl Hne). by apply Hpc.
      * intros j value. destruct (decide (j = i)) as [->|Hne].
        -- by rewrite fn_lookup_insert.
        -- rewrite fn_lookup_insert_ne by done. apply Hloaded.
      * rewrite Hcount. f_equal. apply total_ext. intros j _.
        destruct (decide (j = i)) as [->|Hne].
        -- rewrite !fn_lookup_insert, Hat. cbn. lia.
        -- by rewrite !fn_lookup_insert_ne.
    + destruct (lock_step i a (lock s)) as [l'|] eqn:Hl; [|done].
      injection Hstep as <-.
      apply (sound_set_lock s i a); [done|done|by rewrite Hph|by rewrite Hph|done].
  - (* the load of [++counter] *)
    unfold load in Hstep.
    destruct (phase_of (lock s) i) eqn:Hph; try done.
    destruct (at_ s i) eqn:Hat; try done.
    injection Hstep as <-. constructor; cbn; try done.
    + intros j. destruct (decide (j = i)) as [->|Hne]; [done|].
      rewrite fn_lookup_insert_ne by done. apply Hpc.
    + intros j value. destruct (decide (j = i)) as [->|Hne].
      * rewrite fn_lookup_insert. by intros [= <-].
      * rewrite fn_lookup_insert_ne by done. apply Hloaded.
    + rewrite Hcount. f_equal. apply total_ext. intros j _.
      destruct (decide (j = i)) as [->|Hne].
      * by rewrite fn_lookup_insert, Hat.
      * by rewrite fn_lookup_insert_ne.
  - (* the store of [++counter] *)
    unfold store in Hstep.
    destruct (phase_of (lock s) i) eqn:Hph; try done.
    destruct (at_ s i) as [|value|] eqn:Hat; try done.
    case_decide as Hmax; [|done].
    injection Hstep as <-.
    pose proof (Hloaded i value Hat) as ->.
    constructor; cbn; try done.
    + intros j. destruct (decide (j = i)) as [->|Hne]; [done|].
      rewrite fn_lookup_insert_ne by done. apply Hpc.
    + intros j value. destruct (decide (j = i)) as [->|Hne].
      * by rewrite fn_lookup_insert.
      * rewrite fn_lookup_insert_ne by done. intros Hj.
        destruct Hne.
        apply (exclusive _ _ _ _ Hlock); [|done].
        apply Hpc. by rewrite Hj.
    + pose proof (total_update
                    (λ j, completed s j + stored (at_ s j))%nat
                    (λ j, completed s j + stored (<[i:=Stored]> (at_ s) j))%nat
                    num_threads i Hi) as Hup.
      cbn in Hup. rewrite fn_lookup_insert, Hat in Hup. cbn in Hup.
      rewrite Hcount.
      assert (∀ j, (j < num_threads)%nat → j ≠ i →
                (completed s j + stored (<[i:=Stored]> (at_ s) j) =
                 completed s j + stored (at_ s j))%nat) as Hframe
        by (intros j _ Hne; by rewrite fn_lookup_insert_ne).
      specialize (Hup Hframe). lia.
Qed.

Lemma reachable_sound (s : state L) :
  reachable num_threads increments s → sound s.
Proof.
  induction 1 as [|s i a s' _ IH Hstep]; [apply sound_start|].
  by apply (sound_step s s' i a).
Qed.

Lemma exec_reachable (schedule : list (nat * action A)) (s s' : state L) :
  reachable num_threads increments s →
  exec num_threads increments schedule s = Some s' →
  reachable num_threads increments s'.
Proof.
  revert s. induction schedule as [|[i a] rest IH]; intros s Hs; simpl.
  - by intros [= <-].
  - destruct (step num_threads increments i a s) as [s1|] eqn:Hstep; [|done]. cbn.
    apply IH. by apply (reachable_step _ _ s i a).
Qed.

Lemma exec_app (xs ys : list (nat * action A)) (s : state L) :
  exec num_threads increments (xs ++ ys) s =
  exec num_threads increments xs s ≫= exec num_threads increments ys.
Proof.
  revert s. induction xs as [|[i a] xs IH]; intros s; [done|]. cbn.
  destruct (step num_threads increments i a s) as [s1|]; [|done]. cbn. apply IH.
Qed.

Lemma set_lock_same (s : state L) : set_lock (lock s) s = s.
Proof. by destruct s. Qed.

(** The operations of an uncontended [lock()], as steps of the program. *)
Lemma acquire_exec (i : nat) (acts : list A) (s : state L) (l1 : L) :
  (i < num_threads)%nat → (completed s i < increments)%nat →
  acquire i acts (lock s) = Some l1 →
  exec num_threads increments ((λ a, (i, InLock a)) <$> acts) s = Some (set_lock l1 s) ∧
  phase_of l1 i = Held.
Proof.
  intros Hi Hlt. revert s Hlt. induction acts as [|a rest IH]; intros s Hlt; cbn.
  - destruct (phase_of (lock s) i) eqn:Hph; try done.
    intros [= <-]. by rewrite set_lock_same.
  - unfold step, in_lock. rewrite decide_True by done.
    destruct (phase_of (lock s) i) eqn:Hph; try done.
    all: rewrite ?decide_True by done.
    all: destruct (lock_step i a (lock s)) as [l'|] eqn:Hl; [|done]; cbn.
    all: intros Hacq; by apply (IH (set_lock l' s)).
Qed.

(** The operations of an uncontended [unlock()] after the first. *)
Lemma finish_exec (i : nat) (acts : list A) (s : state L) (l2 : L) :
  (i < num_threads)%nat → finish i acts (lock s) = Some l2 →
  exec num_threads increments ((λ a, (i, InLock a)) <$> acts) s = Some (set_lock l2 s).
Proof.
  intros Hi. revert s. induction acts as [|a rest IH]; intros s; cbn.
  - destruct (phase_of (lock s) i) eqn:Hph; try done.
    intros [= <-]. by rewrite set_lock_same.
  - unfold step, in_lock. rewrite decide_True by done.
    destruct (phase_of (lock s) i) eqn:Hph; try done.
    destruct (lock_step i a (lock s)) as [l'|] eqn:Hl; [|done]; cbn.
    intros Hfin. by apply (IH (set_lock l' s)).
Qed.

(** One iteration of one thread, from a quiet lock to a quiet lock. *)
Lemma iteration_exec (i : nat) (s : state L) :
  quiet (lock s) → (i < num_threads)%nat → (completed s i < increments)%nat →
  (∀ j, at_ s j = BeforeLoad) → counter s < INT_MAX →
  ∃ s', exec num_threads increments (iteration_alone i) s = Some s' ∧
        quiet (lock s') ∧ counter s' = counter s + 1 ∧
        completed s' = <[i := S (completed s i)]> (completed s) ∧
        (∀ j, at_ s' j = BeforeLoad).
Proof.
  intros Hquiet Hi Hlt Hat Hmax.
  destruct (quiet_round (lock s) i Hquiet) as (l1 & l2 & Hacq & Hrel & Hquiet2).
  destruct (acquire_exec i acquire_alone s l1 Hi Hlt Hacq) as [Hexec1 Hheld].
  unfold release in Hrel.
  destruct release_alone as [|a rest] eqn:Hacts; [done|].
  rewrite Hheld in Hrel.
  destruct (lock_step i a l1) as [l'|] eqn:Hl; [|done]. cbn in Hrel.
  set (s4 := {| lock := l'; counter := counter s + 1;
                completed := <[i := S (completed s i)]> (completed s);
                at_ := <[i := BeforeLoad]>
                         (<[i := Stored]> (<[i := Loaded (counter s)]> (at_ s))) |}).
  pose proof (finish_exec i rest s4 l2 Hi Hrel) as Hexec4.
  set (s2 := {| lock := l1; counter := counter s; completed := completed s;
                at_ := <[i := Loaded (counter s)]> (at_ s) |}).
  set (s3 := {| lock := l1; counter := counter s + 1; completed := completed s;
                at_ := <[i := Stored]> (<[i := Loaded (counter s)]> (at_ s)) |}).
  assert (Hload : step num_threads increments i Load (set_lock l1 s) = Some s2).
  { unfold step, load. rewrite decide_True by done. cbn. by rewrite Hheld, Hat. }
  assert (Hstore : step num_threads increments i Store s2 = Some s3).
  { unfold step, store. rewrite decide_True by done. cbn.
    rewrite Hheld, fn_lookup_insert. by rewrite decide_True. }
  assert (Hunlock : step num_threads increments i (InLock a) s3 = Some s4).
  { unfold step, in_lock. rewrite decide_True by done. cbn.
    by rewrite Hheld, fn_lookup_insert, Hl. }
  exists (set_lock l2 s4). split; [|split; [done|split; [done|split; [done|]]]].
  - unfold iteration_alone. rewrite Hacts.
    rewrite exec_app, Hexec1. cbn [mbind option_bind].
    rewrite exec_app. cbn [exec].
    rewrite Hload. cbn [mbind option_bind]. rewrite Hstore. cbn [mbind option_bind].
    cbn [fmap list_fmap exec]. rewrite Hunlock. cbn [mbind option_bind].
    exact Hexec4.
  - intros j. cbn. unfold insert, fn_insert. repeat case_decide; done.
Qed.

(** [n] more iterations of one thread. *)
Lemma iterations_exec (i n : nat) (s : state L) :
  quiet (lock s) → (i < num_threads)%nat → (completed s i + n ≤ increments)%nat →
  (∀ j, at_ s j = BeforeLoad) → counter s + Z.of_nat n ≤ INT_MAX →
  ∃ s', exec num_threads increments (mjoin (replicate n (iteration_alone i))) s = Some s' ∧
        quiet (lock s') ∧ counter s' = counter s + Z.of_nat n ∧
        completed s' i = (completed s i + n)%nat ∧
        (∀ j, j ≠ i → completed s' j = completed s j) ∧
        (∀ j, at_ s' j = BeforeLoad).
Proof.
  revert s. induction n as [|n IH]; intros s Hquiet Hi Hle Hat Hmax.
  - exists s. cbn. repeat split; try done; lia.
  - destruct (iteration_exec i s) as (s1 & Hexec1 & Hq1 & Hc1 & Hdone1 & Hat1);
      [done|done|lia|done|lia|].
    destruct (IH s1) as (s2 & Hexec2 & Hq2 & Hc2 & Hdone2 & Hothers & Hat2);
      [done|done| |done| |].
    + rewrite Hdone1, fn_lookup_insert. lia.
    + lia.
    + exists s2. cbn [replicate mjoin list_join].
      rewrite exec_app, Hexec1. cbn [mbind option_bind].
      split; [done|]. split; [done|]. split; [lia|]. split; [|split; [|done]].
      * rewrite Hdone2, Hdone1, fn_lookup_insert. lia.
      * intros j Hne. rewrite (Hothers j Hne), Hdone1.
        by rewrite fn_lookup_insert_ne.
Qed.

(** The threads [k, k + n), one after the other. *)
Lemma threads_exec (n k : nat) (s : state L) :
  quiet (lock s) → (k + n ≤ num_threads)%nat →
  (∀ j, at_ s j = BeforeLoad) →
  (∀ j, (k ≤ j)%nat → completed s j = 0%nat) →
  counter s + Z.of_nat (n * increments) ≤ INT_MAX →
  ∃ s', exec num_threads increments (mjoin (thread_alone increments <$> seq k n)) s = Some s' ∧
        quiet (lock s') ∧ counter s' = counter s + Z.of_nat (n * increments) ∧
        (∀ j, (k ≤ j < k + n)%nat → completed s' j = increments) ∧
        (∀ j, (j < k)%nat → completed s' j = completed s j) ∧
        (∀ j, (k + n ≤ j)%nat → completed s' j = 0%nat) ∧
        (∀ j, at_ s' j = BeforeLoad).
Proof.
  revert k s. induction n as [|n IH]; intros k s Hquiet Hle Hat Hzero Hmax.
  - exists s. cbn. repeat split; try done; try lia.
    intros j Hj. apply Hzero. lia.
  - destruct (iterations_exec k increments s)
      as (s1 & Hexec1 & Hq1 & Hc1 & Hdone1 & Hothers1 & Hat1);
      [done|lia|rewrite Hzero by lia; lia|done|lia|].
    destruct (IH (S k) s1) as (s2 & Hexec2 & Hq2 & Hc2 & Hdone2 & Hbelow2 & Hzero2 & Hat2);
      [done|lia|done| |lia|].
    + intros j Hj. rewrite Hothers1 by lia. apply Hzero. lia.
    + exists s2. cbn [seq fmap list_fmap mjoin list_join].
      rewrite exec_app.
      change (thread_alone increments k)
        with (mjoin (replicate increments (iteration_alone (A := A) k))).
      rewrite Hexec1. cbn [mbind option_bind].
      split; [done|]. split; [done|]. split; [lia|]. split; [|split; [|split; [|done]]].
      * intros j Hj. destruct (decide (j = k)) as [->|Hne].
        -- rewrite Hbelow2 by lia. rewrite Hdone1, Hzero by lia. lia.
        -- apply Hdone2. lia.
      * intros j Hj. rewrite Hbelow2 by lia. apply Hothers1. lia.
      * intros j Hj. apply Hzero2. lia.
Qed.

(** The program under any lock that satisfies the laws. *)
Lemma counts_exactly_from_laws :
  Z.of_nat (num_threads * increments) ≤ INT_MAX →
  counts_exactly num_threads increments.
Proof.
  intros Hmax. split.
  - intros s Hs. pose proof (reachable_sound s Hs) as Hsound.
    pose proof Hsound as [Hlock Hloop Hpc Hloaded Hcount]. split.
    + intros i j. apply (exclusive _ _ _ _ Hlock).
    + intros Hfin. rewrite Hcount. f_equal. apply total_const.
      intros i Hi. destruct (Hfin i Hi) as [Hdone Hout].
      destruct (at_ s i) eqn:Hat; cbn; try lia.
      all: assert (phase_of (lock s) i = Held) by (apply Hpc; by rewrite Hat).
      all: congruence.
  - destruct (threads_exec num_threads 0 start)
      as (s & Hexec & Hq & Hc & Hdone & _ & _ & Hat);
      [apply quiet_fresh|lia|done|done|cbn; lia|].
    exists s. split; [done|]. intros i Hi. split.
    + apply Hdone. lia.
    + by apply quiet_out.
Qed.

End WithLock.

(** Unrolling [acquire] and [release]. *)
Lemma acquire_cons `{Lockable L A} (i : nat) (a : A) (rest : list A) (l l' : L) :
  phase_of l i ≠ Held → lock_step i a l = Some l' →
  acquire i (a :: rest) l = acquire i rest l'.
Proof. intros Hph Hl. cbn. rewrite Hl. by destruct (phase_of l i). Qed.

Lemma acquire_nil `{Lockable L A} (i : nat) (l : L) :
  phase_of l i = Held → acquire i [] l = Some l.
Proof. intros Hph. cbn. by rewrite Hph. Qed.

Lemma release_last `{Lockable L A} (i : nat) (a : A) (l l' : L) :
  phase_of l i = Held → lock_step i a l = Some l' → phase_of l' i = Out →
  release i [a] l = Some l'.
Proof. intros Hph Hl Hout. unfold release. rewrite Hph, Hl. cbn. by rewrite Hout. Qed.

(** *** The TTAS spinlock satisfies the laws *)

Lemma ttas_step_is_step (i : nat) (a : TASSpinLock.action) (l l' : TASSpinLock.system) :
  ttas_step i a l = Some l' → TASSpinLock.step i a l = Some l'.
Proof. by destruct a. Qed.

Lemma ttas_step_threads (i : nat) (a : TASSpinLock.action) (l l' : TASSpinLock.system) :
  ttas_step i a l = Some l' →
  follows (ttas_phase l i) (ttas_phase l' i) ∧
  ∀ j, j ≠ i → TASSpinLock.threads l' j = TASSpinLock.threads l j.
Proof.
  destruct l as [[held] th]. unfold ttas_step, TASSpinLock.step, ttas_phase. cbn.
  destruct a as [sp| |sp|], (th i) eqn:Hi; try discriminate;
    try (destruct sp); destruct held; cbn; intros [= <-]; cbn.
  all: rewrite ?fn_lookup_insert, ?Hi.
  all: split; [done|intros j Hne; by rewrite ?fn_lookup_insert_ne].
Qed.

Lemma ttas_round (l : TASSpinLock.system) (i : nat) :
  ttas_quiet l →
  ∃ l1 l2, acquire i acquire_alone l = Some l1 ∧
           release i release_alone l1 = Some l2 ∧ ttas_quiet l2.
Proof.
  destruct l as [[held] th]. intros [Hfree Hidle]. cbn in Hfree, Hidle. subst held.
  exists {| TASSpinLock.flag := {| TASSpinLock.locked_ := true |};
            TASSpinLock.threads := <[i := TASSpinLock.Holding]> th |},
         {| TASSpinLock.flag := {| TASSpinLock.locked_ := false |};
            TASSpinLock.threads :=
              <[i := TASSpinLock.Idle]> (<[i := TASSpinLock.Holding]> th) |}.
  split; [|split; [|split; [done|]]].
  - cbn. unfold ttas_phase, TASSpinLock.step. cbn. rewrite Hidle.
    unfold TASSpinLock.TryCompareExchange, Atomic.compare_exchange_weak,
      Atomic.compare_exchange_strong. rewrite decide_True by done. cbn.
    unfold ttas_phase. cbn. by rewrite fn_lookup_insert.
  - unfold release. cbn. unfold ttas_phase, TASSpinLock.step. cbn.
    rewrite fn_lookup_insert. cbn. unfold ttas_phase. cbn.
    by rewrite fn_lookup_insert.
  - intros j. cbn. unfold insert, fn_insert. by repeat case_decide.
Qed.

Lemma ttas_lock_inv_step (k : nat) (l : TASSpinLock.system) (i : nat)
    (a : TASSpinLock.action) (l' : TASSpinLock.system) :
  TASSpinLock.exclusive l → ttas_step i a l = Some l' → TASSpinLock.exclusive l'.
Proof.
  intros Hinv Hstep.
  by apply (TASFacts.ttas_exclusive_step i a l), ttas_step_is_step.
Qed.

Lemma ttas_held_unique (l : TASSpinLock.system) (i j : nat) :
  TASSpinLock.exclusive l → ttas_phase l i = Held → ttas_phase l j = Held → i = j.
Proof.
  intros [_ Huniq]. unfold ttas_phase. intros Hi Hj. apply Huniq.
  - by destruct (TASSpinLock.threads l i).
  - by destruct (TASSpinLock.threads l j).
Qed.

Lemma ttas_phase_frame (l : TASSpinLock.system) (i : nat) (a : TASSpinLock.action)
    (l' : TASSpinLock.system) (j : nat) :
  ttas_step i a l = Some l' → j ≠ i → ttas_phase l' j = ttas_phase l j.
Proof.
  intros Hstep Hne. unfold ttas_phase.
  by rewrite (proj2 (ttas_step_threads i a l l' Hstep) j Hne).
Qed.

Lemma ttas_quiet_out (l : TASSpinLock.system) (i : nat) :
  ttas_quiet l → ttas_phase l i = Out.
Proof. intros [_ Hidle]. unfold ttas_phase. by rewrite Hidle. Qed.

#[global] Instance ttas_laws : LockLaws TASSpinLock.system TASSpinLock.action := {|
  calls_ok := λ _, True;
  lock_inv := λ _, TASSpinLock.exclusive;
  quiet := ttas_quiet;
  calls_ok_le := λ _ _ _ _, I;
  lock_inv_fresh := TASFacts.ttas_exclusive_init;
  lock_inv_step := λ k l i a l' Hinv Hstep _, ttas_lock_inv_step k l i a l' Hinv Hstep;
  phase_frame := ttas_phase_frame;
  phase_follows := λ l i a l' Hstep, proj1 (ttas_step_threads i a l l' Hstep);
  exclusive := λ _, ttas_held_unique;
  quiet_fresh := conj eq_refl (λ _, eq_refl);
  quiet_out := ttas_quiet_out;
  quiet_round := ttas_round;
|}.

(** *** The futex mutex satisfies the laws *)

Lemma mutex_step_phases (i : nat) (a : Mutex.action) (l l' : Mutex.system) :
  Mutex.step i a l = Some l' →
  follows (mutex_phase l i) (mutex_phase l' i) ∧
  ∀ j, j ≠ i → mutex_phase l' j = mutex_phase l j.
Proof.
  destruct l as [[w calls] th]. unfold Mutex.step, mutex_phase. cbn.
  unfold Mutex.FastPathLock, Mutex.SlowPathLock_announce, Mutex.UnlockFastPath,
    Mutex.CompareExchange, Mutex.Wait, Mutex.store, Mutex.WakeAll,
    Atomic.compare_exchange_strong.
  cbn.
  destruct a, (th i) eqn:Hi; try discriminate;
    repeat case_decide; repeat case_bool_decide; intros [= <-]; cbn.
  all: rewrite ?fn_lookup_insert, ?Hi.
  all: split; [done|intros j Hne; rewrite ?fn_lookup_insert_ne by done].
  all: try done.
  unfold Mutex.woken. by destruct (th j).
Qed.

Lemma mutex_phase_frame (l : Mutex.system) (i : nat) (a : Mutex.action)
    (l' : Mutex.system) (j : nat) :
  Mutex.step i a l = Some l' → j ≠ i → mutex_phase l' j = mutex_phase l j.
Proof. intros Hstep. apply (mutex_step_phases i a l l' Hstep). Qed.

Lemma mutex_quiet_out (l : Mutex.system) (i : nat) :
  mutex_quiet l → mutex_phase l i = Out.
Proof. intros [_ Hidle]. unfold mutex_phase. by rewrite Hidle. Qed.

Lemma mutex_round (l : Mutex.system) (i : nat) :
  mutex_quiet l →
  ∃ l1 l2, acquire i acquire_alone l = Some l1 ∧
           release i release_alone l1 = Some l2 ∧ mutex_quiet l2.
Proof.
  destruct l as [[w calls] th]. intros [Hfree Hidle]. cbn in Hfree, Hidle. subst w.
  exists {| Mutex.mutex := {| Mutex.lock_ := Mutex.State.LockedNoWaiters;
                              Mutex.syscalls := calls |};
            Mutex.threads := <[i := Mutex.Holding]> th |},
         {| Mutex.mutex := {| Mutex.lock_ := Mutex.State.Unlocked;
                              Mutex.syscalls := calls |};
            Mutex.threads := <[i := Mutex.Idle]> (<[i := Mutex.Holding]> th) |}.
  split; [|split; [|split; [done|]]].
  - cbn. unfold mutex_phase, Mutex.step. cbn. rewrite Hidle.
    unfold Mutex.FastPathLock, Mutex.CompareExchange, Atomic.compare_exchange_strong.
    cbn. rewrite decide_True by done. cbn.
    unfold mutex_phase. cbn. by rewrite fn_lookup_insert.
  - unfold release. cbn. unfold mutex_phase, Mutex.step. cbn.
    rewrite fn_lookup_insert.
    unfold Mutex.UnlockFastPath, Mutex.CompareExchange, Atomic.compare_exchange_strong.
    cbn. rewrite decide_True by done. cbn.
    unfold mutex_phase. cbn. by rewrite fn_lookup_insert.
  - intros j. cbn. unfold insert, fn_insert. by repeat case_decide.
Qed.

Lemma mutex_held_unique (l : Mutex.system) (i j : nat) :
  Mutex.exclusive l → mutex_phase l i = Held → mutex_phase l j = Held → i = j.
Proof.
  intros (_ & _ & Huniq). unfold mutex_phase. intros Hi Hj. apply Huniq.
  - by destruct (Mutex.threads l i).
  - by destruct (Mutex.threads l j).
Qed.

#[global] Instance mutex_laws : LockLaws Mutex.system Mutex.action := {|
  calls_ok := λ _, True;
  lock_inv := λ _, Mutex.exclusive;
  quiet := mutex_quiet;
  calls_ok_le := λ _ _ _ _, I;
  lock_inv_fresh := MutexFacts.mutex_exclusive_init;
  lock_inv_step := λ k l i a l' Hinv Hstep _,
    MutexFacts.mutex_exclusive_step i a l l' Hinv Hstep;
  phase_frame := mutex_phase_frame;
  phase_follows := λ l i a l' Hstep, proj1 (mutex_step_phases i a l l' Hstep);
  exclusive := λ _, mutex_held_unique;
  quiet_fresh := conj eq_refl (λ _, eq_refl);
  quiet_out := mutex_quiet_out;
  quiet_round := mutex_round;
|}.

(** *** The ticket lock satisfies the laws *)

Lemma ticket_step_is_step (i : nat) (a : TicketLock.action) (l l' : TicketLock.system) :
  ticket_step i a l = Some l' → TicketLock.step i a l = Some l'.
Proof. by destruct a. Qed.

Lemma ticket_step_threads (i : nat) (a : TicketLock.action) (l l' : TicketLock.system) :
  ticket_step i a l = Some l' →
  follows (ticket_phase l i) (ticket_phase l' i) ∧
  (∀ j, j ≠ i → TicketLock.threads l' j = TicketLock.threads l j) ∧
  (ticket_phase l i ≠ Out →
   TicketLock.next_free_ticket_ (TicketLock.lock l') =
   TicketLock.next_free_ticket_ (TicketLock.lock l)).
Proof.
  destruct l as [[next owner] th]. unfold ticket_step, TicketLock.step, ticket_phase. cbn.
  destruct a, (th i) as [|tk|cur|tk] eqn:Hi; try discriminate; cbn.
  - intros [= <-]. cbn. rewrite fn_lookup_insert.
    split; [done|]. split; [|done]. intros j Hne. by rewrite fn_lookup_insert_ne.
  - destruct (TicketLock.lock_must_spin tk _); intros [= <-]; cbn.
    + rewrite Hi. by split.
    + rewrite fn_lookup_insert.
      split; [done|]. split; [|done]. intros j Hne. by rewrite fn_lookup_insert_ne.
  - intros [= <-]. cbn. rewrite fn_lookup_insert.
    split; [done|]. split; [|done]. intros j Hne. by rewrite fn_lookup_insert_ne.
Qed.

Lemma ticket_phase_frame (l : TicketLock.system) (i : nat) (a : TicketLock.action)
    (l' : TicketLock.system) (j : nat) :
  ticket_step i a l = Some l' → j ≠ i → ticket_phase l' j = ticket_phase l j.
Proof.
  intros Hstep Hne. unfold ticket_phase.
  destruct (ticket_step_threads i a l l' Hstep) as (_ & Hframe & _).
  by rewrite (Hframe j Hne).
Qed.

Lemma ticket_lock_inv_step (k : nat) (l : TicketLock.system) (i : nat)
    (a : TicketLock.action) (l' : TicketLock.system) :
  TicketLock.tickets_consistent k l → ticket_step i a l = Some l' →
  ticket_calls_ok (match ticket_phase l i with Out => S k | _ => k end) →
  TicketLock.tickets_consistent (match ticket_phase l i with Out => S k | _ => k end) l'.
Proof.
  intros Hinv Hstep Hok.
  destruct (ticket_step_threads i a l l' Hstep) as (_ & _ & Hnext).
  apply ticket_step_is_step in Hstep. unfold ticket_calls_ok in Hok.
  destruct (ticket_phase l i) eqn:Hph.
  - apply (TicketFacts.consistent_step k l l' i a); [lia|done|done].
  - pose proof (TicketFacts.consistent_step k l l' i a Hok Hinv Hstep) as Hinv'.
    destruct Hinv as (_ & _ & Hle & _). destruct Hinv' as (?&?&?&?).
    split; [done|]. split; [done|]. split; [|done].
    rewrite Hnext by done. exact Hle.
  - pose proof (TicketFacts.consistent_step k l l' i a Hok Hinv Hstep) as Hinv'.
    destruct Hinv as (_ & _ & Hle & _). destruct Hinv' as (?&?&?&?).
    split; [done|]. split; [done|]. split; [|done].
    rewrite Hnext by done. exact Hle.
  - pose proof (TicketFacts.consistent_step k l l' i a Hok Hinv Hstep) as Hinv'.
    destruct Hinv as (_ & _ & Hle & _). destruct Hinv' as (?&?&?&?).
    split; [done|]. split; [done|]. split; [|done].
    rewrite Hnext by done. exact Hle.
Qed.

Lemma ticket_held_unique (k : nat) (l : TicketLock.system) (i j : nat) :
  TicketLock.tickets_consistent k l →
  ticket_phase l i = Held → ticket_phase l j = Held → i = j.
Proof.
  intros (_ & _ & _ & _ & Huniq & Hhold & _). unfold ticket_phase. intros Hi Hj.
  destruct (TicketLock.threads l i) as [| | |ti] eqn:Hti; try done.
  destruct (TicketLock.threads l j) as [| | |tj] eqn:Htj; try done.
  pose proof (Hhold i ti Hti) as ->. pose proof (Hhold j tj Htj) as ->.
  apply (Huniq i j (TicketLock.owner_ticket_ (TicketLock.lock l)));
    [by rewrite Hti|by rewrite Htj].
Qed.

Lemma ticket_quiet_out (l : TicketLock.system) (i : nat) :
  ticket_quiet l → ticket_phase l i = Out.
Proof. intros [_ Hidle]. unfold ticket_phase. by rewrite Hidle. Qed.

Lemma ticket_round (l : TicketLock.system) (i : nat) :
  ticket_quiet l →
  ∃ l1 l2, acquire i acquire_alone l = Some l1 ∧
           release i release_alone l1 = Some l2 ∧ ticket_quiet l2.
Proof.
  destruct l as [[next owner] th]. intros [Hfree Hidle]. cbn in Hfree, Hidle. subst next.
  exists {| TicketLock.lock := {| TicketLock.next_free_ticket_ := U64.add owner 1;
                                  TicketLock.owner_ticket_ := owner |};
            TicketLock.threads :=
              <[i := TicketLock.Holding owner]> (<[i := TicketLock.Spinning owner]> th) |},
         {| TicketLock.lock := {| TicketLock.next_free_ticket_ := U64.add owner 1;
                                  TicketLock.owner_ticket_ := U64.add owner 1 |};
            TicketLock.threads :=
              <[i := TicketLock.Idle]>
                (<[i := TicketLock.Holding owner]>
                   (<[i := TicketLock.Spinning owner]> th)) |}.
  split; [|split; [|split; [done|]]].
  - cbn. unfold ticket_phase, TicketLock.step. cbn. rewrite Hidle. cbn.
    unfold ticket_phase. cbn. rewrite ?fn_lookup_insert. cbn.
    rewrite ?fn_lookup_insert.
    unfold TicketLock.lock_must_spin. cbn. rewrite bool_decide_eq_false_2 by (by intros []).
    cbn. unfold ticket_phase. cbn. by rewrite fn_lookup_insert.
  - unfold release. cbn. unfold ticket_phase, TicketLock.step. cbn.
    rewrite fn_lookup_insert. cbn. unfold ticket_phase. cbn.
    by rewrite fn_lookup_insert.
  - intros j. cbn. unfold insert, fn_insert. by repeat case_decide.
Qed.

#[global] Instance ticket_laws : LockLaws TicketLock.system TicketLock.action := {|
  calls_ok := ticket_calls_ok;
  lock_inv := TicketLock.tickets_consistent;
  quiet := ticket_quiet;
  calls_ok_le := λ k k' Hle Hok, Z.le_lt_trans _ _ _ (proj1 (Nat2Z.inj_le _ _) (le_n_S _ _ Hle)) Hok;
  lock_inv_fresh := TicketFacts.consistent_init;
  lock_inv_step := ticket_lock_inv_step;
  phase_frame := ticket_phase_frame;
  phase_follows := λ l i a l' Hstep, proj1 (ticket_step_threads i a l l' Hstep);
  exclusive := ticket_held_unique;
  quiet_fresh := conj eq_refl (λ _, eq_refl);
  quiet_out := ticket_quiet_out;
  quiet_round := ticket_round;
|}.

(** *** The queue spinlock satisfies the laws *)

Lemma mcs_step_control (i : nat) (l l' : QueueSpinLock.system) :
  QueueSpinLock.step i l = Some l' →
  follows (mcs_phase l i) (mcs_phase l' i) ∧
  ∀ j, j ≠ i → QueueSpinLock.control l' !! j = QueueSpinLock.control l !! j.
Proof.
  unfold QueueSpinLock.step, mcs_phase, Atomic.compare_exchange_strong.
  destruct (QueueSpinLock.control l !! i) as [[| [p|] | | | | | n]|] eqn:Hi; cbn.
  all: repeat match goal with
         | |- context [QueueSpinLock.guards ?s !! ?x] =>
             destruct (QueueSpinLock.guards s !! x) as [?g|]; cbn; [|done]
         | |- context [QueueSpinLock.is_owner_ ?g] =>
             destruct (QueueSpinLock.is_owner_ g); cbn
         | |- context [QueueSpinLock.next_ ?g] =>
             destruct (QueueSpinLock.next_ g); cbn
         | |- context [decide ?P] => destruct (decide P); cbn
         end.
  all: try done.
  all: intros [= <-]; cbn.
  all: rewrite ?lookup_insert_eq, ?lookup_delete_eq, ?Hi.
  all: split; [done|intros j Hne].
  all: by rewrite ?lookup_insert_ne, ?lookup_delete_ne.
Qed.

Lemma mcs_phase_frame (l : QueueSpinLock.system) (i : nat) (a : unit)
    (l' : QueueSpinLock.system) (j : nat) :
  QueueSpinLock.step i l = Some l' → j ≠ i → mcs_phase l' j = mcs_phase l j.
Proof.
  intros Hstep Hne. unfold mcs_phase.
  by rewrite (proj2 (mcs_step_control i l l' Hstep) j Hne).
Qed.

Lemma mcs_held_unique (l : QueueSpinLock.system) (i j : nat) :
  QueueSpinLock.reachable l → mcs_phase l i = Held → mcs_phase l j = Held → i = j.
Proof.
  intros Hl. unfold mcs_phase. intros Hi Hj.
  apply (MCSFacts.owner_unique l i j Hl).
  - by destruct (QueueSpinLock.control l !! i) as [[]|].
  - by destruct (QueueSpinLock.control l !! j) as [[]|].
Qed.

Lemma mcs_quiet_out (l : QueueSpinLock.system) (i : nat) :
  mcs_quiet l → mcs_phase l i = Out.
Proof. intros (_ & _ & Hctl). unfold mcs_phase. by rewrite Hctl, lookup_empty. Qed.

Lemma mcs_round (l : QueueSpinLock.system) (i : nat) :
  mcs_quiet l →
  ∃ l1 l2, acquire i acquire_alone l = Some l1 ∧
           release i release_alone l1 = Some l2 ∧ mcs_quiet l2.
Proof.
  destruct l as [tl gs ctl enq]. intros (Htl & Hgs & Hctl). cbn in Htl, Hgs, Hctl. subst.
  set (g0 := {| QueueSpinLock.next_ := None; QueueSpinLock.is_owner_ := false |}).
  set (g1 := {| QueueSpinLock.next_ := None; QueueSpinLock.is_owner_ := true |}).
  set (c3 := <[i := QueueSpinLock.AwaitOwner]>
               (<[i := QueueSpinLock.Exchanged None]>
                  (<[i := QueueSpinLock.Constructed]> (∅ : gmap nat QueueSpinLock.pc)))).
  set (gs3 := <[i := g1]> (<[i := g0]> (∅ : gmap nat QueueSpinLock.Guard))).
  exists {| QueueSpinLock.tail_ := Some i; QueueSpinLock.guards := gs3;
            QueueSpinLock.control := <[i := QueueSpinLock.Owner]> c3;
            QueueSpinLock.enqueued := enq ++ [i] |},
         {| QueueSpinLock.tail_ := None; QueueSpinLock.guards := delete i gs3;
            QueueSpinLock.control := delete i (<[i := QueueSpinLock.Owner]> c3);
            QueueSpinLock.enqueued := enq ++ [i] |}.
  split; [|split].
  - unfold acquire_alone. cbn [mcs_lockable].
    rewrite (acquire_cons i () _ _
               {| QueueSpinLock.tail_ := None;
                  QueueSpinLock.guards := <[i := g0]> ∅;
                  QueueSpinLock.control := <[i := QueueSpinLock.Constructed]> ∅;
                  QueueSpinLock.enqueued := enq |}).
    2: { cbn. unfold mcs_phase. cbn. by rewrite lookup_empty. }
    2: { cbn. unfold QueueSpinLock.step. cbn. by rewrite lookup_empty. }
    rewrite (acquire_cons i () _ _
               {| QueueSpinLock.tail_ := Some i;
                  QueueSpinLock.guards := <[i := g0]> ∅;
                  QueueSpinLock.control :=
                    <[i := QueueSpinLock.Exchanged None]>
                      (<[i := QueueSpinLock.Constructed]> ∅);
                  QueueSpinLock.enqueued := enq ++ [i] |}).
    2: { cbn. unfold mcs_phase. cbn. by rewrite lookup_insert_eq. }
    2: { cbn. unfold QueueSpinLock.step. cbn. by rewrite lookup_insert_eq. }
    rewrite (acquire_cons i () _ _
               {| QueueSpinLock.tail_ := Some i;
                  QueueSpinLock.guards := gs3;
                  QueueSpinLock.control := c3;
                  QueueSpinLock.enqueued := enq ++ [i] |}).
    2: { cbn. unfold mcs_phase. cbn. by rewrite lookup_insert_eq. }
    2: { cbn. unfold QueueSpinLock.step. cbn. by rewrite !lookup_insert_eq. }
    rewrite (acquire_cons i () _ _
               {| QueueSpinLock.tail_ := Some i;
                  QueueSpinLock.guards := gs3;
                  QueueSpinLock.control := <[i := QueueSpinLock.Owner]> c3;
                  QueueSpinLock.enqueued := enq ++ [i] |}).
    2: { cbn. unfold mcs_phase, c3. cbn. by rewrite lookup_insert_eq. }
    2: { cbn. unfold QueueSpinLock.step, c3, gs3. cbn. by rewrite !lookup_insert_eq. }
    apply acquire_nil. cbn. unfold mcs_phase. cbn. by rewrite lookup_insert_eq.
  - apply release_last.
    + cbn. unfold mcs_phase. cbn. by rewrite lookup_insert_eq.
    + cbn. unfold QueueSpinLock.step. cbn. rewrite lookup_insert_eq.
      unfold Atomic.compare_exchange_strong. by rewrite decide_True.
    + cbn. unfold mcs_phase. cbn. by rewrite lookup_delete_eq.
  - split; [done|]. cbn. split.
    + apply map_eq. intros j. unfold gs3.
      rewrite lookup_delete, !lookup_insert, lookup_empty. by repeat case_decide.
    + apply map_eq. intros j. unfold c3.
      rewrite lookup_delete, !lookup_insert, lookup_empty. by repeat case_decide.
Qed.

#[global] Instance mcs_laws : LockLaws QueueSpinLock.system unit := {|
  calls_ok := λ _, True;
  lock_inv := λ _, QueueSpinLock.reachable;
  quiet := mcs_quiet;
  calls_ok_le := λ _ _ _ _, I;
  lock_inv_fresh := QueueSpinLock.reachable_init;
  lock_inv_step := λ k l i a l' Hinv Hstep _,
    QueueSpinLock.reachable_step l i l' Hinv Hstep;
  phase_frame := mcs_phase_frame;
  phase_follows := λ l i a l' Hstep, proj1 (mcs_step_control i l l' Hstep);
  exclusive := λ _, mcs_held_unique;
  quiet_fresh := conj eq_refl (conj eq_refl eq_refl);
  quiet_out := mcs_quiet_out;
  quiet_round := mcs_round;
|}.

(** *** The four counters *)

(** The [MutualExclusion] test of the TTAS spinlock, for any number of
    threads and of increments whose product fits an [int], one step per
    atomic operation of the lock and per load or store of the counter, in
    any interleaving and with any spurious failures of the weak
    compare-exchange: two threads are never both in the critical section;
    whenever all threads have left their loops the counter is
    [num_threads * increments]; and the program has a run to that end. *)
Theorem ttas_counter_exact (num_threads increments : nat) :
  Z.of_nat (num_threads * increments) ≤ INT_MAX →
  counts_exactly (L := TASSpinLock.system) num_threads increments.
Proof. intros Hmax. by apply counts_exactly_from_laws. Qed.

(** The same for the ticket lock. *)
Theorem ticket_counter_exact (num_threads increments : nat) :
  Z.of_nat (num_threads * increments) ≤ INT_MAX →
  counts_exactly (L := TicketLock.system) num_threads increments.
Proof.
  intros Hmax. apply counts_exactly_from_laws; [|done].
  cbn. unfold ticket_calls_ok, U64.modulus. unfold INT_MAX in Hmax. lia.
Qed.

(** The same for the futex mutex, a thread that called [os::futex::Wait]
    resuming at any later step. *)
Theorem mutex_counter_exact (num_threads increments : nat) :
  Z.of_nat (num_threads * increments) ≤ INT_MAX →
  counts_exactly (L := Mutex.system) num_threads increments.
Proof. intros Hmax. by apply counts_exactly_from_laws. Qed.

(** The same for the queue spinlock, each thread constructing and
    destroying one [Guard] per iteration. *)
Theorem mcs_counter_exact (num_threads increments : nat) :
  Z.of_nat (num_threads * increments) ≤ INT_MAX →
  counts_exactly (L := QueueSpinLock.system) num_threads increments.
Proof. intros Hmax. by apply counts_exactly_from_laws. Qed.

(** C1. Each of the four locks (TTAS spinlock, ticket lock, queue
    spinlock, futex mutex) protects the counter of the [MutualExclusion]
    test: [num_threads] threads each increment the shared [int counter]
    [increments] times, each increment between [lock()] and [unlock()] (or
    in the scope of a [Guard]) and with no other synchronization.  With one
    step per atomic operation of the lock and per load or store of the
    counter, in any interleaving: two threads are never both in the
    critical section; whenever all threads have left their loops the
    counter is exactly [num_threads * increments]; and the program has a
    run to that end.  The product is one an [int] can hold. *)
Theorem locks_count_exactly (num_threads increments : nat) :
  Z.of_nat (num_threads * increments) ≤ INT_MAX →
  counts_exactly (L := TASSpinLock.system) num_threads increments ∧
  counts_exactly (L := TicketLock.system) num_threads increments ∧
  counts_exactly (L := QueueSpinLock.system) num_threads increments ∧
  counts_exactly (L := Mutex.system) num_threads increments.
Proof.
  intros Hmax. split; [|split; [|split]].
  - by apply counts_exactly_from_laws.
  - apply counts_exactly_from_laws; [|done].
    cbn. unfold ticket_calls_ok, U64.modulus. unfold INT_MAX in Hmax. lia.
  - by apply counts_exactly_from_laws.
  - by apply counts_exactly_from_laws.
Qed.

End WorkerFacts.

(** ** The sequential unit tests of the repository, run on the models *)

Module RepositoryTests.

(** [FastRingBufferTest.PushPopSequence], on both variants. *)
Example test_PushPopSequence :
  fst <$> FastRingBuffer.run id
            [DoPush 1; DoPush 2; DoPush 3; DoPop; DoPop; DoPush 4; DoPush 5; DoPop]
            (FastRingBuffer.new 5) =
  Ok [Pushed true; Pushed true; Pushed true; Popped (Some 1); Popped (Some 2);
      Pushed true; Pushed true; Popped (Some 3)] ∧
  fst <$> RingBuffer.run id
            [DoPush 1; DoPush 2; DoPush 3; DoPop; DoPop; DoPush 4; DoPush 5; DoPop]
            (RingBuffer.new 5) =
  Ok [Pushed true; Pushed true; Pushed true; Popped (Some 1); Popped (Some 2);
      Pushed true; Pushed true; Popped (Some 3)].
Proof. split; reflexivity. Qed.

(** [FastRingBufferTest.WrapAround]: capacity 5, two rounds of four. *)
Example test_WrapAround :
  fst <$> FastRingBuffer.run id
            (map DoPush [0; 1; 2; 3] ++ replicate 4 DoPop ++
             map DoPush [100; 101; 102; 103] ++ replicate 4 DoPop)
            (FastRingBuffer.new 5) =
  Ok (replicate 4 (Pushed true) ++ map (λ v, Popped (Some v)) [0; 1; 2; 3] ++
      replicate 4 (Pushed true) ++ map (λ v, Popped (Some v)) [100; 101; 102; 103]).
Proof. reflexivity. Qed.

(** [FastRingBufferTest.EmptyPop] and [FillBuffer] (capacity 10). *)
Example test_EmptyPop_FillBuffer :
  fst <$> FastRingBuffer.Pop id (FastRingBuffer.new (T:=Z) 10) = Ok None ∧
  fst <$> FastRingBuffer.run id
            (map DoPush [0; 1; 2; 3; 4; 5; 6; 7; 8] ++ [DoPush 999])
            (FastRingBuffer.new 10) =
  Ok (replicate 9 (Pushed true) ++ [Pushed false]).
Proof. split; reflexivity. Qed.

(** [TTASSpinLockTest.TryLockFailure]: [lock()], then [try_lock()] fails. *)
Example test_TTAS_TryLockFailure (spurious : bool) :
  TASSpinLock.lock [false] TASSpinLock.new = Some {| TASSpinLock.locked_ := true |} ∧
  TASSpinLock.try_lock spurious {| TASSpinLock.locked_ := true |} =
    (false, {| TASSpinLock.locked_ := true |}).
Proof. split; [reflexivity|by destruct spurious]. Qed.

(** [TicketLockTest.TryLockSuccess]: on a fresh lock [try_lock()] returns
    true; [unlock()] then makes the counters equal again. *)
Example test_Ticket_TryLockSuccess :
  TicketLock.try_lock TicketLock.new =
    (true, {| TicketLock.next_free_ticket_ := 1; TicketLock.owner_ticket_ := 0 |}) ∧
  TicketLock.unlock (TicketLock.try_lock TicketLock.new).2 =
    {| TicketLock.next_free_ticket_ := 1; TicketLock.owner_ticket_ := 1 |}.
Proof. split; reflexivity. Qed.

(** [TicketLockTest.TryLockFailure]: [lock()] draws ticket 0 and does not
    spin; [try_lock()] by the holder then fails and changes nothing. *)
Example test_Ticket_TryLockFailure :
  TicketLock.lock_draw TicketLock.new =
    (0, {| TicketLock.next_free_ticket_ := 1; TicketLock.owner_ticket_ := 0 |}) ∧
  TicketLock.lock_must_spin 0 (TicketLock.lock_draw TicketLock.new).2 = false ∧
  TicketLock.try_lock (TicketLock.lock_draw TicketLock.new).2 =
    (false, (TicketLock.lock_draw TicketLock.new).2).
Proof. repeat split; reflexivity. Qed.

(** [MutexTest.BasicLockUnlock]: the fast paths, no system call. *)
Example test_Mutex_BasicLockUnlock :
  Mutex.FastPathLock Mutex.new =
    (true, {| Mutex.lock_ := Mutex.State.LockedNoWaiters; Mutex.syscalls := [] |}) ∧
  Mutex.unlock (Mutex.FastPathLock Mutex.new).2 = (tt, Mutex.new).
Proof. split; reflexivity. Qed.

(** [MCSSpinlockTest.SequentialLocks]: a guard is constructed, owns the
    lock after four steps of its thread and is gone after the fifth; a
    second guard at the same address does the same. *)
Example test_MCS_SequentialLocks :
  (s ← QueueSpinLock.exec [0; 0; 0; 0]%nat QueueSpinLock.init;
   QueueSpinLock.control s !! 0%nat) = Some QueueSpinLock.Owner ∧
  QueueSpinLock.exec [0; 0; 0; 0; 0]%nat QueueSpinLock.init =
    Some {| QueueSpinLock.tail_ := None; QueueSpinLock.guards := ∅;
            QueueSpinLock.control := ∅; QueueSpinLock.enqueued := [0%nat] |} ∧
  QueueSpinLock.exec (replicate 10 0%nat) QueueSpinLock.init =
    Some {| QueueSpinLock.tail_ := None; QueueSpinLock.guards := ∅;
            QueueSpinLock.control := ∅; QueueSpinLock.enqueued := [0%nat; 0%nat] |}.
Proof. repeat split; by vm_compute. Qed.

End RepositoryTests.

(** ** The theorems above at concrete inputs *)

Module Witnesses.
Import Scenarios.

Lemma full3_reachable : RingBuffer.reachable id 3 full3.
Proof. by exists [DoPush 1; DoPush 2], [Pushed true; Pushed true]. Qed.

Lemma failure_iff_full_or_empty_witness :
  (∃ ok rb', RingBuffer.Push 7 full3 = Ok (ok, rb') ∧
     (ok = false ↔
        (RingBuffer.writeIdx_ full3 + 1) mod 3 = RingBuffer.readIdx_ full3) ∧
     (ok = false → rb' = full3)) ∧
  (∃ r rb', RingBuffer.Pop id full3 = Ok (r, rb') ∧
     (r = None ↔ RingBuffer.readIdx_ full3 = RingBuffer.writeIdx_ full3) ∧
     (r = None → rb' = full3)).
Proof.
  apply (RingFacts.failure_iff_full_or_empty id 3 full3 7).
  - split; [lia|reflexivity].
  - apply full3_reachable.
Defined.

Lemma fill_then_drain_witness :
  ∃ rb,
    RingBuffer.run id
      (map DoPush [10; 20] ++ [DoPush 30] ++
       replicate (length [10; 20]) DoPop ++ [DoPop])
      (RingBuffer.new 3) =
    Ok (replicate (length [10; 20]) (Pushed true) ++ [Pushed false] ++
        map (λ v, Popped (Some v)) [10; 20] ++ [Popped None], rb).
Proof.
  apply (RingFacts.fill_then_drain id 3 [10; 20] 30).
  - split; [lia|reflexivity].
  - reflexivity.
Defined.

Lemma fast_refines_plain_witness :
  fst <$> FastRingBuffer.run id
            [DoPush 1; DoPush 2; DoPush 3; DoPop; DoPush 4; DoPop; DoPop; DoPop]
            (FastRingBuffer.new 3) =
  fst <$> RingBuffer.run id
            [DoPush 1; DoPush 2; DoPush 3; DoPop; DoPush 4; DoPop; DoPop; DoPop]
            (RingBuffer.new 3).
Proof.
  apply (FastRingFacts.fast_refines_plain id 3).
  split; [lia|reflexivity].
Defined.

Lemma capacity_edge_cases_witness :
  (RingBuffer.Push 7 (RingBuffer.new 0) = Fault DivisionByZero ∧
   FastRingBuffer.Push 7 (FastRingBuffer.new 0) = Fault DivisionByZero) ∧
  (RingBuffer.Push 7 (RingBuffer.new 1) = Ok (false, RingBuffer.new 1) ∧
   RingBuffer.Pop id (RingBuffer.new (T:=Z) 1) = Ok (None, RingBuffer.new 1)).
Proof.
  split.
  - destruct (FastRingFacts.capacity_edge_cases id 0 7
                (RingBuffer.new 0) (FastRingBuffer.new 0)) as [H0 _].
    + split; [lia|reflexivity].
    + by exists [], [].
    + by exists [], [].
    + destruct (H0 eq_refl) as (Hp & Hf & _). by split.
  - destruct (FastRingFacts.capacity_edge_cases id 1 7
                (RingBuffer.new 1) (FastRingBuffer.new 1)) as (_ & _ & H1).
    + split; [lia|reflexivity].
    + by exists [], [].
    + by exists [], [].
    + destruct (H1 eq_refl) as (Hp & Hq & _). by split.
Defined.

(** C10 as stated (division by zero reachable in [Pop] too) fails: on a
    buffer of capacity 0, [Pop] returns the empty result, in the fresh state
    and in every state a run can reach, for both variants. *)
Lemma pop_capacity_zero_is_empty :
  RingBuffer.Pop id (RingBuffer.new (T:=Z) 0) = Ok (None, RingBuffer.new 0) ∧
  FastRingBuffer.Pop id (FastRingBuffer.new (T:=Z) 0) =
    Ok (None, FastRingBuffer.new 0) ∧
  (∀ rb : RingBuffer.t (T:=Z),
     RingBuffer.reachable id 0 rb → RingBuffer.Pop id rb = Ok (None, rb)) ∧
  (∀ rb : FastRingBuffer.t (T:=Z),
     FastRingBuffer.reachable id 0 rb → FastRingBuffer.Pop id rb = Ok (None, rb)).
Proof.
  split; [done|]. split; [done|]. split.
  - intros rb (ops & rs & Hrun).
    by apply FastRingFacts.plain_run_capacity_zero in Hrun as ->.
  - intros rb (ops & rs & Hrun).
    by apply FastRingFacts.run_capacity_zero in Hrun as ->.
Qed.

Lemma ticket_used_reachable : TicketLock.reachable_in 3 ticket_used.
Proof.
  apply (TicketFacts.ticket_exec_reachable ticket_used_schedule 0 TicketLock.init);
    [apply TicketLock.reachable_init|by vm_compute].
Qed.

(** Thread 0 calls [try_lock] after thread 1 has locked and unlocked once,
    and no thread steps between its load and its compare-exchange: the call
    succeeds with ticket 1. *)
Lemma try_lock_succeeds_iff_witness :
  ∃ s1 s3, TicketLock.step 0 TicketLock.CallTryLock ticket_used = Some s1 ∧
           TicketLock.step 0 TicketLock.TryLockCas s1 = Some s3 ∧
           TicketLock.threads s3 0%nat = TicketLock.Holding 1 ∧
           TicketLock.next_free_ticket_ (TicketLock.lock s3) = 1 + 1 ∧
           TicketLock.unheld_and_no_waiter s1.
Proof.
  destruct (TicketFacts.try_lock_succeeds_iff 3 ticket_used 0
              ticket_used_reachable eq_refl) as (s1 & Hload & Hlock & Hcall).
  destruct (Hcall 0%nat s1 (TicketLock.others_done 0 s1))
    as (s3 & Hcas & Hiff & Hsucc & _ & Hgloss).
  assert (Hnext : TicketLock.next_free_ticket_ (TicketLock.lock s1) = 1)
    by (rewrite Hlock; reflexivity).
  assert (Hok : TicketLock.holds s3 0)
    by (apply Hiff; rewrite Hnext; reflexivity).
  destruct (Hsucc Hok) as (Hth & _ & Hplus & _).
  destruct Hgloss as [Hfree _]; [by vm_compute|].
  exists s1, s3. split; [done|]. split; [done|].
  split; [rewrite Hth; reflexivity|]. split.
  - rewrite Hplus; rewrite Hnext; [reflexivity|]. split; by vm_compute.
  - by destruct (Hfree Hok).
Defined.

(** C5 as stated fails: a compare-exchange that finds the lock unheld and
    nobody queued still fails when [owner_ticket_] has moved since the
    load.  Thread 0 loads [owner_ticket_ = 0]; thread 1 locks and unlocks;
    the compare-exchange of thread 0 expects [next_free_ticket_ = 0] and
    finds 1. *)
Lemma try_lock_fails_on_free_lock :
  ∃ s3,
    TicketLock.reachable_in 0 TicketLock.init ∧
    TicketLock.step 0 TicketLock.CallTryLock TicketLock.init = Some try_loaded ∧
    TicketLock.others_run 0 3 try_loaded try_loaded_stale ∧
    TicketLock.unheld_and_no_waiter try_loaded_stale ∧
    TicketLock.step 0 TicketLock.TryLockCas try_loaded_stale = Some s3 ∧
    TicketLock.threads s3 0%nat = TicketLock.Idle ∧
    TicketLock.lock s3 = TicketLock.lock try_loaded_stale.
Proof.
  eexists. split; [apply TicketLock.reachable_init|]. split; [reflexivity|].
  split.
  { eapply (TicketLock.others_step 0 2 _ 1 TicketLock.CallLock); [done|reflexivity|].
    eapply (TicketLock.others_step 0 1 _ 1 TicketLock.SpinOnce); [done|reflexivity|].
    eapply (TicketLock.others_step 0 0 _ 1 TicketLock.CallUnlock); [done|reflexivity|].
    apply TicketLock.others_done. }
  split.
  { intros j. destruct (decide (j = 0%nat)) as [->|]; [reflexivity|].
    destruct (decide (j = 1%nat)) as [->|]; [reflexivity|].
    vm_compute. by repeat case_match. }
  split; [reflexivity|]. split; reflexivity.
Qed.

Lemma ticket_invariant_witness :
  TicketLock.owner_ticket_ (TicketLock.lock ticket_drawn) ≤
    TicketLock.next_free_ticket_ (TicketLock.lock ticket_drawn) ∧
  (∀ i, TicketLock.holds ticket_drawn i →
        TicketLock.drawn_ticket (TicketLock.threads ticket_drawn i) =
          Some (TicketLock.owner_ticket_ (TicketLock.lock ticket_drawn))) ∧
  (∀ i, TicketLock.drawn_ticket (TicketLock.threads ticket_drawn i) =
          Some (TicketLock.owner_ticket_ (TicketLock.lock ticket_drawn)) →
        TicketLock.holds ticket_drawn i ∨
        ∃ s', TicketLock.step i TicketLock.SpinOnce ticket_drawn = Some s' ∧
              TicketLock.holds s' i) ∧
  (∀ i j, TicketLock.drawn_ticket (TicketLock.threads ticket_drawn i) =
            Some (TicketLock.owner_ticket_ (TicketLock.lock ticket_drawn)) →
          TicketLock.drawn_ticket (TicketLock.threads ticket_drawn j) =
            Some (TicketLock.owner_ticket_ (TicketLock.lock ticket_drawn)) → i = j).
Proof.
  apply (TicketFacts.ticket_invariant 1 ticket_drawn).
  - eapply TicketLock.reachable_step; [apply TicketLock.reachable_init|].
    apply (TicketFacts.step_CallLock TicketLock.init 0). reflexivity.
  - reflexivity.
Defined.

Lemma ticket_contended_reachable : TicketLock.reachable_in 4 ticket_contended.
Proof.
  apply (TicketFacts.ticket_exec_reachable ticket_contended_schedule 0 TicketLock.init);
    [apply TicketLock.reachable_init|reflexivity].
Qed.

Lemma ticket_mutual_exclusion_fifo_witness :
  (TicketLock.threads ticket_contended 1%nat = TicketLock.Holding 1 → 0%nat = 1%nat) ∧
  (TicketLock.threads ticket_contended 1%nat = TicketLock.Spinning 1 → 0 < 1).
Proof.
  apply (TicketFacts.ticket_mutual_exclusion_fifo 4 ticket_contended 0 1 0 1).
  - apply ticket_contended_reachable.
  - reflexivity.
  - reflexivity.
Defined.

Lemma mutex_contended_reachable : Mutex.reachable mutex_contended.
Proof.
  pose proof Mutex.reachable_init as H0.
  pose proof (Mutex.reachable_step _ 0 Mutex.CallLock _ H0 eq_refl) as H1.
  pose proof (Mutex.reachable_step _ 1 Mutex.CallLock _ H1 eq_refl) as H2.
  exact (Mutex.reachable_step _ 1 Mutex.Advance _ H2 eq_refl).
Qed.

(** [unlock] by thread 0 with a waiter announced, no other thread stepping:
    the slow path, which ends with the word [Unlocked] and one wake. *)
Lemma unlock_paths_witness :
  ∃ s1 s3 s5,
    Mutex.step 0 Mutex.CallUnlock mutex_contended = Some s1 ∧
    Mutex.threads s1 0%nat = Mutex.Releasing ∧
    Mutex.step 0 Mutex.Advance s1 = Some s3 ∧
    Mutex.lock_ (Mutex.mutex s3) = Mutex.State.Unlocked ∧
    Mutex.step 0 Mutex.Advance s3 = Some s5 ∧
    Mutex.threads s5 0%nat = Mutex.Idle ∧
    Mutex.lock_ (Mutex.mutex s5) = Mutex.lock_ (Mutex.mutex s3) ∧
    Mutex.syscalls (Mutex.mutex s5) =
      Mutex.syscalls (Mutex.mutex s3) ++ [Mutex.FUTEX_WAKE Mutex.INT32_MAX].
Proof.
  destruct (MutexFacts.unlock_paths mutex_contended 0
              mutex_contended_reachable eq_refl) as (s1 & Hstep1 & _ & Hslow).
  destruct Hslow as (_ & Hth1 & _ & Hstore); [done|].
  destruct (Hstore s1 (Mutex.others_done 0 s1))
    as (s3 & Hstep3 & _ & Hword3 & _ & Hwake).
  destruct (Hwake s3 (Mutex.others_done 0 s3))
    as (s5 & Hstep5 & Hth5 & Hword5 & Hcalls5 & _).
  by exists s1, s3, s5.
Defined.

(** C8 as stated fails: the word need not be [Unlocked] when [unlock]
    returns.  Thread 0 holds the mutex and thread 1 is announced; thread 0
    calls [unlock], fails the fast path and stores [Unlocked]; thread 2
    locks on the fast path; then thread 0 issues its wake and returns, the
    word being [LockedNoWaiters]. *)
Lemma unlock_returns_while_locked :
  ∃ s1 s4 s5,
    Mutex.reachable mutex_contended ∧
    Mutex.threads mutex_contended 0%nat = Mutex.Holding ∧
    Mutex.step 0 Mutex.CallUnlock mutex_contended = Some s1 ∧
    Mutex.step 0 Mutex.Advance s1 = Some mutex_unlock_stored ∧
    Mutex.others_run 0 mutex_unlock_stored s4 ∧
    Mutex.step 0 Mutex.Advance s4 = Some s5 ∧
    Mutex.threads s5 0%nat = Mutex.Idle ∧
    Mutex.syscalls (Mutex.mutex s5) = [Mutex.FUTEX_WAKE Mutex.INT32_MAX] ∧
    Mutex.lock_ (Mutex.mutex s5) = Mutex.State.LockedNoWaiters.
Proof.
  eexists _, _, _. split; [apply mutex_contended_reachable|].
  split; [reflexivity|]. split; [reflexivity|]. split; [reflexivity|].
  split.
  { eapply (Mutex.others_step 0 _ 2 Mutex.CallLock); [done|reflexivity|].
    apply Mutex.others_done. }
  split; [reflexivity|]. split; [reflexivity|]. split; reflexivity.
Qed.

Lemma mcs_exchanged_reachable : QueueSpinLock.reachable mcs_exchanged.
Proof.
  apply (MCSFacts.mcs_exec_reachable [0; 0]%nat QueueSpinLock.init);
    [constructor|by vm_compute].
Qed.

Lemma mcs_owner_reachable : QueueSpinLock.reachable mcs_owner.
Proof.
  apply (MCSFacts.mcs_exec_reachable [0; 0; 0; 0]%nat QueueSpinLock.init);
    [constructor|by vm_compute].
Qed.

Lemma mcs_await_next_reachable : QueueSpinLock.reachable mcs_await_next.
Proof.
  apply (MCSFacts.mcs_exec_reachable [0; 0; 0; 0; 1; 1; 0]%nat QueueSpinLock.init);
    [constructor|by vm_compute].
Qed.

Lemma mcs_enqueue_dequeue_witness :
  (∃ s1, QueueSpinLock.step 0 mcs_exchanged = Some s1 ∧
     (QueueSpinLock.is_owner_ <$> QueueSpinLock.guards s1 !! 0%nat) = Some true ∧
     ∀ s2, QueueSpinLock.others_run 0 s1 s2 →
       ∃ s3, QueueSpinLock.step 0 s2 = Some s3 ∧
             QueueSpinLock.control s3 !! 0%nat = Some QueueSpinLock.Owner) ∧
  ((Atomic.compare_exchange_strong (QueueSpinLock.tail_ mcs_owner) (Some 0%nat) None).1
     = true ↔ QueueSpinLock.last_enqueued mcs_owner 0) ∧
  (∃ g, QueueSpinLock.guards mcs_await_next !! 0%nat = Some g ∧
     (QueueSpinLock.next_ g = None →
      QueueSpinLock.step 0 mcs_await_next = Some mcs_await_next)).
Proof.
  split; [|split].
  - destruct (MCSFacts.mcs_enqueue_dequeue mcs_exchanged 0 mcs_exchanged_reachable)
      as (Ha & _).
    by apply Ha.
  - destruct (MCSFacts.mcs_enqueue_dequeue mcs_owner 0 mcs_owner_reachable)
      as (_ & Hb & _).
    by apply Hb.
  - destruct (MCSFacts.mcs_enqueue_dequeue mcs_await_next 0 mcs_await_next_reachable)
      as (_ & _ & Hc).
    destruct (Hc eq_refl) as (g & Hg & Hwait & _). by exists g.
Defined.

Lemma ring_buffers_are_fifo_witness :
  fst <$> RingBuffer.run id [DoPush 1; DoPush 2; DoPush 3; DoPop; DoPop; DoPop]
            (RingBuffer.new 3) =
    Ok (BoundedQueue.run (3 - 1)
          [DoPush 1; DoPush 2; DoPush 3; DoPop; DoPop; DoPop] []).1 ∧
  fst <$> FastRingBuffer.run id [DoPush 1; DoPush 2; DoPush 3; DoPop; DoPop; DoPop]
            (FastRingBuffer.new 3) =
    Ok (BoundedQueue.run (3 - 1)
          [DoPush 1; DoPush 2; DoPush 3; DoPop; DoPop; DoPop] []).1.
Proof.
  apply (QueueFacts.ring_buffers_are_fifo id 3).
  split; [lia|reflexivity].
Defined.

Lemma spsc_overlapping_reachable : SPSC.reachable id 3 spsc_overlapping.
Proof.
  apply (SPSCFacts.spsc_exec_reachable id 3 spsc_schedule (SPSC.init 3));
    [constructor|by vm_compute].
Qed.

Lemma spsc_fifo_witness :
  (∃ waiting, SPSC.pushed spsc_overlapping = SPSC.popped spsc_overlapping ++ waiting ∧
              Z.of_nat (length waiting) ≤ 3 - 1) ∧
  (∀ val, SPSC.consuming spsc_overlapping = SPSC.CMoved val →
          SPSC.pushed spsc_overlapping !! length (SPSC.popped spsc_overlapping) =
            Some val) ∧
  (∀ a o, SPSC.step id a spsc_overlapping = Some o → ∃ s', o = Ok s') ∧
  Z.of_nat (length (FastRingBuffer.data_ (SPSC.buffer spsc_overlapping))) ≤ 3.
Proof.
  apply (SPSCFacts.spsc_fifo id 3 spsc_overlapping).
  - split; [lia|reflexivity].
  - apply spsc_overlapping_reachable.
Defined.

Lemma spsc_full_stale_reachable : SPSC.reachable id 3 spsc_full_stale.
Proof.
  apply (SPSCFacts.spsc_exec_reachable id 3 spsc_full_schedule (SPSC.init 3));
    [constructor|by vm_compute].
Qed.

(** The buffer is full and the consumer's cache is stale: a [Push] fails,
    as two values wait; a [Pop] finds its cached write index equal to the
    read index, reads [writeIdx_] again and goes on. *)
Lemma spsc_fails_iff_full_or_empty_witness :
  (Z.of_nat (length (SPSC.pushed spsc_full_stale)) -
   Z.of_nat (length (SPSC.popped spsc_full_stale)) = 3 - 1 ∧
   FastRingBuffer.writeIdxCached_ (SPSC.buffer spsc_full_stale) =
     FastRingBuffer.readIdx_ (SPSC.buffer spsc_full_stale) ∧
   FastRingBuffer.writeIdxCached_ (SPSC.buffer spsc_full_stale) ≠
     FastRingBuffer.writeIdx_ (SPSC.buffer spsc_full_stale)) ∧
  (∃ s', SPSC.step id (SPSC.PushCheck 10) spsc_full_stale = Some (Ok s') ∧
         SPSC.producing s' = SPSC.PIdle) ∧
  (∃ s', SPSC.step id SPSC.PopCheck spsc_full_stale = Some (Ok s') ∧
         SPSC.consuming s' ≠ SPSC.CIdle).
Proof.
  destruct (SPSCFacts.spsc_fails_iff_full_or_empty id 3 spsc_full_stale)
    as [Hpush Hpop];
    [split; [lia|reflexivity]|apply spsc_full_stale_reachable|].
  split; [by vm_compute|]. split.
  - destruct (SPSC.step id (SPSC.PushCheck 10) spsc_full_stale)
      as [[s'|]|] eqn:Hstep; [|by vm_compute in Hstep..].
    exists s'. split; [done|]. apply (Hpush 10 s' Hstep). by vm_compute.
  - destruct (SPSC.step id SPSC.PopCheck spsc_full_stale)
      as [[s'|]|] eqn:Hstep; [|by vm_compute in Hstep..].
    exists s'. split; [done|]. intros Hidle.
    apply (Hpop s' eq_refl) in Hidle. by vm_compute in Hidle.
Defined.

Lemma alternating_push_pop_witness :
  fst <$> FastRingBuffer.run id ([1; 2; 3; 4; 5] ≫= λ v, [DoPush v; DoPop])
            (FastRingBuffer.new 3) =
  Ok ([1; 2; 3; 4; 5] ≫= λ v, [Pushed true; Popped (Some v)]).
Proof.
  apply (QueueFacts.alternating_push_pop id 3 [1; 2; 3; 4; 5]).
  split; [lia|reflexivity].
Defined.

Lemma timeout_is_exact_witness :
  0 ≤ Futex.tv_sec (Futex.timeout (Futex.WaitTimed 2 1500000)) ≤ 4294 ∧
  0 ≤ Futex.tv_nsec (Futex.timeout (Futex.WaitTimed 2 1500000)) < 1000000000 ∧
  Futex.tv_nsec (Futex.timeout (Futex.WaitTimed 2 1500000)) =
    (1500000 mod 1000000) * 1000 ∧
  Futex.tv_sec (Futex.timeout (Futex.WaitTimed 2 1500000)) * 1000000000 +
    Futex.tv_nsec (Futex.timeout (Futex.WaitTimed 2 1500000)) = 1500000 * 1000.
Proof.
  apply (FutexFacts.timeout_is_exact 2 1500000).
  split; [lia|reflexivity].
Defined.

Lemma ticket_lock_passes_on_witness :
  (TicketLock.next_free_ticket_ (TicketLock.lock ticket_contended) =
     TicketLock.owner_ticket_ (TicketLock.lock ticket_contended) →
   TicketLock.unheld_and_no_waiter ticket_contended) ∧
  (TicketLock.owner_ticket_ (TicketLock.lock ticket_contended) <
     TicketLock.next_free_ticket_ (TicketLock.lock ticket_contended) →
   ∃ i, TicketLock.threads ticket_contended i =
          TicketLock.Holding (TicketLock.owner_ticket_ (TicketLock.lock ticket_contended)) ∨
        (TicketLock.threads ticket_contended i =
           TicketLock.Spinning (TicketLock.owner_ticket_ (TicketLock.lock ticket_contended)) ∧
         ∃ s', TicketLock.step i TicketLock.SpinOnce ticket_contended = Some s' ∧
               TicketLock.threads s' i =
                 TicketLock.Holding
                   (TicketLock.owner_ticket_ (TicketLock.lock ticket_contended)))).
Proof.
  apply (TicketFacts.ticket_lock_passes_on 4 ticket_contended).
  - apply ticket_contended_reachable.
  - reflexivity.
Defined.

Lemma spsc_plain_overlapping_reachable :
  SPSCPlain.reachable id 3 spsc_plain_overlapping.
Proof.
  apply (SPSCPlainFacts.spsc_plain_exec_reachable id 3 spsc_schedule (SPSCPlain.init 3));
    [constructor|by vm_compute].
Qed.

Lemma spsc_plain_fifo_witness :
  (∃ waiting, SPSCPlain.pushed spsc_plain_overlapping =
                SPSCPlain.popped spsc_plain_overlapping ++ waiting ∧
              Z.of_nat (length waiting) ≤ 3 - 1) ∧
  (∀ val, SPSCPlain.consuming spsc_plain_overlapping = SPSC.CMoved val →
          SPSCPlain.pushed spsc_plain_overlapping !!
            length (SPSCPlain.popped spsc_plain_overlapping) = Some val) ∧
  (∀ a o, SPSCPlain.step id a spsc_plain_overlapping = Some o → ∃ s', o = Ok s') ∧
  Z.of_nat (length (RingBuffer.data_ (SPSCPlain.buffer spsc_plain_overlapping))) ≤ 3.
Proof.
  apply (SPSCPlainFacts.spsc_plain_fifo id 3 spsc_plain_overlapping).
  - split; [lia|reflexivity].
  - apply spsc_plain_overlapping_reachable.
Defined.

Lemma ttas_held_reachable : TASSpinLock.reachable ttas_held.
Proof.
  apply (TASSpinLock.reachable_step TASSpinLock.init 0 (TASSpinLock.LockAttempt false));
    [constructor|reflexivity].
Qed.

Lemma ttas_mutual_exclusion_witness :
  (TASSpinLock.threads ttas_held 0%nat = TASSpinLock.Holding →
   TASSpinLock.threads ttas_held 1%nat = TASSpinLock.Holding → 0%nat = 1%nat) ∧
  (TASSpinLock.threads ttas_held 0%nat = TASSpinLock.Holding →
   TASSpinLock.locked_ (TASSpinLock.flag ttas_held) = true) ∧
  (TASSpinLock.locked_ (TASSpinLock.flag ttas_held) = true →
   ∃ k, TASSpinLock.threads ttas_held k = TASSpinLock.Holding).
Proof.
  apply (TASFacts.ttas_mutual_exclusion ttas_held 0 1), ttas_held_reachable.
Defined.

Lemma mutex_mutual_exclusion_witness :
  (Mutex.owns (Mutex.threads mutex_contended 0%nat) →
   Mutex.owns (Mutex.threads mutex_contended 1%nat) → 0%nat = 1%nat) ∧
  (Mutex.owns (Mutex.threads mutex_contended 0%nat) →
   Mutex.lock_ (Mutex.mutex mutex_contended) ≠ Mutex.State.Unlocked) ∧
  (Mutex.lock_ (Mutex.mutex mutex_contended) ≠ Mutex.State.Unlocked →
   ∃ k, Mutex.owns (Mutex.threads mutex_contended k)).
Proof.
  apply (MutexFacts.mutex_mutual_exclusion mutex_contended 0 1),
    mutex_contended_reachable.
Defined.

Lemma mutex_asleep_reachable : Mutex.reachable mutex_asleep.
Proof.
  exact (Mutex.reachable_step _ 1 Mutex.Advance _ mutex_contended_reachable eq_refl).
Qed.

Lemma mutex_no_lost_wakeup_witness :
  Mutex.wake_pending mutex_asleep ∧
  (∀ k, Mutex.threads mutex_asleep k = Mutex.Holding →
        Mutex.lock_ (Mutex.mutex mutex_asleep) = Mutex.State.LockedHasWaiters →
        ∃ s1, Mutex.step k Mutex.CallUnlock mutex_asleep = Some s1 ∧
              Mutex.threads s1 k = Mutex.Releasing ∧
              Mutex.threads s1 1%nat = Mutex.Asleep) ∧
  (∀ k, Mutex.threads mutex_asleep k = Mutex.Waking →
        ∃ s1, Mutex.step k Mutex.Advance mutex_asleep = Some s1 ∧
              Mutex.threads s1 1%nat = Mutex.Resumed ∧
              Mutex.syscalls (Mutex.mutex s1) =
                Mutex.syscalls (Mutex.mutex mutex_asleep) ++
                [Mutex.FUTEX_WAKE Mutex.INT32_MAX]).
Proof.
  apply (MutexFacts.mutex_no_lost_wakeup mutex_asleep 1).
  - apply mutex_asleep_reachable.
  - reflexivity.
Defined.

Lemma mcs_queued_reachable :
  QueueSpinLock.reachable_with mcs_queued mcs_queued_history.
Proof.
  apply (MCSFacts.exec_with_reachable mcs_queued_schedule
           QueueSpinLock.init _ QueueSpinLock.no_history);
    [constructor|by vm_compute].
Qed.

Lemma mcs_no_dangling_guard_witness :
  (∀ p, QueueSpinLock.control mcs_queued !! 1%nat =
          Some (QueueSpinLock.Exchanged (Some p)) →
        is_Some (QueueSpinLock.guards mcs_queued !! p)) ∧
  (∀ n, QueueSpinLock.control mcs_queued !! 1%nat = Some (QueueSpinLock.Handoff n) →
        is_Some (QueueSpinLock.guards mcs_queued !! n)) ∧
  is_Some (QueueSpinLock.step 1 mcs_queued).
Proof.
  apply (MCSFacts.mcs_no_dangling_guard mcs_queued 1).
  apply (MCSFacts.reachable_with_reachable mcs_queued mcs_queued_history),
    mcs_queued_reachable.
Defined.

Lemma mcs_mutual_exclusion_witness :
  (QueueSpinLock.control mcs_queued !! 1%nat = Some QueueSpinLock.Owner →
   0%nat = 1%nat) ∧
  (∀ g, 1%nat ≠ 0%nat → QueueSpinLock.guards mcs_queued !! 1%nat = Some g →
        QueueSpinLock.is_owner_ g = false).
Proof.
  apply (MCSFacts.mcs_mutual_exclusion mcs_queued 0 1).
  - apply (MCSFacts.reachable_with_reachable mcs_queued mcs_queued_history),
      mcs_queued_reachable.
  - reflexivity.
Defined.

Lemma mcs_first_come_first_served_witness :
  ∃ rx, QueueSpinLock.rank mcs_queued_history !! 0%nat = Some rx ∧ (rx < 1)%nat ∧
        QueueSpinLock.enqueued mcs_queued !! rx = Some 0%nat ∧
        QueueSpinLock.enqueued mcs_queued !! 1%nat = Some 1%nat.
Proof.
  apply (MCSFacts.mcs_first_come_first_served mcs_queued mcs_queued_history 0 1 1).
  - apply mcs_queued_reachable.
  - reflexivity.
  - lia.
  - reflexivity.
Defined.

Lemma mcs_never_stuck_witness :
  ∃ y q s', QueueSpinLock.control mcs_queued !! y = Some q ∧
            q ≠ QueueSpinLock.Constructed ∧
            QueueSpinLock.step y mcs_queued = Some s' ∧
            QueueSpinLock.control s' !! y ≠ Some q.
Proof.
  apply (MCSFacts.mcs_never_stuck mcs_queued 1
           (QueueSpinLock.Exchanged (Some 0%nat))).
  - apply (MCSFacts.reachable_with_reachable mcs_queued mcs_queued_history),
      mcs_queued_reachable.
  - reflexivity.
  - discriminate.
Defined.

(** Ten threads, as in the tests, and a thousand increments each. *)
Lemma locks_count_exactly_witness :
  Worker.counts_exactly (L := TASSpinLock.system) 10 1000 ∧
  Worker.counts_exactly (L := TicketLock.system) 10 1000 ∧
  Worker.counts_exactly (L := QueueSpinLock.system) 10 1000 ∧
  Worker.counts_exactly (L := Mutex.system) 10 1000.
Proof. apply (WorkerFacts.locks_count_exactly 10 1000). by vm_compute. Defined.

Lemma ttas_counter_exact_witness :
  Worker.counts_exactly (L := TASSpinLock.system) 8 3.
Proof. apply (WorkerFacts.ttas_counter_exact 8 3). by vm_compute. Defined.

Lemma ticket_counter_exact_witness :
  Worker.counts_exactly (L := TicketLock.system) 8 3.
Proof. apply (WorkerFacts.ticket_counter_exact 8 3). by vm_compute. Defined.

Lemma mutex_counter_exact_witness :
  Worker.counts_exactly (L := Mutex.system) 8 3.
Proof. apply (WorkerFacts.mutex_counter_exact 8 3). by vm_compute. Defined.

Lemma mcs_counter_exact_witness :
  Worker.counts_exactly (L := QueueSpinLock.system) 8 3.
Proof. apply (WorkerFacts.mcs_counter_exact 8 3). by vm_compute. Defined.

End Witnesses.
